(** * Client Asset Report Generator ([asset.py])

    A shallow embedding of the report pipeline of [asset.py] and the
    properties its specification states about it.

    - Python [str] values are Rocq [string]s holding the UTF-8 encoding of
      the text ("₹" is the three bytes E2 82 B9).
    - Python [float] values are IEEE-754 binary64 numbers, taken from the
      bit-level specification [SpecFloat] with [prec = 53], [emax = 1024].
    - Code that may raise returns a [result]; [try]/[except Exception] is
      [try_except].
    - A pandas frame is a list of rows; a column operation is a [map] or a
      [filter] over that list; [Series.sum()] adds in the order of numpy's
      pairwise summation.
    - What the installation fixes ([os.sep], and the zero numpy starts a sum
      from) is a [Platform]; the properties hold on every one.
    - matplotlib, WeasyPrint and Streamlit are collaborators of the code:
      the renderers are section variables, the widgets are [ui_event]s. *)

From Stdlib Require Import ZArith QArith Qabs Qround Qpower Lia Lqa List Bool.
From Stdlib Require Import Ascii String DecimalString DecimalPos DecimalZ.
From Stdlib Require Import SpecFloat Permutation.
From Equations Require Import Equations.
Import ListNotations.

Local Close Scope Q_scope.
Local Open Scope string_scope.
Local Open Scope list_scope.

(** ** Exceptions *)

Inductive exn : Type :=
  Exn (cls : string) (msg : string).

(** [str(e)] *)
Definition exn_str (e : exn) : string :=
  let '(Exn _ msg) := e in msg.

Inductive result (A : Type) : Type :=
| Ok (a : A)
| Raise (e : exn).
Arguments Ok {A} a.
Arguments Raise {A} e.

Definition bind {A B} (r : result A) (k : A -> result B) : result B :=
  match r with
  | Ok a => k a
  | Raise e => Raise e
  end.

Notation "x <- r ;; k" := (bind r (fun x => k))
  (at level 61, r at next level, right associativity).

(** [try: body  except Exception as e: handler(e)] *)
Definition try_except {A} (body : result A) (handler : exn -> A) : A :=
  match body with
  | Ok a => a
  | Raise e => handler e
  end.

(** ** Python strings *)

Module PyStr.

Definition chars (l : list nat) : string :=
  fold_right (fun n s => String (ascii_of_nat n) s) "" l.

Fixpoint rev (s : string) : string :=
  match s with
  | "" => ""
  | String c s' => rev s' ++ String c ""
  end.

(** [s.replace(old, "")] for a non-empty [old]: scan from the left, drop
    every occurrence met, resume after it. [skip] counts the bytes of the
    occurrence that are still to be dropped. *)
Fixpoint remove_from (old : string) (skip : nat) (s : string) : string :=
  match s with
  | "" => ""
  | String c s' =>
      match skip with
      | S k => remove_from old k s'
      | O =>
          if prefix old s
          then remove_from old (String.length old - 1) s'
          else String c (remove_from old 0 s')
      end
  end.

Definition remove (old s : string) : string := remove_from old 0 s.

(** The characters [str.isspace] accepts, in UTF-8: U+0009..U+000D,
    U+001C..U+0020, U+0085, U+00A0, U+1680, U+2000..U+200A, U+2028,
    U+2029, U+202F, U+205F, U+3000. *)
Definition whitespace : list string :=
  map chars
    [ [9]; [10]; [11]; [12]; [13]; [28]; [29]; [30]; [31]; [32];
      [194; 133]; [194; 160]; [225; 154; 128];
      [226; 128; 128]; [226; 128; 129]; [226; 128; 130]; [226; 128; 131];
      [226; 128; 132]; [226; 128; 133]; [226; 128; 134]; [226; 128; 135];
      [226; 128; 136]; [226; 128; 137]; [226; 128; 138];
      [226; 128; 168]; [226; 128; 169]; [226; 128; 175];
      [226; 129; 159]; [227; 128; 128] ].

(** Length of the whitespace character [s] starts with, 0 when it starts
    with none. *)
Definition space_at (ws : list string) (s : string) : nat :=
  match find (fun w => prefix w s) ws with
  | Some w => String.length w
  | None => 0
  end.

Fixpoint lstrip_from (ws : list string) (skip : nat) (s : string) : string :=
  match s with
  | "" => ""
  | String _ s' =>
      match skip with
      | S k => lstrip_from ws k s'
      | O =>
          match space_at ws s with
          | O => s
          | S k => lstrip_from ws k s'
          end
      end
  end.

Definition lstrip (s : string) : string := lstrip_from whitespace 0 s.

Definition rstrip (s : string) : string :=
  rev (lstrip_from (map rev whitespace) 0 (rev s)).

(** [s.strip()] *)
Definition strip (s : string) : string := lstrip (rstrip s).

(** [str.lower] on the ASCII letters. Bytes of a multi-byte character are
    left as they are: no character outside ASCII lowers to a letter of the
    words this program compares with ("total", "inf", "nan"). *)
Definition lower_ascii (c : ascii) : ascii :=
  let n := nat_of_ascii c in
  if (65 <=? n)%nat && (n <=? 90)%nat then ascii_of_nat (n + 32) else c.

Fixpoint lower (s : string) : string :=
  match s with
  | "" => ""
  | String c s' => String (lower_ascii c) (lower s')
  end.

(** [sep.join(parts)] *)
Fixpoint join (sep : string) (parts : list string) : string :=
  match parts with
  | [] => ""
  | [p] => p
  | p :: rest => p ++ sep ++ join sep rest
  end.

(** [s[:-k]] and [s[-k:]] for [k > 0] *)
Definition drop_last (k : nat) (s : string) : string :=
  substring 0 (String.length s - k) s.

Definition take_last (k : nat) (s : string) : string :=
  substring (String.length s - k) k s.

(** [x in xs] for a list of strings *)
Definition mem (x : string) (xs : list string) : bool :=
  existsb (String.eqb x) xs.

End PyStr.

(** ** binary64 *)

Module Binary64.

Definition prec : Z := 53%Z.
Definition emax : Z := 1024%Z.

Definition float : Type := spec_float.

Definition zero : float := S754_zero false.
Definition infinity : float := S754_infinity false.
Definition nan : float := S754_nan.

Definition add : float -> float -> float := SFadd prec emax.
Definition mul : float -> float -> float := SFmul prec emax.
Definition div : float -> float -> float := SFdiv prec emax.
Definition eqb : float -> float -> bool := SFeqb.
Definition ltb : float -> float -> bool := SFltb.
Definition leb : float -> float -> bool := SFleb.

Definition is_nan (x : float) : bool :=
  match x with
  | S754_nan => true
  | _ => false
  end.

(** The nearest binary64 number to an integer, ties to even. *)
Definition of_Z (z : Z) : float := binary_normalize prec emax z 0%Z false.

(** The nearest binary64 number to [(-1)^neg * m * 10^e10], ties to even:
    what a correctly rounded [strtod] returns for a decimal literal. *)
Definition of_decimal (neg : bool) (m : N) (e10 : Z) : float :=
  match m with
  | N0 => S754_zero neg
  | Npos p =>
      match e10 with
      | Zneg k =>
          let '(mz, ez, lz) :=
            SFdiv_core_binary prec emax (Zpos p) 0%Z (Zpos (10 ^ k)%positive) 0%Z in
          binary_round_aux prec emax neg mz ez lz
      | _ => binary_round prec emax neg (p * Z.to_pos (10 ^ e10))%positive 0%Z
      end
  end.

(** [m / 2^k] rounded to the nearest integer, ties to even. *)
Definition rne_shift (m : Z) (k : positive) : Z :=
  let q := Z.shiftr m (Zpos k) in
  let r := (m - Z.shiftl q (Zpos k))%Z in
  match (2 * r ?= Z.shiftl 1 (Zpos k))%Z with
  | Lt => q
  | Gt => (q + 1)%Z
  | Eq => if Z.even q then q else (q + 1)%Z
  end.

(** The integer nearest to the magnitude of a finite float. *)
Definition nearest_int (m : positive) (e : Z) : Z :=
  match e with
  | Z0 => Zpos m
  | Zpos k => Z.shiftl (Zpos m) (Zpos k)
  | Zneg k => rne_shift (Zpos m) k
  end.

(** [numpy.rint] *)
Definition rint (x : float) : float :=
  match x with
  | S754_finite s m (Zneg k) =>
      binary_normalize prec emax
        (cond_Zopp s (nearest_int m (Zneg k))) 0%Z s
  | _ => x
  end.

(** [int(round(x))]: [round] with one argument rounds half to even and
    raises on a NaN or an infinity. *)
Definition round_int (x : float) : result Z :=
  match x with
  | S754_zero _ => Ok 0%Z
  | S754_finite s m e => Ok (cond_Zopp s (nearest_int m e))
  | S754_infinity _ =>
      Raise (Exn "OverflowError" "cannot convert float infinity to integer")
  | S754_nan =>
      Raise (Exn "ValueError" "cannot convert float NaN to integer")
  end.

(** [float(n)] for a Python [int] *)
Definition of_int (n : Z) : result float :=
  match of_Z n with
  | S754_infinity _ =>
      Raise (Exn "OverflowError" "int too large to convert to float")
  | x => Ok x
  end.

(** The real number a finite float stands for (0 for the others). *)
Definition to_Q (x : float) : Q :=
  match x with
  | S754_finite s m e =>
      let v := match e with
               | Zneg k => (Zpos m # (2 ^ k))%Q
               | _ => inject_Z (Zpos m * 2 ^ e)%Z
               end in
      if s then Qopp v else v
  | _ => 0%Q
  end.

End Binary64.

Import Binary64.

(** ** [float(s)] for a string

    CPython strips white space, checks that every underscore stands between
    two digits and drops them, then reads an optional sign followed by
    "inf", "infinity" or "nan" in any case, or by a decimal literal
    [digits [. digits] [(e|E) [sign] digits]] with a digit before or after
    the point, and rounds it to the nearest binary64 number. Anything else
    is a [ValueError]. Only the ASCII digits are modelled as digits. *)

Module PyFloat.

Definition is_digit (c : ascii) : bool :=
  let n := nat_of_ascii c in (48 <=? n)%nat && (n <=? 57)%nat.

Definition digit_val (c : ascii) : N := N.of_nat (nat_of_ascii c - 48).

Definition underscore : ascii := "_"%char.

Fixpoint underscores_ok (prev : ascii) (s : string) : bool :=
  match s with
  | "" => negb (Ascii.eqb prev underscore)
  | String c s' =>
      (if Ascii.eqb c underscore then is_digit prev
       else negb (Ascii.eqb prev underscore) || is_digit c)
      && underscores_ok c s'
  end.

(** Reads digits: the number read so far, how many digits were read, and
    what is left. *)
Fixpoint digits (s : string) (acc : N) (n : nat) : N * nat * string :=
  match s with
  | "" => (acc, n, "")
  | String c s' =>
      if is_digit c then digits s' (10 * acc + digit_val c)%N (S n)
      else (acc, n, s)
  end.

Definition sign (s : string) : bool * string :=
  match s with
  | String "-" s' => (true, s')
  | String "+" s' => (false, s')
  | _ => (false, s)
  end.

(** What follows the [e]: it must be all of the rest. *)
Definition exponent (s : string) : option Z :=
  let '(neg, s1) := sign s in
  let '(v, n, rest) := digits s1 0%N 0 in
  if (n =? 0)%nat || negb (rest =? "") then None
  else Some (if neg then (- Z.of_N v)%Z else Z.of_N v).

(** A decimal literal as [(m, e)], standing for [m * 10^e]. *)
Definition decimal (s : string) : option (N * Z) :=
  let '(ip, ni, r1) := digits s 0%N 0 in
  let '(m, nf, r2) :=
    match r1 with
    | String "." r => digits r ip 0
    | _ => (ip, 0, r1)
    end in
  if (ni + nf =? 0)%nat then None
  else
    match r2 with
    | "" => Some (m, (- Z.of_nat nf)%Z)
    | String c r3 =>
        if Ascii.eqb c "e" || Ascii.eqb c "E" then
          match exponent r3 with
          | Some e => Some (m, (e - Z.of_nat nf)%Z)
          | None => None
          end
        else None
    end.

Definition of_string (s : string) : result float :=
  let s := PyStr.strip s in
  let err : result float :=
    Raise (Exn "ValueError"
               ("could not convert string to float: '" ++ s ++ "'")) in
  if negb (underscores_ok Ascii.zero s) then err
  else
    let '(neg, body) := sign (PyStr.remove "_" s) in
    let word := PyStr.lower body in
    if (word =? "inf") || (word =? "infinity") then Ok (S754_infinity neg)
    else if word =? "nan" then Ok S754_nan
    else
      match decimal body with
      | Some (m, e) => Ok (of_decimal neg m e)
      | None => err
      end.

End PyFloat.

(** ** Helpers of [asset.py] *)

(** The body of the [try] in [clean_number(x)], for a cell read with
    [dtype=str] (so that [str(x)] is [x]). *)
Definition clean_number_try (x : string) : result float :=
  let x := PyStr.strip (PyStr.remove "," (PyStr.remove "₹" x)) in
  if negb (PyStr.mem x [""; "nan"; "None"]) then PyFloat.of_string x
  else Ok Binary64.zero.

Definition clean_number (x : string) : float :=
  try_except (clean_number_try x) (fun _ => Binary64.zero).

(** The argument of [float(amount)]: a Python [int] or a [float]. *)
Inductive number : Type :=
| Int (n : Z)
| Float (x : float).

Definition to_float (a : number) : result float :=
  match a with
  | Int n => of_int n
  | Float x => Ok x
  end.

(** [str(n)] for a Python [int] *)
Definition str_int (n : Z) : string := NilZero.string_of_int (Z.to_int n).

Definition inspect {A} (a : A) : {b : A | a = b} := exist _ a eq_refl.

(** The [while len(remaining) > 2] loop: the final [remaining] and
    [groups]. *)
Equations? group_loop (remaining : string) (groups : list string)
  : string * list string by wf (String.length remaining) lt :=
  group_loop remaining groups with inspect (2 <? String.length remaining)%nat := {
    | exist _ true more =>
        group_loop (PyStr.drop_last 2 remaining)
                   (groups ++ [PyStr.take_last 2 remaining]);
    | exist _ false _ => (remaining, groups) }.
Proof.
  apply Nat.ltb_lt in more. unfold PyStr.drop_last.
  assert (L : forall (s : string) (n : nat),
             (String.length (substring 0 n s) <= n)%nat).
  { induction s as [|c s IH]; intros [|n]; simpl; auto with arith. }
  specialize (L remaining (String.length remaining - 2)). lia.
Qed.

Definition rupee : string := "₹ ".

Definition format_indian_currency (amount : number) : result string :=
  amount <- to_float amount ;;
  if Binary64.eqb amount Binary64.zero then Ok (rupee ++ "0")%string
  else
    n <- round_int amount ;;
    let amount_str := str_int n in
    let formatted :=
      if (String.length amount_str <=? 3)%nat then amount_str
      else
        let last_three := PyStr.take_last 3 amount_str in
        let remaining := PyStr.drop_last 3 amount_str in
        let '(remaining, groups) := group_loop remaining [] in
        let groups :=
          if (remaining =? "") then groups else groups ++ [remaining] in
        let groups := List.rev groups in
        (PyStr.join "," groups ++ "," ++ last_three)%string in
    Ok (rupee ++ formatted)%string.


(** ** The arithmetic of the allocation columns

    The Allocation Calculator is a handful of pandas column expressions. It
    is written once over the operations it uses, so that the same text is
    run on binary64 (what the program does) and, for the numerical bounds,
    on rationals with a rounding after every operation. *)

Class Arith (F : Type) : Type := {
  a_zero : F;
  a_neg_zero : F;                (* -0.0 *)
  a_hundred : F;
  a_add : F -> F -> F;
  a_mul : F -> F -> F;
  a_div : F -> F -> F;
  a_rint : F -> F;               (* numpy.rint *)
  a_gtb : F -> F -> bool;        (* x > y *)
  a_isnan : F -> bool
}.

#[export] Instance binary64_arith : Arith float := {
  a_zero := Binary64.zero;
  a_neg_zero := S754_zero true;
  a_hundred := Binary64.of_Z 100;
  a_add := Binary64.add;
  a_mul := Binary64.mul;
  a_div := Binary64.div;
  a_rint := Binary64.rint;
  a_gtb := fun x y => Binary64.ltb y x;
  a_isnan := Binary64.is_nan
}.

(** Rationals, every result passed through [rnd]. There is no NaN. *)
Definition Qnearest (x : Q) : Z :=
  let f := Qfloor x in
  match Qcompare (x - inject_Z f) (1 # 2) with
  | Lt => f
  | Gt => (f + 1)%Z
  | Eq => if Z.even f then f else (f + 1)%Z
  end.

Definition rounded_arith (rnd : Q -> Q) : Arith Q := {|
  a_zero := 0%Q;
  a_neg_zero := 0%Q;
  a_hundred := 100%Q;
  a_add := fun x y => rnd (x + y)%Q;
  a_mul := fun x y => rnd (x * y)%Q;
  a_div := fun x y => rnd (x / y)%Q;
  a_rint := fun x => inject_Z (Qnearest x);
  a_gtb := fun x y => negb (Qle_bool x y);
  a_isnan := fun _ => false
|}.

(** ** Allocation Calculator (lines 188-192 and 211-215) *)

Record allocation_row (F : Type) : Type := {
  asset_type : string;
  value : F;
  percent : F
}.
Arguments asset_type {F} _.
Arguments value {F} _.
Arguments percent {F} _.

(** What the installation fixes and the program reads: the path separator
    of the operating system, and the zero a [numpy.add] reduction over a
    non-empty float array starts from. numpy releases that keep the sign of
    a sum of negative zeros start from -0.0, the others from 0.0. *)
Class Platform : Type := {
  os_sep : ascii;                     (* [os.sep] *)
  add_identity_negative : bool
}.

Section Calculator.
Context {F : Type} {A : Arith F} {P : Platform}.

Definition add_identity : F :=
  if add_identity_negative then a_neg_zero else a_zero.

(** numpy's [DOUBLE_pairwise_sum], the inner loop of [numpy.add.reduce] on
    a contiguous array. Under 8 numbers: one accumulator, from the left.
    Up to 128 numbers ([PW_BLOCKSIZE]): 8 accumulators [r[0..7]] that start
    as the first 8 numbers and take the following blocks of 8, position by
    position; they are added as
    [((r0+r1)+(r2+r3)) + ((r4+r5)+(r6+r7))], and the numbers after the last
    full block are added to that, from the left. Above 128: the array is
    cut at [n/2] lowered to a multiple of 8, and the sums of the two parts
    are added. *)
Fixpoint accumulate (r : F * F * F * F * F * F * F * F) (a : list F)
  : (F * F * F * F * F * F * F * F) * list F :=
  match a with
  | a0 :: a1 :: a2 :: a3 :: a4 :: a5 :: a6 :: a7 :: a' =>
      let '(r0, r1, r2, r3, r4, r5, r6, r7) := r in
      accumulate (a_add r0 a0, a_add r1 a1, a_add r2 a2, a_add r3 a3,
                  a_add r4 a4, a_add r5 a5, a_add r6 a6, a_add r7 a7) a'
  | _ => (r, a)
  end.

Definition pairwise_block (a : list F) : F :=
  match a with
  | a0 :: a1 :: a2 :: a3 :: a4 :: a5 :: a6 :: a7 :: a' =>
      let '((r0, r1, r2, r3, r4, r5, r6, r7), rest) :=
        accumulate (a0, a1, a2, a3, a4, a5, a6, a7) a' in
      let res := a_add (a_add (a_add r0 r1) (a_add r2 r3))
                       (a_add (a_add r4 r5) (a_add r6 r7)) in
      fold_left a_add rest res
  | _ => fold_left a_add a add_identity
  end.

(** [n2 = n / 2; n2 -= n2 % 8] *)
Definition half_block (n : nat) : nat :=
  let n2 := (n / 2)%nat in
  (n2 - n2 mod 8)%nat.

Lemma half_block_inside (n : nat) :
  (128 < n)%nat -> (0 < half_block n < n)%nat.
Proof.
  intros H. unfold half_block.
  pose proof (Nat.div_mod_eq n 2) as D.
  pose proof (Nat.mod_upper_bound n 2 ltac:(discriminate)) as M.
  pose proof (Nat.mod_upper_bound (n / 2) 8 ltac:(discriminate)) as L.
  set (h := (n / 2)%nat) in *. set (m := (h mod 8)%nat) in *.
  set (t := (n mod 2)%nat) in *. clearbody h m t. lia.
Qed.

(** The recursion of the C code; [depth] bounds its depth, and the length
    of the array is more than it ever takes ([pairwise_sum_eq] below). *)
Fixpoint pairwise_split (depth : nat) (a : list F) : F :=
  match depth with
  | S depth =>
      if (128 <? List.length a)%nat
      then
        let n2 := half_block (List.length a) in
        a_add (pairwise_split depth (firstn n2 a))
              (pairwise_split depth (skipn n2 a))
      else pairwise_block a
  | O => pairwise_block a
  end.

Definition pairwise_sum (a : list F) : F :=
  pairwise_split (List.length a) a.

(** [Series.sum()], that is [nansum]: a NaN counts as 0 ([skipna=True]);
    the sum of no number is 0.0, and the other sums are [numpy.add.reduce],
    which adds the pairwise sum to the identity it starts from. *)
Definition series_sum (vs : list F) : F :=
  let values := map (fun v => if a_isnan v then a_zero else v) vs in
  match values with
  | [] => a_zero
  | _ :: _ => a_add add_identity (pairwise_sum values)
  end.

(** [Series.round(2)], that is [numpy.around]: scale by 100, round to the
    nearest integer, scale back. *)
Definition round2 (x : F) : F :=
  a_div (a_rint (a_mul x a_hundred)) a_hundred.

(** [client_df["% Allocation"] =
      (client_df["Value"]/total_value*100).round(2) if total_value>0 else 0] *)
Definition percent_column (values : list F) (total_value : F) : list F :=
  if a_gtb total_value a_zero
  then map round2 (map (fun v => a_mul (a_div v total_value) a_hundred) values)
  else map (fun _ => a_zero) values.

(** A frame from its three columns. *)
Fixpoint frame_of_columns (types : list string) (values percents : list F)
  : list (allocation_row F) :=
  match types, values, percents with
  | t :: types, v :: values, p :: percents =>
      {| asset_type := t; value := v; percent := p |}
        :: frame_of_columns types values percents
  | _, _, _ => []
  end.

(** [assets] is the client's row without its first cell: the column labels
    with the values under them. *)
Definition allocation (assets : list (string * F)) : list (allocation_row F) :=
  let types := map fst assets in
  let values := map snd assets in
  let total_value := series_sum values in
  let client_df :=
    frame_of_columns types values (percent_column values total_value) in
  client_df
    ++ [ {| asset_type := "Total"; value := total_value;
            percent := a_hundred |} ].

(** ** Chart input (lines 153-157) *)

Definition plot_rows (client_df : list (allocation_row F))
  : list (allocation_row F) :=
  let plot_df :=
    filter (fun r => negb (PyStr.lower (asset_type r) =? "total")) client_df in
  filter (fun r => a_gtb (value r) a_zero) plot_df.

Definition palette : list string :=
  [ "#d65a8d"; "#d4b483"; "#274472"; "#c0c0c0"; "#3d6ba0"; "#f5e6d3";
    "#5f84ce"; "#a8dadc"; "#f2a7bb" ].

(** [colors[:max(1, len(plot_df))]] *)
Definition plot_colors (plot_df : list (allocation_row F)) : list string :=
  firstn (Nat.max 1 (List.length plot_df)) palette.

End Calculator.

(** ** Report builders *)

(** What the program hands to matplotlib, WeasyPrint and [str.format], and
    the page template of lines 88-149. Each renderer may raise. *)
Class Backend : Type := {
  date : Type;
  (** [ax.pie(values, startangle=90, colors=colors)] saved as a PNG in
      base64 *)
  render_pie : list float -> list string -> result string;
  (** [HTML(string=html, base_url=TEMPLATE_DIR).write_pdf()] *)
  write_pdf : string -> result string;
  (** [f"{x:.2f}"] *)
  fixed2 : float -> string;
  (** [str.upper] *)
  upper : string -> string;
  (** [report_dt.strftime("%d %B %Y")] *)
  strftime : date -> string;
  (** the page around client name, report date, chart and table rows *)
  page : string -> string -> string -> string -> string
}.

Definition mapM {A B} (f : A -> result B) : list A -> result (list B) :=
  fix go (l : list A) : result (list B) :=
    match l with
    | [] => Ok []
    | a :: l' => b <- f a ;; bs <- go l' ;; Ok (b :: bs)
    end.

Section Builders.
Context {B : Backend}.

Definition row_html (row : allocation_row float) : result string :=
  money <- format_indian_currency (Float (value row)) ;;
  let '(formatted_value, allocation) :=
    if asset_type row =? "Total"
    then ("<strong>" ++ money ++ "</strong>",
          "<strong>" ++ fixed2 (percent row) ++ "%</strong>")%string
    else (money, (fixed2 (percent row) ++ "%")%string) in
  Ok ("<tr><td>" ++ asset_type row ++ "</td>"
      ++ "<td style='text-align: right;'>" ++ formatted_value ++ "</td>"
      ++ "<td style='text-align: right;'>" ++ allocation ++ "</td></tr>")%string.

Definition build_unified_html (client_name : string)
    (client_df : list (allocation_row float)) (report_dt : date)
    (chart_b64 : string) : result string :=
  rows_html <- mapM row_html client_df ;;
  let rows_html := PyStr.join (String (ascii_of_nat 10) "") rows_html in
  let client_name_upper := upper client_name in
  let report_date_str := upper (strftime report_dt) in
  Ok (page client_name_upper report_date_str chart_b64 rows_html).

Definition build_client_pdf_bytes (client_name : string)
    (client_df : list (allocation_row float)) (report_dt : date)
  : result string :=
  let plot_df := plot_rows client_df in
  let colors := plot_colors plot_df in
  chart_b64 <- render_pie (map value plot_df) colors ;;
  html_str <- build_unified_html client_name client_df report_dt chart_b64 ;;
  write_pdf html_str.

End Builders.

(** ** The Streamlit script (lines 172-220) *)

(** The frame [pd.read_excel(uploaded_file, dtype=str)] returns: the labels
    of the columns after the first, and per row the first cell and the
    cells under those labels. [None] is a missing cell (NaN). *)
Record raw_frame : Type := {
  raw_columns : list string;
  raw_rows : list (option string * list (option string))
}.

(** The frame after line 177: identifiers are text, asset cells are
    floats. *)
Record frame : Type := {
  columns : list string;
  rows : list (string * list float)
}.

Definition placeholders : list string :=
  [ "NA"; "N.A"; "N/A"; "na"; "n.a"; "n/a"; ""; "Pending"; "pending" ].

(** [.fillna("0")] then [.replace([...], "0")] on one cell *)
Definition fill_cell (c : option string) : string :=
  let c := match c with Some s => s | None => "0" end in
  if PyStr.mem c placeholders then "0" else c.

(** Lines 173-177: every cell filled, the asset cells made numbers. *)
Definition normalise (raw : raw_frame) : frame :=
  let df := map (fun r => (fill_cell (fst r), map fill_cell (snd r)))
                (raw_rows raw) in
  let df := map (fun r => (fst r, map clean_number (snd r))) df in
  {| columns := raw_columns raw; rows := df |}.

(** Line 179: [df = df[df.iloc[:,0].str.strip() != ""]] *)
Definition drop_blank_clients (df : frame) : frame :=
  {| columns := columns df;
     rows := filter (fun r => negb (PyStr.strip (fst r) =? "")) (rows df) |}.

Definition load (raw : raw_frame) : frame :=
  drop_blank_clients (normalise raw).

(** Line 180. *)
Definition client_list (df : frame) : list string := map fst (rows df).

(** [df[df.iloc[:,0]==cname].iloc[0].iloc[1:]]: the first row of that
    client, as labelled values. *)
Definition assets_of (df : frame) (cname : string)
  : result (list (string * float)) :=
  match find (fun r => fst r =? cname) (rows df) with
  | Some r => Ok (combine (columns df) (snd r))
  | None =>
      Raise (Exn "IndexError" "single positional indexer is out-of-bounds")
  end.

Inductive payload : Type :=
| Document (bytes : string)
| Archive (entries : list (string * string)).

Inductive ui_event : Type :=
| Dataframe (client_df : list (allocation_row float))
| DownloadButton (label : string) (data : payload)
                 (file_name mime : string)
| Error (msg : string)
| Warning (msg : string).

(** [zipfile.ZipInfo(filename)], which [ZipFile.writestr] builds for a
    name: the name ends before its first NUL, and where [os.sep] is not "/"
    every [os.sep] in it becomes "/". *)
Fixpoint before_null (filename : string) : string :=
  match filename with
  | "" => ""
  | String c rest =>
      if Ascii.eqb c Ascii.zero then "" else String c (before_null rest)
  end.

Fixpoint replace_char (old new : ascii) (s : string) : string :=
  match s with
  | "" => ""
  | String c rest =>
      String (if Ascii.eqb c old then new else c) (replace_char old new rest)
  end.

Section Script.
Context {B : Backend} {P : Platform}.

Definition zip_info_filename (filename : string) : string :=
  let filename := before_null filename in
  if Ascii.eqb os_sep "/" then filename
  else replace_char os_sep "/" filename.

(** Lines 196-200. *)
Definition single_report (selected_client : string)
    (client_df : list (allocation_row float)) (report_date : date)
  : list ui_event :=
  try_except
    (pdf_bytes <- build_client_pdf_bytes selected_client client_df report_date ;;
     Ok [ DownloadButton "📥 Download Report (PDF)" (Document pdf_bytes)
            (selected_client ++ "_Report.pdf") "application/pdf" ])
    (fun e => [ Error ("PDF generation failed: " ++ exn_str e) ]).

(** Lines 186-200; [None] is an empty select box. *)
Definition preview (df : frame) (selected_client : option string)
    (report_date : date) : result (list ui_event) :=
  match selected_client with
  | None | Some "" => Ok []
  | Some selected_client =>
      assets <- assets_of df selected_client ;;
      let client_df := allocation assets in
      Ok (Dataframe client_df
            :: single_report selected_client client_df report_date)
  end.

(** Lines 209-217: one archive entry, under the name the archive keeps
    for [f"{cname}_Report.pdf"]. *)
Definition batch_entry (df : frame) (report_date : date) (cname : string)
  : result (string * string) :=
  assets <- assets_of df cname ;;
  let cdf := allocation assets in
  pdf <- build_client_pdf_bytes cname cdf report_date ;;
  Ok (zip_info_filename (cname ++ "_Report.pdf"), pdf).

(** Lines 205-220, once the button is pressed. *)
Definition generate_zip (df : frame) (selected_clients : list string)
    (report_date : date) : result (list ui_event) :=
  match selected_clients with
  | _ :: _ =>
      zf <- mapM (batch_entry df report_date) selected_clients ;;
      Ok [ DownloadButton "📦 Download ZIP" (Archive zf)
             "Client_Reports.zip" "application/zip" ]
  | [] => Ok [ Warning "⚠️ Select at least one client." ]
  end.

End Script.

(** * Properties *)

(** ** Allocation Calculator *)

Lemma frame_of_columns_map {F} (assets : list (string * F)) (f : F -> F) :
  frame_of_columns (map fst assets) (map snd assets) (map f (map snd assets))
  = map (fun a => {| asset_type := fst a; value := snd a;
                     percent := f (snd a) |}) assets.
Proof.
  induction assets as [|a assets IH]; simpl; [reflexivity|].
  now rewrite IH.
Qed.

(** The frame, row by row. *)
Lemma allocation_frame {F} {A : Arith F} {P : Platform}
    (assets : list (string * F)) :
  allocation assets
  = map (fun a =>
           {| asset_type := fst a;
              value := snd a;
              percent :=
                if a_gtb (series_sum (map snd assets)) a_zero
                then round2 (a_mul (a_div (snd a) (series_sum (map snd assets)))
                                   a_hundred)
                else a_zero |}) assets
    ++ [ {| asset_type := "Total"; value := series_sum (map snd assets);
            percent := a_hundred |} ].
Proof.
  unfold allocation, percent_column.
  f_equal.
  destruct (a_gtb (series_sum (map snd assets)) a_zero).
  - rewrite (map_map _ round2 (map snd assets)).
    apply (frame_of_columns_map assets
             (fun v => round2 (a_mul (a_div v _) a_hundred))).
  - apply (frame_of_columns_map assets (fun _ => a_zero)).
Qed.

(** ** Sums *)

(** [added vs x]: [x] is a sum of the numbers [vs], each taken once, added
    in some order and some bracketing, zeros of either sign thrown in. *)
Inductive added {F} {A : Arith F} : list F -> F -> Prop :=
| added_zero : added [] a_zero
| added_neg_zero : added [] a_neg_zero
| added_one (v : F) : added [v] v
| added_add (l r : list F) (x y : F) :
    added l x -> added r y -> added (l ++ r) (a_add x y)
| added_perm (l l' : list F) (x : F) :
    Permutation l l' -> added l x -> added l' x.

Section SumsAdded.
Context {F : Type} {A : Arith F} {P : Platform}.

Lemma added_identity : added [] add_identity.
Proof. unfold add_identity. destruct add_identity_negative; constructor. Qed.

Lemma added_fold (vs l : list F) (x : F) :
  added l x -> added (l ++ vs) (fold_left a_add vs x).
Proof.
  revert l x. induction vs as [|v vs IH]; intros l x H; simpl.
  - now rewrite app_nil_r.
  - replace (l ++ v :: vs) with ((l ++ [v]) ++ vs)
      by (rewrite <- app_assoc; reflexivity).
    apply IH. apply added_add; [exact H | constructor].
Qed.

Lemma interleaved {X} (ps : list (list X * X)) (rest : list X) :
  Permutation (List.concat (map (fun p => fst p ++ [snd p]) ps) ++ rest)
              (List.concat (map fst ps) ++ map snd ps ++ rest).
Proof.
  induction ps as [|[l x] ps IH]; simpl; [reflexivity|].
  rewrite <- !app_assoc. apply Permutation_app_head. simpl.
  rewrite IH. apply Permutation_middle.
Qed.

Lemma added_accumulate (n : nat) :
  forall (a : list F) l0 l1 l2 l3 l4 l5 l6 l7 r0 r1 r2 r3 r4 r5 r6 r7,
    (List.length a <= n)%nat ->
    added l0 r0 -> added l1 r1 -> added l2 r2 -> added l3 r3 ->
    added l4 r4 -> added l5 r5 -> added l6 r6 -> added l7 r7 ->
    exists m0 m1 m2 m3 m4 m5 m6 m7 s0 s1 s2 s3 s4 s5 s6 s7 rest,
      accumulate (r0, r1, r2, r3, r4, r5, r6, r7) a
      = ((s0, s1, s2, s3, s4, s5, s6, s7), rest)
      /\ added m0 s0 /\ added m1 s1 /\ added m2 s2 /\ added m3 s3
      /\ added m4 s4 /\ added m5 s5 /\ added m6 s6 /\ added m7 s7
      /\ Permutation (List.concat [m0; m1; m2; m3; m4; m5; m6; m7] ++ rest)
                     (List.concat [l0; l1; l2; l3; l4; l5; l6; l7] ++ a).
Proof.
  induction n as [|n IH]; intros a l0 l1 l2 l3 l4 l5 l6 l7
    r0 r1 r2 r3 r4 r5 r6 r7 Hn H0 H1 H2 H3 H4 H5 H6 H7.
  all: destruct a as [|a0 [|a1 [|a2 [|a3 [|a4 [|a5 [|a6 [|a7 a']]]]]]]];
    try (exists l0, l1, l2, l3, l4, l5, l6, l7,
                r0, r1, r2, r3, r4, r5, r6, r7; eexists;
         split; [reflexivity|]; repeat (split; [assumption|]); reflexivity).
  - simpl in Hn. lia.
  - destruct (IH a' (l0 ++ [a0]) (l1 ++ [a1]) (l2 ++ [a2]) (l3 ++ [a3])
                (l4 ++ [a4]) (l5 ++ [a5]) (l6 ++ [a6]) (l7 ++ [a7])
                (a_add r0 a0) (a_add r1 a1) (a_add r2 a2) (a_add r3 a3)
                (a_add r4 a4) (a_add r5 a5) (a_add r6 a6) (a_add r7 a7))
      as (m0 & m1 & m2 & m3 & m4 & m5 & m6 & m7
          & s0 & s1 & s2 & s3 & s4 & s5 & s6 & s7 & rest & E & K).
    { simpl in Hn. lia. }
    all: try (apply added_add; [assumption | constructor]).
    exists m0, m1, m2, m3, m4, m5, m6, m7, s0, s1, s2, s3, s4, s5, s6, s7, rest.
    split; [exact E|].
    destruct K as (K0 & K1 & K2 & K3 & K4 & K5 & K6 & K7 & K).
    repeat (split; [assumption|]).
    rewrite K.
    exact (interleaved [(l0, a0); (l1, a1); (l2, a2); (l3, a3);
                        (l4, a4); (l5, a5); (l6, a6); (l7, a7)] a').
Qed.

Lemma added_pairwise_block (a : list F) : added a (pairwise_block a).
Proof.
  unfold pairwise_block.
  destruct a as [|a0 [|a1 [|a2 [|a3 [|a4 [|a5 [|a6 [|a7 a']]]]]]]];
    try (apply (added_fold _ []); apply added_identity).
  destruct (added_accumulate (List.length a') a' [a0] [a1] [a2] [a3] [a4]
              [a5] [a6] [a7] a0 a1 a2 a3 a4 a5 a6 a7 (le_n _))
    as (m0 & m1 & m2 & m3 & m4 & m5 & m6 & m7
        & s0 & s1 & s2 & s3 & s4 & s5 & s6 & s7 & rest & E
        & K0 & K1 & K2 & K3 & K4 & K5 & K6 & K7 & K);
    try constructor.
  rewrite E. apply (added_perm _ _ _ K).
  apply added_fold. simpl. rewrite app_nil_r.
  replace (m0 ++ m1 ++ m2 ++ m3 ++ m4 ++ m5 ++ m6 ++ m7)
    with (((m0 ++ m1) ++ (m2 ++ m3)) ++ ((m4 ++ m5) ++ (m6 ++ m7)))
    by (rewrite <- !app_assoc; reflexivity).
  repeat apply added_add; assumption.
Qed.

Lemma added_pairwise_split (depth : nat) (a : list F) :
  added a (pairwise_split depth a).
Proof.
  revert a. induction depth as [|depth IH]; intros a; cbn [pairwise_split].
  - apply added_pairwise_block.
  - destruct (128 <? List.length a)%nat; [|apply added_pairwise_block].
    cbv zeta. rewrite <- (firstn_skipn (half_block (List.length a)) a) at 1.
    apply added_add; apply IH.
Qed.

Lemma added_pairwise_sum (a : list F) : added a (pairwise_sum a).
Proof. apply added_pairwise_split. Qed.

Lemma pairwise_split_enough (d1 d2 : nat) (a : list F) :
  (List.length a <= d1)%nat -> (List.length a <= d2)%nat ->
  pairwise_split d1 a = pairwise_split d2 a.
Proof.
  revert d2 a. induction d1 as [|d1 IH]; intros d2 a H1 H2.
  - destruct a; [|simpl in H1; lia]. now destruct d2.
  - destruct d2 as [|d2]; [destruct a; [reflexivity | simpl in H2; lia]|].
    cbn [pairwise_split].
    destruct (128 <? List.length a)%nat eqn:E; [|reflexivity].
    apply Nat.ltb_lt in E. pose proof (half_block_inside _ E) as H.
    cbv zeta. f_equal; apply IH;
      rewrite ?length_firstn, ?length_skipn; lia.
Qed.

(** The sum, as the C code recurses. *)
Lemma pairwise_sum_eq (a : list F) :
  pairwise_sum a
  = if (128 <? List.length a)%nat
    then
      let n2 := half_block (List.length a) in
      a_add (pairwise_sum (firstn n2 a)) (pairwise_sum (skipn n2 a))
    else pairwise_block a.
Proof.
  unfold pairwise_sum at 1.
  destruct (List.length a) as [|n] eqn:L; [reflexivity|].
  cbn [pairwise_split]. rewrite L.
  destruct (128 <? S n)%nat eqn:E; [|reflexivity].
  apply Nat.ltb_lt in E. rewrite <- L in E.
  pose proof (half_block_inside _ E) as H. rewrite L in H.
  cbv zeta. unfold pairwise_sum.
  f_equal; apply pairwise_split_enough;
    rewrite ?length_firstn, ?length_skipn; lia.
Qed.

(** The sum of a Series is a sum of its numbers, a NaN taken as 0. *)
Lemma series_sum_added (vs : list F) :
  added (map (fun v => if a_isnan v then a_zero else v) vs) (series_sum vs).
Proof.
  unfold series_sum.
  destruct (map _ vs) as [|v values] eqn:E; [constructor|].
  apply (added_add [] (v :: values)); [apply added_identity|].
  apply added_pairwise_sum.
Qed.

End SumsAdded.

(** ** Value Normalizer *)

(** [clean_number] looks at its argument only through the stripped text. *)
Definition clean_text (t : string) : float :=
  try_except
    (if negb (PyStr.mem t [""; "nan"; "None"]) then PyFloat.of_string t
     else Ok Binary64.zero)
    (fun _ => Binary64.zero).

Definition stripped (s : string) : string :=
  PyStr.strip (PyStr.remove "," (PyStr.remove "₹" s)).

Lemma clean_number_stripped (s : string) :
  clean_number s = clean_text (stripped s).
Proof. reflexivity. Qed.

Definition upper_ascii (c : ascii) : ascii :=
  ascii_of_nat (nat_of_ascii c - 32).

(** Every spelling of a lower-case word, letter by letter. *)
Fixpoint spellings (w : string) : list string :=
  match w with
  | "" => [""]
  | String d w' =>
      flat_map (fun v => [String d v; String (upper_ascii d) v]) (spellings w')
  end.

Lemma lower_ascii_cases (c : ascii) :
  c = PyStr.lower_ascii c \/ c = upper_ascii (PyStr.lower_ascii c).
Proof.
  destruct c as [[] [] [] [] [] [] [] []]; vm_compute; auto.
Qed.

Lemma lower_spellings (t : string) : In t (spellings (PyStr.lower t)).
Proof.
  induction t as [|c t IH]; simpl; [now left|].
  apply in_flat_map. exists t. split; [exact IH|].
  destruct (lower_ascii_cases c) as [E|E]; rewrite <- E; simpl; auto.
Qed.

Definition placeholder_tokens : list string :=
  [""; "na"; "n.a"; "n/a"; "pending"].

Definition is_zero (x : float) : bool :=
  match x with
  | S754_zero false => true
  | _ => false
  end.

Lemma is_zero_eq (x : float) : is_zero x = true -> x = Binary64.zero.
Proof. destruct x as [[]|[]| |]; simpl; try discriminate; reflexivity. Qed.

Lemma placeholder_spellings_clean :
  forallb (fun t => is_zero (clean_text t))
          (flat_map spellings placeholder_tokens) = true.
Proof. vm_compute. reflexivity. Qed.

(** C4. The normalizer is a total function to floats: whatever the body of
    its [try] raises, the result is 0.0. After "₹", commas and surrounding
    white space are stripped, the empty string and "na", "n.a", "n/a",
    "pending" in any letter case give 0.0; "₹1,234.50" gives 1234.50; and a
    text that [float] rejects gives 0.0. *)
Theorem clean_number_contract :
  (forall s e, clean_number_try s = Raise e -> clean_number s = Binary64.zero)
  /\ (forall s, In (PyStr.lower (stripped s)) placeholder_tokens ->
                clean_number s = Binary64.zero)
  /\ (clean_number "₹1,234.50" = S754_finite false 5429388417957888 (-42)
      /\ (Binary64.to_Q (clean_number "₹1,234.50") == 1234.50)%Q)
  /\ (forall s e, PyFloat.of_string (stripped s) = Raise e ->
                  clean_number s = Binary64.zero).
Proof.
  split; [|split; [|split]].
  - intros s e H. unfold clean_number. now rewrite H.
  - intros s H. rewrite clean_number_stripped. apply is_zero_eq.
    pose proof placeholder_spellings_clean as P.
    rewrite forallb_forall in P. apply P.
    apply in_flat_map. exists (PyStr.lower (stripped s)).
    split; [exact H | apply lower_spellings].
  - split; vm_compute; reflexivity.
  - intros s e H. rewrite clean_number_stripped. unfold clean_text.
    destruct (negb _); [now rewrite H | reflexivity].
Qed.

Lemma clean_number_contract_witness :
  clean_number " ₹ N/a, " = Binary64.zero
  /\ clean_number "12 lakh" = Binary64.zero.
Proof.
  split.
  - apply (proj1 (proj2 clean_number_contract) " ₹ N/a, ").
    vm_compute. auto.
  - apply (proj2 (proj2 (proj2 clean_number_contract)) "12 lakh"
             (Exn "ValueError" "could not convert string to float: '12 lakh'")).
    vm_compute. reflexivity.
Defined.

(** ** Currency Formatter *)

(** Strings as lists of characters, where slices are [firstn] and
    [skipn]. *)
Abbreviation las := list_ascii_of_string.
Abbreviation sol := string_of_list_ascii.

Lemma las_app (a b : string) : las (a ++ b) = las a ++ las b.
Proof. induction a as [|c a IH]; simpl; [reflexivity | now rewrite IH]. Qed.

Lemma las_length (s : string) : List.length (las s) = String.length s.
Proof. induction s as [|c s IH]; simpl; [reflexivity | now rewrite IH]. Qed.

Lemma las_substring (s : string) (n m : nat) :
  las (substring n m s) = firstn m (skipn n (las s)).
Proof.
  revert n m. induction s as [|c s IH]; intros [|n] [|m]; simpl;
    try reflexivity.
  - now rewrite (IH 0 m).
  - apply (IH n 0).
  - apply (IH n (S m)).
Qed.

Lemma las_inj (a b : string) : las a = las b -> a = b.
Proof.
  intros H. rewrite <- (string_of_list_ascii_of_string a),
    <- (string_of_list_ascii_of_string b). now rewrite H.
Qed.

Lemma las_drop_last (k : nat) (s : string) :
  las (PyStr.drop_last k s) = firstn (String.length s - k) (las s).
Proof. unfold PyStr.drop_last. now rewrite las_substring. Qed.

Lemma las_take_last (k : nat) (s : string) :
  las (PyStr.take_last k s) = skipn (String.length s - k) (las s).
Proof.
  unfold PyStr.take_last. rewrite las_substring.
  apply firstn_all2. rewrite length_skipn, las_length. lia.
Qed.

Lemma drop_take_last (k : nat) (s : string) :
  (PyStr.drop_last k s ++ PyStr.take_last k s)%string = s.
Proof.
  apply las_inj. rewrite las_app, las_drop_last, las_take_last.
  apply firstn_skipn.
Qed.

Lemma length_drop_last (k : nat) (s : string) :
  String.length (PyStr.drop_last k s) = String.length s - k.
Proof.
  rewrite <- las_length, las_drop_last, length_firstn, las_length. lia.
Qed.

Lemma length_take_last (k : nat) (s : string) :
  String.length (PyStr.take_last k s) = Nat.min k (String.length s).
Proof.
  rewrite <- las_length, las_take_last, length_skipn, las_length. lia.
Qed.

(** The grouping as section 4.3 words it. Chunks of two from the right: read
    the digits backwards, cut pairs from the front, turn everything back. *)
Fixpoint pairs (l : list ascii) : list (list ascii) :=
  match l with
  | a :: b :: l' => [a; b] :: pairs l'
  | [a] => [[a]]
  | [] => []
  end.

Definition chunks2_from_right (s : string) : list string :=
  List.rev (map (fun c => sol (List.rev c)) (pairs (List.rev (las s)))).

(** The last three digits are one group, the leading digits go in chunks of
    two from the right. *)
Definition indian_groups (digits : string) : list string :=
  chunks2_from_right (PyStr.drop_last 3 digits) ++ [PyStr.take_last 3 digits].

Lemma chunks2_short (s : string) :
  (0 < String.length s <= 2)%nat -> chunks2_from_right s = [s].
Proof.
  destruct s as [|a [|b [|c s]]]; simpl; intros H; try lia; reflexivity.
Qed.

Lemma chunks2_step (s : string) :
  (2 <= String.length s)%nat ->
  chunks2_from_right s
  = chunks2_from_right (PyStr.drop_last 2 s) ++ [PyStr.take_last 2 s].
Proof.
  intros H. unfold chunks2_from_right.
  rewrite <- (drop_take_last 2 s) at 1. rewrite las_app, rev_app_distr.
  assert (L : List.length (las (PyStr.take_last 2 s)) = 2).
  { rewrite las_length, length_take_last. lia. }
  destruct (las (PyStr.take_last 2 s)) as [|a [|b [|c t]]] eqn:E;
    simpl in L; try lia.
  simpl. f_equal. f_equal.
  rewrite <- (string_of_list_ascii_of_string (PyStr.take_last 2 s)).
  now rewrite E.
Qed.

Lemma chunks2_nonempty (s : string) :
  s <> "" -> chunks2_from_right s <> [].
Proof.
  intros Hs. destruct (Nat.le_gt_cases 2 (String.length s)) as [H|H].
  - rewrite chunks2_step by exact H. now destruct (chunks2_from_right _).
  - rewrite chunks2_short; [discriminate|].
    destruct s; [congruence | simpl in *; lia].
Qed.

(** What the loop leaves, put in order as lines 61-63 do. *)
Definition finish_groups (state : string * list string) : list string :=
  let '(remaining, groups) := state in
  List.rev (if remaining =? "" then groups else groups ++ [remaining]).

Lemma group_loop_chunks (remaining : string) (groups : list string) :
  finish_groups (group_loop remaining groups)
  = chunks2_from_right remaining ++ List.rev groups.
Proof.
  funelim (group_loop remaining groups).
  - rewrite H. rewrite rev_app_distr. simpl.
    pose proof (proj1 (Nat.ltb_lt _ _) more) as Hlen.
    rewrite (chunks2_step remaining) by lia.
    now rewrite <- app_assoc.
  - pose proof (proj1 (Nat.ltb_ge _ _) e) as Hlen. unfold finish_groups.
    destruct (String.eqb_spec remaining "") as [->|Hne].
    + reflexivity.
    + rewrite rev_app_distr. simpl. rewrite chunks2_short; [reflexivity|].
      destruct remaining; [congruence | simpl in *; lia].
Qed.

Lemma join_snoc (sep x : string) (parts : list string) :
  parts <> [] ->
  PyStr.join sep (parts ++ [x]) = (PyStr.join sep parts ++ sep ++ x)%string.
Proof.
  induction parts as [|p parts IH]; [congruence|]. intros _.
  destruct parts as [|q parts]; [reflexivity|].
  change (PyStr.join sep ((p :: q :: parts) ++ [x]))
    with (p ++ sep ++ PyStr.join sep ((q :: parts) ++ [x]))%string.
  rewrite IH by discriminate.
  change (PyStr.join sep (p :: q :: parts))
    with (p ++ sep ++ PyStr.join sep (q :: parts))%string.
  apply las_inj. rewrite !las_app. now rewrite !app_assoc.
Qed.

Lemma eqb_zero_inv (x : float) :
  Binary64.eqb x Binary64.zero = true -> exists s, x = S754_zero s.
Proof.
  destruct x as [s|[]| |[] m e]; simpl; try discriminate.
  intros _. now exists s.
Qed.

Lemma rne_shift_bound (m : Z) (k : positive) :
  (- 2 ^ Zpos k <= 2 * (rne_shift m k * 2 ^ Zpos k - m) <= 2 ^ Zpos k)%Z.
Proof.
  unfold rne_shift.
  rewrite Z.shiftr_div_pow2, !Z.shiftl_mul_pow2 by lia.
  set (p := (2 ^ Zpos k)%Z) in *.
  assert (Hp : (0 < p)%Z) by (subst p; lia).
  pose proof (Z.div_mod m p ltac:(lia)) as D.
  pose proof (Z.mod_pos_bound m p Hp) as B.
  set (q := (m / p)%Z) in *. set (r := (m mod p)%Z) in *.
  destruct (2 * (m - q * p) ?= 1 * p)%Z eqn:C;
    [apply Z.compare_eq in C | rewrite Z.compare_lt_iff in C
     | rewrite Z.compare_gt_iff in C];
    try destruct (Z.even q); nia.
Qed.

Lemma nearest_Q (z m : Z) (p : positive) :
  (- Zpos p <= 2 * (z * Zpos p - m) <= Zpos p)%Z ->
  (Qabs (inject_Z z - (m # p)) <= 1 # 2)%Q.
Proof.
  intros H. apply Qabs_Qle_condition.
  unfold Qle, Qminus, Qplus, Qopp, inject_Z. cbn [Qnum Qden].
  split; nia.
Qed.

(** [int(round(x))] is an integer nearest to [x]. *)
Lemma round_int_nearest (amount : float) (n : Z) :
  round_int amount = Ok n ->
  (Qabs (inject_Z n - to_Q amount) <= 1 # 2)%Q.
Proof.
  destruct amount as [s| | |s m e]; cbn [round_int to_Q]; try discriminate.
  - intros [= <-]. now vm_compute.
  - intros [= <-].
    set (v := match e with
              | Zneg k => (Zpos m # 2 ^ k)%Q
              | _ => inject_Z (Zpos m * 2 ^ e)
              end).
    assert (E : (Qabs (inject_Z (nearest_int m e) - v) <= 1 # 2)%Q).
    { subst v. destruct e as [|k|k]; unfold nearest_int.
      - rewrite Z.mul_1_r. unfold Qminus. rewrite Qplus_opp_r. now vm_compute.
      - rewrite Z.shiftl_mul_pow2 by lia.
        unfold Qminus. rewrite Qplus_opp_r. now vm_compute.
      - apply nearest_Q. rewrite Pos2Z.inj_pow. apply rne_shift_bound. }
    destruct s; unfold cond_Zopp; [|exact E].
    rewrite inject_Z_opp.
    setoid_replace (- inject_Z (nearest_int m e) - - v)%Q
      with (- (inject_Z (nearest_int m e) - v))%Q by ring.
    now rewrite Qabs_opp.
Qed.

Lemma format_rounded (amount : float) (n : Z) :
  round_int amount = Ok n ->
  format_indian_currency (Float amount)
  = Ok (rupee ++ PyStr.join "," (indian_groups (str_int n)))%string.
Proof.
  intros Hn. unfold format_indian_currency, to_float, bind.
  destruct (Binary64.eqb amount Binary64.zero) eqn:Ez.
  - destruct (eqb_zero_inv _ Ez) as [s ->]. simpl in Hn.
    injection Hn as <-. reflexivity.
  - rewrite Hn. do 2 f_equal.
    set (amount_str := str_int n).
    destruct (String.length amount_str <=? 3)%nat eqn:Elen.
    + apply Nat.leb_le in Elen. unfold indian_groups.
      assert (D : PyStr.drop_last 3 amount_str = "").
      { pose proof (length_drop_last 3 amount_str) as L.
        destruct (PyStr.drop_last 3 amount_str); [reflexivity|].
        simpl in L. lia. }
      rewrite D. simpl. rewrite <- (drop_take_last 3 amount_str) at 1.
      now rewrite D.
    + apply Nat.leb_gt in Elen. unfold indian_groups.
      pose proof (group_loop_chunks (PyStr.drop_last 3 amount_str) []) as G.
      destruct (group_loop (PyStr.drop_last 3 amount_str) []) as [r g].
      unfold finish_groups in G. rewrite G. simpl List.rev.
      rewrite app_nil_r. symmetry. apply join_snoc.
      apply chunks2_nonempty. intros D.
      pose proof (length_drop_last 3 amount_str) as L. rewrite D in L.
      simpl in L. lia.
Qed.

(** C5. The amount is rounded to a nearest integer [n] ([round], half to
    even); the output is the symbol followed by the comma-joined groups of
    the integer string: its last three characters, preceded by the leading
    ones in chunks of two from the right. When [n] is 0 that is "₹ 0". The
    four examples of the specification come out as written. *)
Theorem format_indian_currency_grouping :
  (forall amount n,
      round_int amount = Ok n ->
      (Qabs (inject_Z n - to_Q amount) <= 1 # 2)%Q
      /\ format_indian_currency (Float amount)
         = Ok (rupee ++ PyStr.join "," (indian_groups (str_int n)))%string
      /\ (n = 0%Z -> format_indian_currency (Float amount) = Ok "₹ 0"))
  /\ format_indian_currency (Int 0) = Ok "₹ 0"
  /\ format_indian_currency (Int 999) = Ok "₹ 999"
  /\ format_indian_currency (Int 100000) = Ok "₹ 1,00,000"
  /\ format_indian_currency (Int 1234567) = Ok "₹ 12,34,567".
Proof.
  split; [|repeat split; reflexivity].
  intros amount n Hn.
  split; [now apply round_int_nearest|].
  split; [now apply format_rounded|].
  intros ->. now rewrite (format_rounded amount 0%Z Hn).
Qed.

Lemma format_indian_currency_grouping_witness :
  format_indian_currency (Float (clean_number "1234567.4"))
  = Ok "₹ 12,34,567"
  /\ format_indian_currency (Float (clean_number "0.5")) = Ok "₹ 0".
Proof.
  split.
  - apply (proj1 (proj2 (proj1 format_indian_currency_grouping
                             (clean_number "1234567.4") 1234567%Z eq_refl))).
  - apply (proj2 (proj2 (proj1 format_indian_currency_grouping
                             (clean_number "0.5") 0%Z eq_refl)) eq_refl).
Defined.

(** ** Digit preservation *)

Definition strip_prefix (p s : string) : string :=
  if prefix p s
  then substring (String.length p) (String.length s - String.length p) s
  else s.

(** The formatted text without its leading "₹ " and without commas. *)
Definition unformat (out : string) : string :=
  PyStr.remove "," (strip_prefix rupee out).

Definition digits_preserved (n : Z) : Prop :=
  exists out, format_indian_currency (Int n) = Ok out
              /\ unformat out = str_int n.

Fixpoint cat (parts : list string) : string :=
  match parts with
  | [] => ""
  | p :: parts => (p ++ cat parts)%string
  end.

Definition comma_free (s : string) : Prop :=
  Forall (fun c => c <> ","%char) (las s).

Lemma strip_prefix_app (p t : string) : strip_prefix p (p ++ t) = t.
Proof.
  unfold strip_prefix.
  assert (P : prefix p (p ++ t) = true).
  { induction p as [|c p IH]; cbn [prefix append]; [now destruct t|].
    destruct (ascii_dec c c); [exact IH | congruence]. }
  rewrite P. apply las_inj.
  rewrite las_substring, <- !las_length, !las_app, length_app.
  rewrite skipn_app, skipn_all, Nat.sub_diag. simpl.
  apply firstn_all2. lia.
Qed.

Lemma remove_comma_cons (c : ascii) (s : string) :
  PyStr.remove "," (String c s)
  = if Ascii.eqb c ","%char then PyStr.remove "," s
    else String c (PyStr.remove "," s).
Proof.
  unfold PyStr.remove. cbn [PyStr.remove_from prefix String.length Nat.sub].
  destruct (ascii_dec "," c) as [<-|N].
  - rewrite Ascii.eqb_refl. now destruct s.
  - destruct (Ascii.eqb_spec c ","%char); [congruence | reflexivity].
Qed.

Lemma remove_comma_app (a b : string) :
  PyStr.remove "," (a ++ b) = (PyStr.remove "," a ++ PyStr.remove "," b)%string.
Proof.
  induction a as [|c a IH]; [reflexivity|].
  change (String c a ++ b)%string with (String c (a ++ b)).
  rewrite !remove_comma_cons, IH. now destruct (Ascii.eqb c ",").
Qed.

Lemma remove_comma_free (s : string) :
  comma_free s -> PyStr.remove "," s = s.
Proof.
  unfold comma_free. induction s as [|c s IH]; [reflexivity|].
  simpl. intros H. inversion H as [|? ? Hc Hs]; subst.
  rewrite remove_comma_cons, (IH Hs).
  destruct (Ascii.eqb_spec c ","%char); [contradiction | reflexivity].
Qed.

Lemma remove_comma_join (parts : list string) :
  PyStr.remove "," (PyStr.join "," parts) = PyStr.remove "," (cat parts).
Proof.
  induction parts as [|p [|q parts] IH]; [reflexivity | |].
  - simpl. apply f_equal. apply las_inj. rewrite las_app. simpl.
    now rewrite app_nil_r.
  - change (PyStr.join "," (p :: q :: parts))
      with (p ++ "," ++ PyStr.join "," (q :: parts))%string.
    change (cat (p :: q :: parts)) with (p ++ cat (q :: parts))%string.
    rewrite !remove_comma_app, IH. reflexivity.
Qed.

Lemma las_cat_sol (chunks : list (list ascii)) :
  las (cat (map sol chunks)) = List.concat chunks.
Proof.
  induction chunks as [|c chunks IH]; [reflexivity|].
  simpl. now rewrite las_app, list_ascii_of_string_of_list_ascii, IH.
Qed.

Lemma concat_pairs (l : list ascii) :
  List.concat (List.rev (map (@List.rev ascii) (pairs l))) = List.rev l
  /\ forall a, List.concat (List.rev (map (@List.rev ascii) (pairs (a :: l))))
               = List.rev (a :: l).
Proof.
  induction l as [|b l [IH1 IH2]]; [split; reflexivity|].
  split; [apply IH2|]. intros a.
  change (pairs (a :: b :: l)) with ([a; b] :: pairs l).
  simpl map. simpl List.rev at 1.
  rewrite concat_app, IH1. simpl. rewrite <- app_assoc. reflexivity.
Qed.

Lemma cat_chunks2 (s : string) : cat (chunks2_from_right s) = s.
Proof.
  apply las_inj. unfold chunks2_from_right.
  rewrite <- (map_map (@List.rev ascii) sol), <- map_rev, las_cat_sol.
  rewrite (proj1 (concat_pairs _)). apply rev_involutive.
Qed.

Lemma cat_app (a b : list string) : cat (a ++ b) = (cat a ++ cat b)%string.
Proof.
  induction a as [|p a IH]; [reflexivity|].
  simpl. rewrite IH. apply las_inj. rewrite !las_app. apply app_assoc.
Qed.

Lemma cat_indian_groups (s : string) : cat (indian_groups s) = s.
Proof.
  unfold indian_groups. rewrite cat_app, cat_chunks2. simpl.
  rewrite <- (drop_take_last 3 s) at 3. apply f_equal.
  apply las_inj. rewrite las_app. apply app_nil_r.
Qed.

Lemma comma_free_uint (d : Decimal.uint) :
  comma_free (NilEmpty.string_of_uint d).
Proof.
  unfold comma_free.
  induction d; simpl; constructor; try assumption; discriminate.
Qed.

Lemma comma_free_str_int (n : Z) : (0 < n)%Z -> comma_free (str_int n).
Proof.
  destruct n as [|p|p]; try lia. intros _.
  unfold str_int. simpl. unfold NilZero.string_of_uint.
  destruct (Pos.to_uint p); try apply comma_free_uint.
  repeat constructor. discriminate.
Qed.

(** The text of a rounded positive amount carries the digits of the
    integer it was rounded to. *)
Lemma unformat_rounded (amount : float) (n : Z) :
  round_int amount = Ok n -> (0 < n)%Z ->
  exists out, format_indian_currency (Float amount) = Ok out
              /\ unformat out = str_int n.
Proof.
  intros Hn Hpos. eexists. split; [apply (format_rounded _ _ Hn)|].
  unfold unformat. rewrite strip_prefix_app, remove_comma_join.
  rewrite cat_indian_groups. apply remove_comma_free.
  now apply comma_free_str_int.
Qed.

(** Integers below [2^53] are binary64 numbers. *)
Lemma digits2_pos_lower (p : positive) :
  (2 ^ (Zpos (digits2_pos p) - 1) <= Zpos p)%Z.
Proof.
  induction p as [p IH|p IH|]; simpl digits2_pos; try (simpl; lia);
    rewrite Pos2Z.inj_succ;
    replace (Z.succ (Zpos (digits2_pos p)) - 1)%Z
      with (Z.succ (Zpos (digits2_pos p) - 1))%Z by lia;
    rewrite Z.pow_succ_r by lia; lia.
Qed.

Lemma digits2_pos_shift (p k : positive) :
  digits2_pos (Pos.iter xO p k) = (digits2_pos p + k)%positive.
Proof.
  induction k as [|k IH] using Pos.peano_ind.
  - simpl. lia.
  - rewrite Pos.iter_succ. simpl. rewrite IH. lia.
Qed.

Lemma iter_xO_pow (p k : positive) :
  Zpos (Pos.iter xO p k) = (Zpos p * 2 ^ Zpos k)%Z.
Proof.
  induction k as [|k IH] using Pos.peano_ind.
  - simpl. lia.
  - rewrite Pos.iter_succ, Pos2Z.inj_succ, Z.pow_succ_r by lia.
    rewrite Pos2Z.inj_xO, IH. ring.
Qed.

Lemma binary_round_aux_exact (s : bool) (m : positive) (e : Z) :
  Zpos (digits2_pos m) = 53%Z -> (-1074 <= e <= 971)%Z ->
  binary_round_aux prec emax s (Zpos m) e loc_Exact = S754_finite s m e.
Proof.
  intros Hd He. unfold binary_round_aux, shr_fexp.
  cbn [Zdigits2 shr_record_of_loc].
  assert (F : (fexp prec emax (Zpos (digits2_pos m) + e) - e = 0)%Z).
  { unfold fexp, SpecFloat.emin, prec, emax. rewrite Hd. lia. }
  rewrite F. cbn [shr shr_m loc_of_shr_record round_nearest_even].
  cbn [Zdigits2 shr_record_of_loc]. rewrite F. cbn [shr shr_m].
  unfold emax, prec.
  destruct (Z.leb_spec e (1024 - 53)); [reflexivity | lia].
Qed.

Lemma of_Z_small (p : positive) :
  (Zpos p < 2 ^ 53)%Z ->
  exists m e, of_Z (Zpos p) = S754_finite false m e
              /\ nearest_int m e = Zpos p.
Proof.
  intros Hp. pose proof (digits2_pos_lower p) as L.
  assert (D : (Zpos (digits2_pos p) <= 53)%Z).
  { destruct (Z.le_gt_cases (Zpos (digits2_pos p)) 53) as [|G]; [assumption|].
    assert (2 ^ 53 <= 2 ^ (Zpos (digits2_pos p) - 1))%Z
      by (apply Z.pow_le_mono_r; lia). lia. }
  unfold of_Z, binary_normalize, binary_round, shl_align.
  assert (F : (fexp prec emax (Zpos (digits2_pos p) + 0)
               = Zpos (digits2_pos p) - 53)%Z).
  { unfold fexp, SpecFloat.emin, prec, emax. lia. }
  rewrite F.
  destruct (Zpos (digits2_pos p) - 53 - 0)%Z as [|k|k] eqn:E; try lia.
  - exists p, 0%Z. split; [|reflexivity].
    apply binary_round_aux_exact; lia.
  - exists (Pos.iter xO p k), (Zpos (digits2_pos p) - 53)%Z. split.
    + apply binary_round_aux_exact; [|lia].
      rewrite digits2_pos_shift. lia.
    + replace (Zpos (digits2_pos p) - 53)%Z with (Zneg k) by lia.
      unfold nearest_int, rne_shift.
      rewrite iter_xO_pow, Z.shiftr_div_pow2, !Z.shiftl_mul_pow2 by lia.
      rewrite Z.div_mul by lia.
      replace (Zpos p * 2 ^ Zpos k - Zpos p * 2 ^ Zpos k)%Z with 0%Z by lia.
      assert (0 < 2 ^ Zpos k)%Z by lia.
      destruct (2 * 0 ?= 1 * 2 ^ Zpos k)%Z eqn:C;
        [apply Z.compare_eq in C | reflexivity
         | rewrite Z.compare_gt_iff in C]; lia.
Qed.

Lemma round_trip_small (n : Z) :
  (0 < n <= 2 ^ 53)%Z ->
  exists x, of_int n = Ok x /\ round_int x = Ok n.
Proof.
  intros [Hpos Hle].
  destruct (Z.eq_dec n (2 ^ 53)) as [->|Hne].
  - eexists. split; reflexivity.
  - destruct n as [|p|p]; try lia.
    destruct (of_Z_small p ltac:(lia)) as (m & e & Hx & Hr).
    exists (S754_finite false m e). unfold of_int. rewrite Hx.
    split; [reflexivity|]. simpl. now rewrite Hr.
Qed.

(** ** Chart input *)


(** ** Single report and batch *)


Definition report_name (cname : string) : string :=
  (cname ++ "_Report.pdf")%string.

Section ScriptProperties.
Context {B : Backend} {P : Platform}.

(** C7. Whatever [build_client_pdf_bytes] raises for a client -- the chart
    renderer failing, the PDF writer failing on the markup or on a missing
    background image -- is caught around the single report and shown as
    "PDF generation failed: ..."; nothing is offered for download. When it
    returns the bytes, one download named <client>_Report.pdf is offered. *)
Theorem single_report_outcome (selected_client : string)
    (client_df : list (allocation_row float)) (report_date : date) :
  (forall e,
      build_client_pdf_bytes selected_client client_df report_date = Raise e ->
      single_report selected_client client_df report_date
      = [ Error ("PDF generation failed: " ++ exn_str e) ])
  /\ (forall e,
        render_pie (map value (plot_rows client_df))
                   (plot_colors (plot_rows client_df)) = Raise e ->
        single_report selected_client client_df report_date
        = [ Error ("PDF generation failed: " ++ exn_str e) ])
  /\ (forall chart html e,
        render_pie (map value (plot_rows client_df))
                   (plot_colors (plot_rows client_df)) = Ok chart ->
        build_unified_html selected_client client_df report_date chart
        = Ok html ->
        write_pdf html = Raise e ->
        single_report selected_client client_df report_date
        = [ Error ("PDF generation failed: " ++ exn_str e) ])
  /\ (forall pdf_bytes,
        build_client_pdf_bytes selected_client client_df report_date
        = Ok pdf_bytes ->
        single_report selected_client client_df report_date
        = [ DownloadButton "📥 Download Report (PDF)" (Document pdf_bytes)
              (selected_client ++ "_Report.pdf") "application/pdf" ]).
Proof.
  assert (R : forall e,
             build_client_pdf_bytes selected_client client_df report_date
             = Raise e ->
             single_report selected_client client_df report_date
             = [ Error ("PDF generation failed: " ++ exn_str e) ]).
  { intros e H. unfold single_report. now rewrite H. }
  split; [exact R|]. split; [|split].
  - intros e H. apply R. unfold build_client_pdf_bytes. now rewrite H.
  - intros chart html e Hc Hh Hw. apply R.
    unfold build_client_pdf_bytes. rewrite Hc. simpl. rewrite Hh. exact Hw.
  - intros pdf H. unfold single_report. now rewrite H.
Qed.









End ScriptProperties.

(** Two installations. *)
Definition posix : Platform := {|
  os_sep := "/";
  add_identity_negative := false
|}.

Definition windows : Platform := {|
  os_sep := "\";
  add_identity_negative := true
|}.

(** Two backends to run the script on: one that renders, one whose PDF
    writer does not find the cover image. *)
Definition plain_backend : Backend := {|
  date := string;
  render_pie := fun _ colors => Ok (PyStr.join "," colors);
  write_pdf := fun html => Ok html;
  fixed2 := fun x => match round_int x with
                     | Ok n => str_int n
                     | Raise _ => "nan"
                     end;
  upper := fun s => s;
  strftime := fun d => d;
  page := fun name day chart table =>
            (name ++ " " ++ day ++ " " ++ chart ++ " " ++ table)%string
|}.

Definition no_cover_backend : Backend := {|
  date := string;
  render_pie := render_pie (Backend := plain_backend);
  write_pdf := fun _ =>
    Raise (Exn "URLFetchingError" "cover_page_bg.jpg: no such file");
  fixed2 := fixed2 (Backend := plain_backend);
  upper := fun s => s;
  strftime := fun d => d;
  page := page (Backend := plain_backend)
|}.

Definition acme_raw : raw_frame := {|
  raw_columns := ["Equity"; "Debt"];
  raw_rows := [ (Some "Acme", [Some "₹50,000"; Some "₹50,000"]);
                (Some "Birla", [Some "1,200"; Some "Pending"]) ]
|}.

Definition acme_rows : list (allocation_row float) :=
  allocation (P := posix)
             [("Equity", clean_number "₹50,000");
              ("Debt", clean_number "₹50,000")].

Lemma single_report_outcome_witness :
  single_report (B := no_cover_backend) "Acme" acme_rows "03 November 2026"
  = [ Error "PDF generation failed: cover_page_bg.jpg: no such file" ]
  /\ exists pdf_bytes,
       single_report (B := plain_backend) "Acme" acme_rows "03 November 2026"
       = [ DownloadButton "📥 Download Report (PDF)" (Document pdf_bytes)
             "Acme_Report.pdf" "application/pdf" ].
Proof.
  split.
  - apply (proj1 (single_report_outcome (B := no_cover_backend)
                    "Acme" acme_rows "03 November 2026")
             (Exn "URLFetchingError" "cover_page_bg.jpg: no such file")).
    vm_compute. reflexivity.
  - eexists.
    apply (proj2 (proj2 (proj2 (single_report_outcome (B := plain_backend)
                                  "Acme" acme_rows "03 November 2026")))).
    vm_compute. reflexivity.
Defined.





(** ** Client list *)



(** An identifier cell that holds white space and nothing else. *)
Definition whitespace_only (c : option string) : bool :=
  match c with
  | Some s => negb (s =? "") && (PyStr.strip s =? "")
  | None => false
  end.

Lemma mem_In (x : string) (xs : list string) :
  PyStr.mem x xs = true <-> In x xs.
Proof.
  unfold PyStr.mem. rewrite existsb_exists. split.
  - intros (y & Hy & E). apply String.eqb_eq in E. now subst.
  - intros H. exists x. split; [exact H | apply String.eqb_refl].
Qed.

Lemma placeholders_not_blank :
  forallb (fun p => negb (whitespace_only (Some p))) placeholders = true.
Proof. vm_compute. reflexivity. Qed.

Lemma filled_blank (c : option string) :
  (PyStr.strip (fill_cell c) =? "") = whitespace_only c.
Proof.
  destruct c as [s|]; [|reflexivity].
  unfold fill_cell. destruct (PyStr.mem s placeholders) eqn:M.
  - pose proof placeholders_not_blank as P. rewrite forallb_forall in P.
    apply mem_In in M. specialize (P s M). apply negb_true_iff in P.
    rewrite P. reflexivity.
  - unfold whitespace_only. destruct (s =? "") eqn:E; [|reflexivity].
    apply String.eqb_eq in E. subst s. discriminate M.
Qed.

Lemma filter_of_map {X Y} (f : X -> Y) (p : Y -> bool) (l : list X) :
  filter p (map f l) = map f (filter (fun x => p (f x)) l).
Proof.
  induction l as [|x l IH]; simpl; [reflexivity|].
  destruct (p (f x)); simpl; now rewrite IH.
Qed.






(** ** Ranges of the allocation rows *)

(** The rows computed from the cells of one client, in binary64. *)
Definition client_rows {P : Platform} (cells : list (string * string))
  : list (allocation_row float) :=
  allocation (map (fun c => (fst c, clean_number (snd c))) cells).

Definition row_in_range (row : allocation_row float) : Prop :=
  Binary64.leb Binary64.zero (value row) = true
  /\ Binary64.leb Binary64.zero (percent row) = true
  /\ Binary64.leb (percent row) (Binary64.of_Z 100) = true.

(** C3, as stated, at a client with a negative cell: the Equity row has
    value -5 and percent -100, the Debt row has percent 200. *)
Lemma negative_cell_out_of_range :
  ~ Forall row_in_range
      (client_rows (P := posix) [("Equity", "-5"); ("Debt", "10")])
  /\ ~ Forall row_in_range
         (client_rows (P := windows) [("Equity", "-5"); ("Debt", "10")]).
Proof.
  split; intros H; unfold client_rows in H; rewrite allocation_frame in H;
    apply Forall_inv in H; destruct H as [Hv _];
    vm_compute in Hv; discriminate Hv.
Qed.

Lemma Qnearest_cases (x : Q) :
  Qnearest x = Qfloor x /\ (x - inject_Z (Qfloor x) <= 1 # 2)%Q
  \/ Qnearest x = (Qfloor x + 1)%Z /\ (1 # 2 <= x - inject_Z (Qfloor x))%Q.
Proof.
  unfold Qnearest.
  destruct (Qcompare_spec (x - inject_Z (Qfloor x)) (1 # 2)) as [E|L|G].
  - destruct (Z.even (Qfloor x)); [left | right]; split;
      try reflexivity; rewrite E; apply Qle_refl.
  - left. split; [reflexivity | now apply Qlt_le_weak].
  - right. split; [reflexivity | now apply Qlt_le_weak].
Qed.

Lemma Qnearest_between (x : Q) (lo hi : Z) :
  (inject_Z lo <= x <= inject_Z hi)%Q -> (lo <= Qnearest x <= hi)%Z.
Proof.
  intros [Hlo Hhi].
  pose proof (Qfloor_resp_le _ _ Hlo) as F1. rewrite Qfloor_Z in F1.
  pose proof (Qfloor_resp_le _ _ Hhi) as F2. rewrite Qfloor_Z in F2.
  destruct (Qnearest_cases x) as [[-> _]|[-> H]]; [lia|].
  split; [lia|].
  assert (L : (inject_Z (Qfloor x) < inject_Z hi)%Q).
  { apply Qlt_le_trans with x; [|exact Hhi].
    apply Qlt_le_trans with (inject_Z (Qfloor x) + (1 # 2))%Q; lra. }
  rewrite <- Zlt_Qlt in L. lia.
Qed.

Section RoundedRanges.

(** Arithmetic on rationals with a rounding [rnd] that is monotone and is
    exact on 0, 1, 100 and 10000: true of round-to-nearest onto any binary
    floating-point format that holds these four numbers. *)
Variable rnd : Q -> Q.
Hypothesis rnd_mono : forall x y, (x <= y)%Q -> (rnd x <= rnd y)%Q.
Hypothesis rnd_0 : (rnd 0 == 0)%Q.
Hypothesis rnd_1 : (rnd 1 == 1)%Q.
Hypothesis rnd_100 : (rnd 100 == 100)%Q.
Hypothesis rnd_10000 : (rnd 10000 == 10000)%Q.

Definition held (x : Q) : Prop := (rnd x == x)%Q.

Lemma rnd_between (lo hi x : Q) :
  held lo -> held hi -> (lo <= x <= hi)%Q -> (lo <= rnd x <= hi)%Q.
Proof.
  unfold held. intros Hlo Hhi [H1 H2]. split.
  - rewrite <- Hlo. now apply rnd_mono.
  - rewrite <- Hhi. now apply rnd_mono.
Qed.

Lemma rounded_percent_range (v total : Q) :
  (0 <= v <= total)%Q -> (0 < total)%Q ->
  (0 <= round2 (A := rounded_arith rnd)
          (a_mul (Arith := rounded_arith rnd)
                 (a_div (Arith := rounded_arith rnd) v total) 100)
     <= 100)%Q.
Proof.
  intros [Hv0 Hvt] Ht. unfold round2. cbn [a_mul a_div a_rint a_hundred rounded_arith].
  assert (H0 : held 0) by exact rnd_0.
  assert (H1 : held 1) by exact rnd_1.
  assert (H100 : held 100) by exact rnd_100.
  assert (H10000 : held 10000) by exact rnd_10000.
  assert (Q1 : (0 <= rnd (v / total) <= 1)%Q).
  { apply rnd_between; try assumption. split.
    - apply Qle_shift_div_l; lra.
    - apply Qle_shift_div_r; lra. }
  assert (Q2 : (0 <= rnd (rnd (v / total) * 100) <= 100)%Q).
  { apply rnd_between; try assumption. lra. }
  assert (Q3 : (0 <= rnd (rnd (rnd (v / total) * 100) * 100) <= 10000)%Q).
  { apply rnd_between; try assumption. lra. }
  pose proof (Qnearest_between _ 0 10000 Q3) as [N1 N2].
  rewrite Zle_Qle in N1, N2.
  apply rnd_between; try assumption.
  set (k := inject_Z (Qnearest _)) in *.
  change (0 <= k)%Q in N1. change (k <= 10000)%Q in N2. split.
  - apply Qle_shift_div_l; lra.
  - apply Qle_shift_div_r; lra.
Qed.

End RoundedRanges.

(** ** Sum of the percent allocations *)

Definition sumQ (l : list Q) : Q := fold_right Qplus 0%Q l.

(** The rows of the assets: all but the appended Total row. *)
Definition asset_rows {F} (rows : list (allocation_row F))
  : list (allocation_row F) :=
  removelast rows.

(** C2 for one client, in binary64. *)
Definition percent_sum_near_100 {P : Platform}
    (assets : list (string * float)) : Prop :=
  assets <> [] ->
  a_gtb (series_sum (map snd assets)) a_zero = true ->
  (Qabs (sumQ (map (fun r => to_Q (percent r))
                   (asset_rows (allocation assets))) - 100)
   <= (1 # 100) * inject_Z (Z.of_nat (List.length assets)))%Q.

(** C2, as stated, at two holdings of 1e308: their total overflows to
    infinity, which is greater than 0, and both percents are 0. *)
Lemma overflowing_total_sums_to_0 :
  ~ percent_sum_near_100 (P := posix)
      [("Equity", clean_number "1e308"); ("Debt", clean_number "1e308")]
  /\ ~ percent_sum_near_100 (P := windows)
         [("Equity", clean_number "1e308"); ("Debt", clean_number "1e308")].
Proof.
  split; intros H;
    specialize (H ltac:(discriminate) ltac:(vm_compute; reflexivity));
    vm_compute in H; apply H; reflexivity.
Qed.

Lemma Qnearest_half (x : Q) :
  (- (1 # 2) <= inject_Z (Qnearest x) - x <= 1 # 2)%Q.
Proof.
  pose proof (Qfloor_le x) as L. pose proof (Qlt_floor x) as U.
  rewrite inject_Z_plus in U. change (inject_Z 1) with 1%Q in U.
  destruct (Qnearest_cases x) as [[-> H]|[-> H]].
  - lra.
  - rewrite inject_Z_plus. change (inject_Z 1) with 1%Q. lra.
Qed.

Lemma sumQ_app (a b : list Q) : (sumQ (a ++ b) == sumQ a + sumQ b)%Q.
Proof. induction a as [|x a IH]; simpl; [ring | rewrite IH; ring]. Qed.

Section RoundedSum.

(** Arithmetic on rationals with a rounding [rnd] of relative error [u],
    up to an absolute error [eta] where results underflow. binary64 has
    [u = 2^-53] and [eta = 2^-1075]. *)
Variable rnd : Q -> Q.
Variables u eta : Q.
Hypothesis u_small : (0 <= u <= 1 # 1000000)%Q.
Hypothesis eta_small : (0 <= eta <= 1 # 1000000)%Q.
Hypothesis rnd_error :
  forall x, (Qabs (rnd x - x) <= u * Qabs x + eta)%Q.

Let AQ : Arith Q := rounded_arith rnd.

Lemma rnd_near (z bound : Q) :
  (- bound <= z <= bound)%Q ->
  (- ((1 # 1000000) * bound + (1 # 1000000)) <= rnd z - z
   <= (1 # 1000000) * bound + (1 # 1000000))%Q.
Proof.
  intros Hz. pose proof (rnd_error z) as E.
  apply Qabs_Qle_condition in E.
  assert (A : (Qabs z <= bound)%Q) by now apply Qabs_Qle_condition.
  pose proof (Qabs_nonneg z) as P.
  assert (M : (u * Qabs z <= (1 # 1000000) * bound)%Q) by nra.
  lra.
Qed.

(** One percent, against the exact share [x = v / total]. *)
Lemma rounded_percent_error (x : Q) :
  (0 <= x)%Q ->
  let r := round2 (A := AQ) (a_mul (Arith := AQ) (rnd x) 100%Q) in
  (- ((3 # 500) + (1 # 1000) * x) <= r - 100 * x
   <= (3 # 500) + (1 # 1000) * x)%Q.
Proof.
  intros Hx r. subst r. unfold round2.
  cbn [a_mul a_div a_rint a_hundred rounded_arith AQ].
  set (a := rnd x).
  set (b := rnd (a * 100)).
  set (c := rnd (b * 100)).
  set (k := inject_Z (Qnearest c)).
  pose proof (rnd_near x x ltac:(lra)) as Ea. fold a in Ea.
  pose proof (rnd_near (a * 100) (101 * x + 1) ltac:(lra)) as Eb.
  fold b in Eb.
  pose proof (rnd_near (b * 100) (10101 * x + 101) ltac:(lra)) as Ec.
  fold c in Ec.
  pose proof (Qnearest_half c) as Ek. fold k in Ek.
  pose proof (rnd_near (k / 100) (102 * x + 2)) as Er.
  assert (D : (k / 100 * 100 == k)%Q) by (field).
  lapply Er; [clear Er; intros Er | lra].
  lra.
Qed.

(** One addition of a sum: [s] is the exact sum of two partial sums that
    are within [w] of their exact values, [t] is [s] rounded. *)
Lemma sum_node_bounds (w exact s t : Q) :
  (0 <= w)%Q -> (w + u <= 1 # 100000)%Q -> (0 <= exact)%Q ->
  ((1 - w) * exact <= s <= (1 + 2 * w) * exact)%Q ->
  ((1 - u) * s <= t <= (1 + u) * s)%Q ->
  ((1 - (w + u)) * exact <= t <= (1 + 2 * (w + u)) * exact)%Q.
Proof.
  intros W0 W1 E0 [S1 S2] [T1 T2]. destruct u_small as [U0 U1].
  assert (A1 : (0 <= (1 - u) * (s - (1 - w) * exact))%Q)
    by (apply Qmult_le_0_compat; lra).
  assert (A2 : (0 <= (1 + u) * ((1 + 2 * w) * exact - s))%Q)
    by (apply Qmult_le_0_compat; lra).
  assert (A3 : (0 <= w * (u * exact))%Q).
  { apply Qmult_le_0_compat; [lra|]. apply Qmult_le_0_compat; lra. }
  assert (A4 : (0 <= (u * exact) * (1 - 2 * w))%Q).
  { apply Qmult_le_0_compat; [|lra]. apply Qmult_le_0_compat; lra. }
  split.
  - apply Qle_trans with ((1 - u) * ((1 - w) * exact))%Q; lra.
  - apply Qle_trans with ((1 + u) * ((1 + 2 * w) * exact))%Q; lra.
Qed.

Lemma sum_of_errors {X} (f g : X -> Q) (l : list X) :
  (forall a, In a l ->
     - ((3 # 500) + (1 # 1000) * g a) <= f a - 100 * g a
     <= (3 # 500) + (1 # 1000) * g a)%Q ->
  let n := inject_Z (Z.of_nat (List.length l)) in
  (- ((3 # 500) * n + (1 # 1000) * sumQ (map g l))
   <= sumQ (map f l) - 100 * sumQ (map g l)
   <= (3 # 500) * n + (1 # 1000) * sumQ (map g l))%Q.
Proof.
  induction l as [|a l IH]; intros H.
  { cbv zeta. cbn [map sumQ fold_right List.length Z.of_nat].
    change (inject_Z 0) with 0%Q. lra. }
  lapply IH; [clear IH; intros IH | intros b Hb; apply H; now right].
  specialize (H a (or_introl eq_refl)).
  cbv zeta in *.
  change (sumQ (map f (a :: l))) with (f a + sumQ (map f l))%Q.
  change (sumQ (map g (a :: l))) with (g a + sumQ (map g l))%Q.
  cbn [List.length]. rewrite Nat2Z.inj_succ. unfold Z.succ. rewrite inject_Z_plus.
  change (inject_Z 1) with 1%Q. lra.
Qed.

Lemma sumQ_scaled (c : Q) (l : list Q) :
  (sumQ (map (fun v => v / c) l) == sumQ l / c)%Q.
Proof.
  unfold Qdiv. induction l as [|v l IH]; simpl; [ring | rewrite IH; ring].
Qed.

(** On rationals: for a non-empty list of non-negative values and a
    positive total within [w <= 1e-5] of their exact sum, the percents add
    up to 100 within 0.01 per value. *)
Lemma percent_sum_of_total (values : list Q) (total w : Q) :
  values <> [] ->
  Forall (fun v => (0 <= v)%Q) values ->
  (0 <= w <= 1 # 100000)%Q -> (0 < total)%Q ->
  ((1 - w) * sumQ values <= total <= (1 + 2 * w) * sumQ values)%Q ->
  (Qabs (sumQ (map (fun v =>
                      round2 (A := AQ)
                        (a_mul (Arith := AQ)
                           (a_div (Arith := AQ) v total) (@a_hundred Q AQ)))
                   values) - 100)
   <= (1 # 100) * inject_Z (Z.of_nat (List.length values)))%Q.
Proof.
  intros Hne Hok [W0 W1] Hpos T.
  set (n := inject_Z (Z.of_nat (List.length values))) in *.
  assert (N1 : (1 <= n)%Q).
  { unfold n. change 1%Q with (inject_Z 1). rewrite <- Zle_Qle.
    destruct values; [congruence | simpl; lia]. }
  set (exact := sumQ values) in *.
  assert (Hex : (0 < exact)%Q).
  { apply Qnot_le_lt. intros C.
    assert (0 <= (1 + 2 * w) * (- exact))%Q
      by (apply Qmult_le_0_compat; lra). lra. }
  set (rho := (exact / total)%Q).
  assert (R : (rho * total == exact)%Q) by (unfold rho; field; lra).
  assert (R0 : (0 <= rho)%Q).
  { unfold rho. apply Qle_shift_div_l; lra. }
  assert (Rhi : (rho <= 100002 # 100000)%Q).
  { assert (M : (rho * ((1 - w) * exact) <= rho * total)%Q)
      by (rewrite !(Qmult_comm rho); apply Qmult_le_compat_r; lra).
    assert (M2 : (0 <= (rho * exact) * ((1 # 100000) - w))%Q).
    { apply Qmult_le_0_compat; [|lra]. apply Qmult_le_0_compat; lra. }
    assert (M3 : ((99999 # 100000) * rho * exact <= exact)%Q) by lra.
    apply Qnot_lt_le. intros C.
    assert (0 < (rho - (100002 # 100000)) * exact)%Q
      by (apply Qmult_lt_0_compat; lra). lra. }
  assert (Rlo : (99998 # 100000 <= rho)%Q).
  { assert (M : (rho * total <= rho * ((1 + 2 * w) * exact))%Q)
      by (rewrite !(Qmult_comm rho); apply Qmult_le_compat_r; lra).
    assert (M2 : (0 <= (rho * exact) * ((1 # 100000) - w))%Q).
    { apply Qmult_le_0_compat; [|lra]. apply Qmult_le_0_compat; lra. }
    assert (M3 : (exact <= (100002 # 100000) * rho * exact)%Q) by lra.
    apply Qnot_lt_le. intros C.
    assert (0 < ((99998 # 100000) - rho) * exact)%Q
      by (apply Qmult_lt_0_compat; lra). lra. }
  pose proof (sum_of_errors
                (fun v => round2 (A := AQ)
                            (a_mul (Arith := AQ)
                               (a_div (Arith := AQ) v total)
                               (@a_hundred Q AQ)))
                (fun v => (v / total)%Q) values) as E.
  lapply E; [clear E; intros E|].
  - cbv zeta in E. fold n in E.
    assert (G : (sumQ (map (fun v => v / total) values) == rho)%Q)
      by now rewrite sumQ_scaled.
    rewrite G in E. apply Qabs_Qle_condition. lra.
  - intros v Hv. rewrite Forall_forall in Hok. pose proof (Hok v Hv) as V0.
    apply (rounded_percent_error (v / total)).
    apply Qle_shift_div_l; lra.
Qed.

End RoundedSum.

(** ** Rounding to nearest in binary64, on rationals *)

(** Counting in units of [2^-1074], the spacing of the subnormal numbers,
    the binary64 numbers are the integers [m * 2^g] with [m < 2^53]. A
    non-negative [y] lies where the spacing is [2^g], [g = grid_exp y]. *)
Definition grid_exp (y : Q) : Z := Z.max (Z.log2 (Qfloor y) - 52) 0.

Definition nearest_on_grid (y : Q) : Z :=
  (Qnearest (y / inject_Z (2 ^ grid_exp y)) * 2 ^ grid_exp y)%Z.

Definition units : Q := inject_Z (2 ^ 1074).

(** Round to nearest, ties to even, with gradual underflow and without
    overflow. *)
Definition RN (x : Q) : Q := (inject_Z (nearest_on_grid (x * units)) / units)%Q.

Lemma Qnearest_comp (x y : Q) : (x == y)%Q -> Qnearest x = Qnearest y.
Proof.
  intros E. unfold Qnearest. rewrite (Qfloor_comp _ _ E).
  assert (C : ((x - inject_Z (Qfloor y) ?= 1 # 2)
               = (y - inject_Z (Qfloor y) ?= 1 # 2))%Q)
    by now rewrite E.
  now rewrite C.
Qed.

Lemma Qnearest_Z (z : Z) : Qnearest (inject_Z z) = z.
Proof.
  pose proof (Qnearest_half (inject_Z z)) as H.
  assert (L : (inject_Z (Qnearest (inject_Z z) - z) <= 1 # 2)%Q).
  { unfold Z.sub. rewrite inject_Z_plus, inject_Z_opp. lra. }
  assert (U : (- (1 # 2) <= inject_Z (Qnearest (inject_Z z) - z))%Q).
  { unfold Z.sub. rewrite inject_Z_plus, inject_Z_opp. lra. }
  assert (L' : (inject_Z (Qnearest (inject_Z z) - z) < inject_Z 1)%Q)
    by (change (inject_Z 1) with 1%Q; lra).
  assert (U' : (inject_Z (-1) < inject_Z (Qnearest (inject_Z z) - z))%Q)
    by (change (inject_Z (-1)) with (-1)%Q; lra).
  rewrite <- Zlt_Qlt in L', U'. lia.
Qed.

Lemma Qnearest_mono (x y : Q) : (x <= y)%Q -> (Qnearest x <= Qnearest y)%Z.
Proof.
  intros H. pose proof (Qnearest_half x) as Hx.
  pose proof (Qnearest_half y) as Hy.
  destruct (Z.le_gt_cases (Qnearest x) (Qnearest y)) as [|G]; [assumption|].
  assert (G' : (inject_Z (Qnearest y) + 1 <= inject_Z (Qnearest x))%Q).
  { change 1%Q with (inject_Z 1). rewrite <- inject_Z_plus, <- Zle_Qle. lia. }
  assert (E : (x == y)%Q) by lra.
  rewrite (Qnearest_comp _ _ E). lia.
Qed.

Lemma pow2_pos (z : Z) : (0 < 2 ^ z)%Z -> (0 < inject_Z (2 ^ z))%Q.
Proof. intros H. change 0%Q with (inject_Z 0). now rewrite <- Zlt_Qlt. Qed.

Lemma grid_exp_nonneg (y : Q) : (0 <= grid_exp y)%Z.
Proof. unfold grid_exp. lia. Qed.

Lemma grid_pos (y : Q) : (0 < inject_Z (2 ^ grid_exp y))%Q.
Proof. apply pow2_pos. pose proof (grid_exp_nonneg y). lia. Qed.

Lemma grid_exp_mono (x y : Q) : (x <= y)%Q -> (grid_exp x <= grid_exp y)%Z.
Proof.
  intros H. unfold grid_exp.
  pose proof (Z.log2_le_mono _ _ (Qfloor_resp_le _ _ H)). lia.
Qed.

Lemma grid_exp_comp (x y : Q) : (x == y)%Q -> grid_exp x = grid_exp y.
Proof. intros E. unfold grid_exp. now rewrite (Qfloor_comp _ _ E). Qed.

Lemma nearest_on_grid_comp (x y : Q) :
  (x == y)%Q -> nearest_on_grid x = nearest_on_grid y.
Proof.
  intros E. unfold nearest_on_grid. rewrite (grid_exp_comp _ _ E).
  f_equal. apply Qnearest_comp. now rewrite E.
Qed.

(** [y] is below the end of its binade. *)
Lemma below_next_binade (y : Q) :
  (y < inject_Z (2 ^ (53 + grid_exp y)))%Q.
Proof.
  pose proof (Qlt_floor y) as U.
  apply Qlt_le_trans with (1 := U). rewrite <- Zle_Qle.
  pose proof (grid_exp_nonneg y) as G. unfold grid_exp in *.
  destruct (Z.le_gt_cases (Qfloor y) 0) as [N|P].
  - assert (1 <= 2 ^ (53 + Z.max (Z.log2 (Qfloor y) - 52) 0))%Z
      by (apply (Z.pow_le_mono_r 2 0); lia). lia.
  - pose proof (Z.log2_spec _ P) as [_ L].
    assert (2 ^ Z.succ (Z.log2 (Qfloor y))
            <= 2 ^ (53 + Z.max (Z.log2 (Qfloor y) - 52) 0))%Z
      by (apply Z.pow_le_mono_r; lia). lia.
Qed.

(** Above the subnormal range [y] is at least the start of its binade. *)
Lemma above_binade_start (y : Q) :
  (0 < grid_exp y)%Z -> (inject_Z (2 ^ (52 + grid_exp y)) <= y)%Q.
Proof.
  intros G. apply Qle_trans with (inject_Z (Qfloor y)); [|apply Qfloor_le].
  rewrite <- Zle_Qle. unfold grid_exp in *.
  assert (P : (0 < Qfloor y)%Z).
  { destruct (Z.le_gt_cases (Qfloor y) 0) as [N|P]; [|assumption].
    rewrite (Z.log2_nonpos _ N) in G. lia. }
  pose proof (Z.log2_spec _ P) as [L _].
  replace (52 + Z.max (Z.log2 (Qfloor y) - 52) 0)%Z
    with (Z.log2 (Qfloor y)) by lia.
  exact L.
Qed.

Lemma inject_Z_pow2_mul (a b : Z) :
  (0 <= a)%Z -> (0 <= b)%Z ->
  (inject_Z (2 ^ (a + b)) == inject_Z (2 ^ a) * inject_Z (2 ^ b))%Q.
Proof.
  intros Ha Hb. rewrite Z.pow_add_r by assumption.
  now rewrite inject_Z_mult.
Qed.

(** The mantissa chosen for [y]: at most [2^53], and at least [2^52] above
    the subnormal range. *)
Lemma mantissa_range (y : Q) :
  (0 <= y)%Q ->
  let q := Qnearest (y / inject_Z (2 ^ grid_exp y)) in
  (0 <= q <= 2 ^ 53)%Z /\ ((0 < grid_exp y)%Z -> (2 ^ 52 <= q)%Z).
Proof.
  intros Hy q. pose proof (grid_pos y) as P.
  pose proof (grid_exp_nonneg y) as G.
  assert (U : (y / inject_Z (2 ^ grid_exp y) <= inject_Z (2 ^ 53))%Q).
  { apply Qle_shift_div_r; [exact P|].
    rewrite <- inject_Z_pow2_mul by lia. apply Qlt_le_weak.
    apply below_next_binade. }
  assert (L : (inject_Z 0 <= y / inject_Z (2 ^ grid_exp y))%Q).
  { apply Qle_shift_div_l; [exact P|]. change (inject_Z 0) with 0%Q. lra. }
  split.
  - apply Qnearest_between. split; assumption.
  - intros Gpos. pose proof (above_binade_start y Gpos) as A.
    rewrite inject_Z_pow2_mul in A by lia.
    assert (L2 : (inject_Z (2 ^ 52) <= y / inject_Z (2 ^ grid_exp y))%Q)
      by (apply Qle_shift_div_l; assumption).
    apply (Qnearest_between _ (2 ^ 52) (2 ^ 53)). split; assumption.
Qed.

Lemma nearest_on_grid_mono (x y : Q) :
  (x <= y)%Q -> (nearest_on_grid x <= nearest_on_grid y)%Z.
Proof.
  intros H. pose proof (grid_exp_mono x y H) as G.
  pose proof (grid_exp_nonneg x) as Gx. pose proof (grid_pos x) as Px.
  unfold nearest_on_grid.
  destruct (Z.eq_dec (grid_exp x) (grid_exp y)) as [E|N].
  - rewrite <- E. apply Z.mul_le_mono_nonneg_r; [lia|].
    apply Qnearest_mono. apply Qmult_le_compat_r; [exact H|].
    apply Qinv_le_0_compat. now apply Qlt_le_weak.
  - assert (Gy : (0 < grid_exp y)%Z) by lia.
    assert (Hy : (0 <= y)%Q).
    { apply Qle_trans with (2 := above_binade_start y Gy).
      change 0%Q with (inject_Z 0). rewrite <- Zle_Qle. lia. }
    apply Z.le_trans with (2 ^ (52 + grid_exp y))%Z.
    + assert (B : (x / inject_Z (2 ^ grid_exp x)
                   <= inject_Z (2 ^ (52 + grid_exp y - grid_exp x)))%Q).
      { apply Qle_shift_div_r; [exact Px|].
        rewrite <- inject_Z_pow2_mul by lia.
        replace (52 + grid_exp y - grid_exp x + grid_exp x)%Z
          with (52 + grid_exp y)%Z by lia.
        apply Qlt_le_weak. apply Qlt_le_trans with (1 := below_next_binade x).
        rewrite <- Zle_Qle. apply Z.pow_le_mono_r; lia. }
      apply Qnearest_mono in B. rewrite Qnearest_Z in B.
      replace (52 + grid_exp y)%Z
        with ((52 + grid_exp y - grid_exp x) + grid_exp x)%Z by lia.
      rewrite Z.pow_add_r by lia.
      apply Z.mul_le_mono_nonneg_r; [lia | exact B].
    + destruct (mantissa_range y Hy) as [_ M]. specialize (M Gy).
      rewrite Z.pow_add_r by lia.
      apply Z.mul_le_mono_nonneg_r; [lia | exact M].
Qed.

(** Integers that are multiples of their own spacing stay as they are. *)
Lemma nearest_on_grid_multiple (n k : Z) :
  n = (k * 2 ^ grid_exp (inject_Z n))%Z ->
  nearest_on_grid (inject_Z n) = n.
Proof.
  intros E. unfold nearest_on_grid.
  set (g := grid_exp (inject_Z n)) in *.
  assert (P : (0 < inject_Z (2 ^ g))%Q) by apply grid_pos.
  assert (D : (inject_Z n / inject_Z (2 ^ g) == inject_Z k)%Q).
  { rewrite E at 1. rewrite inject_Z_mult. field. lra. }
  rewrite (Qnearest_comp _ _ D), Qnearest_Z. now symmetry.
Qed.

Lemma nearest_on_grid_float (m j : Z) :
  (0 <= m < 2 ^ 53)%Z -> (0 <= j)%Z ->
  nearest_on_grid (inject_Z (m * 2 ^ j)) = (m * 2 ^ j)%Z.
Proof.
  intros Hm Hj.
  destruct (Z.eq_dec m 0) as [->|Hne].
  - apply (nearest_on_grid_multiple _ 0). lia.
  - set (g := grid_exp (inject_Z (m * 2 ^ j))).
    assert (G : (0 <= g <= j)%Z).
    { subst g. unfold grid_exp. rewrite Qfloor_Z.
      rewrite Z.log2_mul_pow2 by lia.
      assert (Z.log2 m < 53)%Z by (apply Z.log2_lt_pow2; lia). lia. }
    apply (nearest_on_grid_multiple _ (m * 2 ^ (j - g))). fold g.
    rewrite <- Z.mul_assoc, <- Z.pow_add_r by lia.
    now replace (j - g + g)%Z with j by lia.
Qed.

Lemma nearest_on_grid_nonpos (n : Z) :
  (n <= 0)%Z -> nearest_on_grid (inject_Z n) = n.
Proof.
  intros H. apply (nearest_on_grid_multiple _ n).
  unfold grid_exp. rewrite Qfloor_Z, (Z.log2_nonpos _ H). simpl. lia.
Qed.

Lemma nearest_on_grid_idem (y : Q) :
  nearest_on_grid (inject_Z (nearest_on_grid y)) = nearest_on_grid y.
Proof.
  destruct (Qlt_le_dec y 0) as [N|P].
  - apply nearest_on_grid_nonpos.
    assert (H : (nearest_on_grid y <= nearest_on_grid 0)%Z)
      by (apply nearest_on_grid_mono; lra).
    exact H.
  - destruct (mantissa_range y P) as [[Q0 Q1] _].
    unfold nearest_on_grid at 2 3.
    pose proof (grid_exp_nonneg y) as G.
    set (q := Qnearest _) in *. set (g := grid_exp y) in *.
    destruct (Z.eq_dec q (2 ^ 53)) as [E|Hne].
    + rewrite E. replace (2 ^ 53 * 2 ^ g)%Z with (2 ^ 52 * 2 ^ (g + 1))%Z.
      * apply nearest_on_grid_float; lia.
      * rewrite (Z.pow_add_r 2 g 1) by lia. lia.
    + apply nearest_on_grid_float; lia.
Qed.

Lemma nearest_on_grid_error (y : Q) :
  (Qabs (inject_Z (nearest_on_grid y) - y)
   <= (1 # 2) * inject_Z (2 ^ grid_exp y))%Q.
Proof.
  unfold nearest_on_grid. pose proof (grid_pos y) as P.
  set (g := inject_Z (2 ^ grid_exp y)) in *.
  pose proof (Qnearest_half (y / g)) as H.
  set (q := inject_Z (Qnearest (y / g))) in *.
  rewrite inject_Z_mult. fold q g.
  assert (D : (y / g * g == y)%Q) by (field; lra).
  apply Qabs_Qle_condition.
  assert (L : (0 <= g * ((1 # 2) - (q - y / g)))%Q)
    by (apply Qmult_le_0_compat; lra).
  assert (U : (0 <= g * ((q - y / g) + (1 # 2)))%Q)
    by (apply Qmult_le_0_compat; lra).
  lra.
Qed.

Lemma spacing_bound (y : Q) :
  (0 <= y)%Q ->
  (inject_Z (2 ^ grid_exp y) <= 1 + y / inject_Z (2 ^ 52))%Q.
Proof.
  intros Hy. pose proof (grid_exp_nonneg y) as G.
  assert (P52 : (0 < inject_Z (2 ^ 52))%Q) by (apply pow2_pos; lia).
  destruct (Z.eq_dec (grid_exp y) 0) as [E|N].
  - rewrite E. change (inject_Z (2 ^ 0)) with 1%Q.
    assert (0 <= y / inject_Z (2 ^ 52))%Q by (apply Qle_shift_div_l; lra).
    lra.
  - pose proof (above_binade_start y ltac:(lia)) as A.
    rewrite inject_Z_pow2_mul in A by lia.
    assert (inject_Z (2 ^ grid_exp y) <= y / inject_Z (2 ^ 52))%Q.
    { apply Qle_shift_div_l; [exact P52|]. lra. }
    lra.
Qed.

Definition unit_roundoff : Q := 1 # (2 ^ 53).
Definition underflow_error : Q := (1 # 2) / units.

Lemma units_pos : (0 < units)%Q.
Proof. apply pow2_pos. lia. Qed.

Lemma RN_error (x : Q) :
  (Qabs (RN x - x) <= unit_roundoff * Qabs x + underflow_error)%Q.
Proof.
  pose proof units_pos as U. unfold RN, underflow_error.
  pose proof (nearest_on_grid_error (x * units)) as E.
  set (n := inject_Z (nearest_on_grid (x * units))) in *.
  assert (S : (inject_Z (2 ^ grid_exp (x * units))
               <= 1 + Qabs x * units / inject_Z (2 ^ 52))%Q).
  { destruct (Qlt_le_dec x 0) as [N|P].
    - assert (G : grid_exp (x * units) = 0%Z).
      { unfold grid_exp.
        assert (F : (Qfloor (x * units) <= 0)%Z).
        { assert (L : (x * units <= inject_Z 0)%Q).
          { change (inject_Z 0) with 0%Q.
            assert (0 <= (- x) * units)%Q
              by (apply Qmult_le_0_compat; lra). lra. }
          apply Qfloor_resp_le in L. now rewrite Qfloor_Z in L. }
        rewrite (Z.log2_nonpos _ F). reflexivity. }
      rewrite G. change (inject_Z (2 ^ 0)) with 1%Q.
      pose proof (Qabs_nonneg x).
      assert (0 <= Qabs x * units / inject_Z (2 ^ 52))%Q.
      { apply Qle_shift_div_l; [now vm_compute|].
        rewrite Qmult_0_l. apply Qmult_le_0_compat; lra. }
      lra.
    - rewrite (Qabs_pos x P). apply spacing_bound.
      apply Qmult_le_0_compat; lra. }
  assert (A : (RN x - x == (n - x * units) / units)%Q)
    by (unfold RN; fold n; field; lra).
  unfold RN in A. fold n in A. rewrite A.
  unfold Qdiv at 1. rewrite Qabs_Qmult, (Qabs_pos (/ units))
    by (apply Qinv_le_0_compat; lra).
  apply Qle_shift_div_r; [exact U|].
  apply Qle_trans with (1 := E).
  assert (C : (unit_roundoff == (1 # 2) / inject_Z (2 ^ 52))%Q)
    by (vm_compute; reflexivity).
  assert (P52 : (0 < inject_Z (2 ^ 52))%Q) by (apply pow2_pos; lia).
  rewrite C. clear C. set (c := inject_Z (2 ^ 52)) in *.
  clearbody c n. clear E A. generalize dependent units. intros w U S.
  assert (R : (((1 # 2) / c * Qabs x + (1 # 2) / w) * w
               == (1 # 2) * (1 + Qabs x * w / c))%Q) by (field; lra).
  rewrite R. lra.
Qed.

Lemma RN_mono (x y : Q) : (x <= y)%Q -> (RN x <= RN y)%Q.
Proof.
  intros H. pose proof units_pos as U. unfold RN.
  apply Qmult_le_compat_r; [|apply Qinv_le_0_compat; lra].
  rewrite <- Zle_Qle. apply nearest_on_grid_mono.
  apply Qmult_le_compat_r; lra.
Qed.

Lemma RN_scaled (x : Q) (n : Z) :
  (x * units == inject_Z n)%Q ->
  (RN x == inject_Z (nearest_on_grid (inject_Z n)) / units)%Q.
Proof.
  intros E. unfold RN. now rewrite (nearest_on_grid_comp _ _ E).
Qed.

Lemma RN_idem (x : Q) : (RN (RN x) == RN x)%Q.
Proof.
  pose proof units_pos as U.
  rewrite (RN_scaled (RN x) (nearest_on_grid (x * units))).
  - rewrite nearest_on_grid_idem. reflexivity.
  - unfold RN. field. lra.
Qed.

(** The numbers of the format: the fixed points of [RN]. *)
Lemma RN_fixed_scaled (x : Q) :
  (RN x == x)%Q ->
  (x * units == inject_Z (nearest_on_grid (x * units)))%Q.
Proof.
  intros H. pose proof units_pos as U. unfold RN in H.
  rewrite <- H at 1. field. lra.
Qed.

Lemma RN_int (n : Z) :
  (0 <= n < 2 ^ 53)%Z -> (RN (inject_Z n) == inject_Z n)%Q.
Proof.
  intros H. pose proof units_pos as U.
  rewrite (RN_scaled _ (n * 2 ^ 1074)).
  - rewrite nearest_on_grid_float by lia.
    rewrite inject_Z_mult. fold units. field. lra.
  - unfold units. now rewrite inject_Z_mult.
Qed.

Lemma nearest_on_grid_int_error (n : Z) :
  (Qabs (inject_Z (nearest_on_grid (inject_Z n)) - inject_Z n)
   <= unit_roundoff * Qabs (inject_Z n))%Q.
Proof.
  pose proof (grid_exp_nonneg (inject_Z n)) as G.
  destruct (Z.eq_dec (grid_exp (inject_Z n)) 0) as [E|N].
  - rewrite (nearest_on_grid_multiple n n) by (rewrite E; simpl; lia).
    setoid_replace (inject_Z n - inject_Z n)%Q with 0%Q by ring.
    pose proof (Qabs_nonneg (inject_Z n)).
    apply Qmult_le_0_compat; [now vm_compute | assumption].
  - apply Qle_trans with (1 := nearest_on_grid_error (inject_Z n)).
    pose proof (above_binade_start (inject_Z n) ltac:(lia)) as A.
    rewrite inject_Z_pow2_mul in A by lia.
    pose proof (grid_pos (inject_Z n)) as P.
    set (g := inject_Z (2 ^ grid_exp (inject_Z n))) in *.
    assert (C : (unit_roundoff == (1 # 2) / inject_Z (2 ^ 52))%Q)
      by (vm_compute; reflexivity).
    assert (P52 : (0 < inject_Z (2 ^ 52))%Q) by (apply pow2_pos; lia).
    rewrite C, Qabs_pos by (apply Qle_trans with (2 := A);
                            apply Qmult_le_0_compat; lra).
    set (c := inject_Z (2 ^ 52)) in *. clearbody c g.
    unfold Qdiv. rewrite <- Qmult_assoc.
    apply Qmult_le_l; [lra|].
    rewrite Qmult_comm. apply Qle_shift_div_l; lra.
Qed.

Lemma RN_sum_error (a b : Q) :
  (RN a == a)%Q -> (RN b == b)%Q ->
  (Qabs (RN (a + b) - (a + b)) <= unit_roundoff * Qabs (a + b))%Q.
Proof.
  intros Ha Hb. pose proof units_pos as U.
  apply RN_fixed_scaled in Ha. apply RN_fixed_scaled in Hb.
  set (na := nearest_on_grid (a * units)) in *.
  set (nb := nearest_on_grid (b * units)) in *.
  assert (E : ((a + b) * units == inject_Z (na + nb))%Q)
    by (rewrite inject_Z_plus, <- Ha, <- Hb; ring).
  rewrite (RN_scaled _ _ E).
  pose proof (nearest_on_grid_int_error (na + nb)) as H.
  set (r := inject_Z (nearest_on_grid (inject_Z (na + nb)))) in *.
  assert (S : (a + b == inject_Z (na + nb) / units)%Q)
    by (rewrite <- E; field; lra).
  rewrite S.
  setoid_replace (r / units - inject_Z (na + nb) / units)%Q
    with ((r - inject_Z (na + nb)) / units)%Q by (field; lra).
  unfold Qdiv. rewrite !Qabs_Qmult, (Qabs_pos (/ units))
    by (apply Qinv_le_0_compat; lra).
  rewrite Qmult_assoc. apply Qmult_le_compat_r; [exact H|].
  apply Qinv_le_0_compat. lra.
Qed.

(** ** The rounding of [SpecFloat], against [RN] *)

Definition pow2 (z : Z) : Q := (2 ^ z)%Q.

Lemma pow2_add (a b : Z) : (pow2 (a + b) == pow2 a * pow2 b)%Q.
Proof. unfold pow2. apply Qpower_plus. discriminate. Qed.

Lemma pow2_gt0 (z : Z) : (0 < pow2 z)%Q.
Proof. unfold pow2. apply Qpower_0_lt. reflexivity. Qed.

Lemma pow2_Z (z : Z) : (0 <= z)%Z -> (pow2 z == inject_Z (2 ^ z))%Q.
Proof. intros H. unfold pow2. now rewrite Zpower_Qpower. Qed.

Lemma pow2_le (a b : Z) : (a <= b)%Z -> (pow2 a <= pow2 b)%Q.
Proof. intros H. unfold pow2. apply Qpower_le_compat_l; [exact H | discriminate]. Qed.

Lemma pow2_sub (a b : Z) : (pow2 (a - b) == pow2 a / pow2 b)%Q.
Proof.
  pose proof (pow2_gt0 b) as P.
  assert (E : (pow2 (a - b) * pow2 b == pow2 a)%Q).
  { rewrite <- pow2_add. now replace (a - b + b)%Z with a by lia. }
  rewrite <- E. field. lra.
Qed.

Lemma fexp_eq (z : Z) : fexp prec emax z = Z.max (z - 53) (-1074).
Proof. reflexivity. Qed.

Lemma digits2_pos_log2 (p : positive) :
  Zpos (digits2_pos p) = (Z.log2 (Zpos p) + 1)%Z.
Proof.
  assert (S : forall q, digits2_pos q = Pos.size q)
    by (induction q; simpl; congruence).
  rewrite S. destruct p; simpl; lia.
Qed.

Lemma digits2_pos_bounds (p : positive) :
  (2 ^ (Zpos (digits2_pos p) - 1) <= Zpos p < 2 ^ Zpos (digits2_pos p))%Z.
Proof.
  rewrite digits2_pos_log2.
  pose proof (Z.log2_spec (Zpos p) ltac:(lia)) as [L U].
  replace (Z.log2 (Zpos p) + 1 - 1)%Z with (Z.log2 (Zpos p)) by lia.
  split; [exact L|]. now replace (Z.log2 (Zpos p) + 1)%Z
                       with (Z.succ (Z.log2 (Zpos p))) by lia.
Qed.

Lemma digits2_pos_unique (p : positive) (d : Z) :
  (2 ^ (d - 1) <= Zpos p < 2 ^ d)%Z -> (0 < d)%Z -> Zpos (digits2_pos p) = d.
Proof.
  intros H Hd. rewrite digits2_pos_log2.
  rewrite (Z.log2_unique (Zpos p) (d - 1)); [lia | lia |].
  now replace (Z.succ (d - 1)) with d by lia.
Qed.

(** Where a real [r] lies between the integer [m] and [m + 1]. *)
Definition located (r : Q) (m : Z) (l : location) : Prop :=
  match l with
  | loc_Exact => (r == inject_Z m)%Q
  | loc_Inexact Lt => (inject_Z m < r < inject_Z m + (1 # 2))%Q
  | loc_Inexact Eq => (r == inject_Z m + (1 # 2))%Q
  | loc_Inexact Gt => (inject_Z m + (1 # 2) < r < inject_Z m + 1)%Q
  end.

Lemma located_comp (r r' : Q) (m : Z) (l : location) :
  (r == r')%Q -> located r m l -> located r' m l.
Proof.
  intros E. destruct l as [|[]]; cbn [located]; rewrite E; trivial.
Qed.

Lemma located_range (r : Q) (m : Z) (l : location) :
  located r m l -> (inject_Z m <= r < inject_Z m + 1)%Q.
Proof. destruct l as [|[]]; cbn [located]; lra. Qed.

Lemma Qfloor_unique (r : Q) (m : Z) :
  (inject_Z m <= r < inject_Z m + 1)%Q -> Qfloor r = m.
Proof.
  intros [L U]. pose proof (Qfloor_le r) as F1. pose proof (Qlt_floor r) as F2.
  rewrite inject_Z_plus in F2. change (inject_Z 1) with 1%Q in F2.
  assert (A : (inject_Z (Qfloor r) < inject_Z (m + 1))%Q)
    by (rewrite inject_Z_plus; change (inject_Z 1) with 1%Q; lra).
  assert (B : (inject_Z m < inject_Z (Qfloor r + 1))%Q)
    by (rewrite inject_Z_plus; change (inject_Z 1) with 1%Q; lra).
  rewrite <- Zlt_Qlt in A, B. lia.
Qed.

Lemma round_nearest_even_located (r : Q) (m : Z) (l : location) :
  located r m l -> round_nearest_even m l = Qnearest r.
Proof.
  intros H. pose proof (Qfloor_unique r m (located_range r m l H)) as F.
  unfold Qnearest. rewrite F.
  destruct l as [|[]]; cbn [located round_nearest_even] in *.
  - assert (C : (r - inject_Z m ?= 1 # 2)%Q = Lt)
      by (apply (proj1 (Qlt_alt _ _)); lra). now rewrite C.
  - assert (C : (r - inject_Z m ?= 1 # 2)%Q = Eq)
      by (apply (proj1 (Qeq_alt _ _)); lra). now rewrite C.
  - assert (C : (r - inject_Z m ?= 1 # 2)%Q = Lt)
      by (apply (proj1 (Qlt_alt _ _)); lra). now rewrite C.
  - assert (C : (r - inject_Z m ?= 1 # 2)%Q = Gt)
      by (apply (proj1 (Qgt_alt _ _)); lra). now rewrite C.
Qed.

(** A record as the position of a real. *)
Definition at_record (r : Q) (mrs : shr_record) : Prop :=
  (0 <= shr_m mrs)%Z /\ located r (shr_m mrs) (loc_of_shr_record mrs).

Lemma located_halved (r : Q) (h : Z) (b : bool) (l : location) :
  located r (2 * h + (if b then 1 else 0)) l ->
  located (r / 2) h
    (loc_of_shr_record
       {| shr_m := h; shr_r := b;
          shr_s := match l with loc_Exact => false | _ => true end |}).
Proof.
  assert (D : (r / 2 == r * (1 # 2))%Q) by (field).
  destruct b, l as [|[]]; cbn [located loc_of_shr_record];
    rewrite ?D, ?inject_Z_plus, ?inject_Z_mult;
    change (inject_Z 2) with 2%Q; change (inject_Z 1) with 1%Q;
    change (inject_Z 0) with 0%Q; intros H; lra.
Qed.

Lemma shr_1_at_record (r : Q) (mrs : shr_record) :
  at_record r mrs -> at_record (r / 2) (shr_1 mrs).
Proof.
  destruct mrs as [m rb sb]. unfold at_record. simpl shr_m.
  intros [Hm H].
  assert (S : match loc_of_shr_record {| shr_m := m; shr_r := rb; shr_s := sb |}
              with loc_Exact => false | _ => true end = (rb || sb)%bool)
    by (destruct rb, sb; reflexivity).
  destruct m as [|p|p]; [| |lia].
  - pose proof (located_halved r 0 false _ H) as L. rewrite S in L.
    simpl. split; [lia | exact L].
  - destruct p as [p|p|].
    + pose proof (located_halved r (Zpos p) true _ H) as L. rewrite S in L.
      simpl. split; [lia | exact L].
    + pose proof (located_halved r (Zpos p) false _ H) as L. rewrite S in L.
      simpl. split; [lia | exact L].
    + pose proof (located_halved r 0 true _ H) as L. rewrite S in L.
      simpl. split; [lia | exact L].
Qed.

Lemma at_record_comp (r r' : Q) (mrs : shr_record) :
  (r == r')%Q -> at_record r mrs -> at_record r' mrs.
Proof.
  intros E [Hm H]. split; [exact Hm | exact (located_comp _ _ _ _ E H)].
Qed.

Lemma iter_shr_1_at_record (n : positive) :
  forall (r : Q) (mrs : shr_record),
    at_record r mrs ->
    at_record (r / inject_Z (2 ^ Zpos n)) (iter_pos shr_1 n mrs).
Proof.
  induction n as [n IH|n IH|]; intros r mrs H; simpl iter_pos.
  - apply shr_1_at_record in H. apply IH in H. apply IH in H.
    refine (at_record_comp _ _ _ _ H).
    assert (P : (0 < inject_Z (2 ^ Zpos n))%Q) by (apply pow2_pos; lia).
    replace (Zpos n~1) with (Zpos n + Zpos n + 1)%Z by lia.
    rewrite !Z.pow_add_r, !inject_Z_mult by lia.
    change (inject_Z (2 ^ 1)) with 2%Q. field. lra.
  - apply IH in H. apply IH in H.
    refine (at_record_comp _ _ _ _ H).
    assert (P : (0 < inject_Z (2 ^ Zpos n))%Q) by (apply pow2_pos; lia).
    replace (Zpos n~0) with (Zpos n + Zpos n)%Z by lia.
    rewrite !Z.pow_add_r, !inject_Z_mult by lia. field. lra.
  - apply shr_1_at_record in H.
    refine (at_record_comp _ _ _ _ H). reflexivity.
Qed.

Lemma record_of_loc (m : Z) (l : location) :
  shr_m (shr_record_of_loc m l) = m
  /\ loc_of_shr_record (shr_record_of_loc m l) = l.
Proof. destruct l as [|[]]; split; reflexivity. Qed.

(** The first shift of [binary_round_aux]. *)
Lemma shr_fexp_at_record (r : Q) (m e : Z) (l : location) :
  (0 <= m)%Z -> located r m l ->
  (e <= fexp prec emax (Zdigits2 m + e))%Z ->
  let c := fexp prec emax (Zdigits2 m + e) in
  exists mrs, shr_fexp prec emax m e l = (mrs, c)
              /\ at_record (r / inject_Z (2 ^ (c - e))) mrs.
Proof.
  intros Hm H He c. unfold shr_fexp, shr. fold c.
  destruct (record_of_loc m l) as [R1 R2].
  assert (A : at_record r (shr_record_of_loc m l)).
  { split; [now rewrite R1 | now rewrite R1, R2]. }
  destruct (c - e)%Z as [|n|n] eqn:E; [| |lia].
  - exists (shr_record_of_loc m l). split; [f_equal; lia|].
    refine (at_record_comp _ _ _ _ A). change (inject_Z (2 ^ 0)) with 1%Q.
    field.
  - exists (iter_pos shr_1 n (shr_record_of_loc m l)).
    split; [f_equal; lia|]. now apply iter_shr_1_at_record.
Qed.

Lemma scaled_floor_zero (y : Q) :
  (0 <= y < 1)%Q -> grid_exp y = 0%Z.
Proof.
  intros H. unfold grid_exp. rewrite (Qfloor_unique y 0); [reflexivity|].
  change (inject_Z 0) with 0%Q. lra.
Qed.

(** The exponent [binary_round_aux] shifts to is the spacing at the scaled
    value. *)
Lemma grid_exp_of_located (r : Q) (m e : Z) (l : location) :
  (0 <= m)%Z -> located r m l ->
  (e <= fexp prec emax (Zdigits2 m + e))%Z ->
  grid_exp (r * pow2 (e + 1074))
  = (fexp prec emax (Zdigits2 m + e) + 1074)%Z.
Proof.
  intros Hm H He. apply located_range in H. rewrite fexp_eq in *.
  pose proof (pow2_gt0 (e + 1074)) as P.
  set (w := pow2 (e + 1074)) in *.
  assert (Y0 : (0 <= r * w)%Q).
  { apply Qmult_le_0_compat; [|lra].
    apply Qle_trans with (inject_Z m); [|lra].
    change 0%Q with (inject_Z 0). now rewrite <- Zle_Qle. }
  destruct m as [|p|p]; [| |lia].
  - simpl Zdigits2 in *. change (inject_Z 0) with 0%Q in H.
    assert (W1 : (w <= 1)%Q).
    { change 1%Q with (pow2 0). apply pow2_le. lia. }
    rewrite scaled_floor_zero; [lia|]. split; [exact Y0|].
    apply Qlt_le_trans with (1 * w)%Q; [|lra].
    apply Qmult_lt_compat_r; lra.
  - simpl Zdigits2 in *. pose proof (digits2_pos_bounds p) as [D1 D2].
    set (d := Zpos (digits2_pos p)) in *.
    assert (Dp : (0 < d)%Z) by (subst d; lia).
    assert (L : (pow2 (d - 1 + (e + 1074)) <= r * w)%Q).
    { rewrite pow2_add. fold w. apply Qmult_le_compat_r; [|lra].
      rewrite pow2_Z by lia. apply Qle_trans with (inject_Z (Zpos p)); [|lra].
      now rewrite <- Zle_Qle. }
    assert (U : (r * w < pow2 (d + (e + 1074)))%Q).
    { rewrite pow2_add. fold w. apply Qmult_lt_compat_r; [lra|].
      rewrite pow2_Z by lia.
      apply Qlt_le_trans with (inject_Z (Zpos p) + 1)%Q; [lra|].
      change 1%Q with (inject_Z 1). rewrite <- inject_Z_plus, <- Zle_Qle.
      lia. }
    destruct (Z.le_gt_cases (d + (e + 1074)) 0) as [T|T].
    + rewrite scaled_floor_zero; [lia|]. split; [exact Y0|].
      apply Qlt_le_trans with (1 := U). change 1%Q with (pow2 0).
      now apply pow2_le.
    + rewrite pow2_Z in L, U by lia. unfold grid_exp.
      assert (F1 : (2 ^ (d - 1 + (e + 1074)) <= Qfloor (r * w))%Z).
      { apply Qfloor_resp_le in L. now rewrite Qfloor_Z in L. }
      assert (F2 : (Qfloor (r * w) < 2 ^ (d + (e + 1074)))%Z).
      { rewrite Zlt_Qlt. apply Qle_lt_trans with (2 := U). apply Qfloor_le. }
      rewrite (Z.log2_unique (Qfloor (r * w)) (d - 1 + (e + 1074))); [lia|lia|].
      split; [exact F1|].
      now replace (Z.succ (d - 1 + (e + 1074))) with (d + (e + 1074))%Z by lia.
Qed.

(** The second shift of [binary_round_aux]: one place when the rounded
    mantissa has reached [2^53], none otherwise. *)
Lemma renormalize (q c : Z) :
  (0 <= q <= 2 ^ 53)%Z -> (-1074 <= c)%Z ->
  exists mrs,
    shr_fexp prec emax q c loc_Exact
    = (mrs, if Z.eqb q (2 ^ 53) then (c + 1)%Z else c)
    /\ shr_m mrs = (if Z.eqb q (2 ^ 53) then 2 ^ 52 else q)%Z.
Proof.
  intros Hq Hc. unfold shr_fexp, shr. rewrite fexp_eq.
  destruct (Z.eqb_spec q (2 ^ 53)) as [->|Hne].
  - change (Zdigits2 (2 ^ 53)) with 54%Z.
    replace (Z.max (54 + c - 53) (-1074) - c)%Z with 1%Z by lia.
    eexists. split; [reflexivity | reflexivity].
  - assert (D : (Zdigits2 q <= 53)%Z).
    { destruct q as [|p|p]; simpl; try lia.
      pose proof (digits2_pos_bounds p) as [D1 _].
      destruct (Z.le_gt_cases (Zpos (digits2_pos p)) 53) as [|G];
        [assumption|].
      assert (2 ^ 53 <= 2 ^ (Zpos (digits2_pos p) - 1))%Z
        by (apply Z.pow_le_mono_r; lia). lia. }
    destruct (Z.max (Zdigits2 q + c - 53) (-1074) - c)%Z eqn:E; try lia;
      (eexists; split; [reflexivity | reflexivity]).
Qed.

(** What a float operation returns when the exact result, in units of
    [2^-1074], rounds to the integer [n]. *)
Inductive rounds_to (s : bool) (n : Z) : float -> Prop :=
| rounds_to_zero : n = 0%Z -> rounds_to s n (S754_zero s)
| rounds_to_finite (m : positive) (e : Z) :
    bounded prec emax m e = true ->
    (Zpos m * 2 ^ (e + 1074))%Z = n ->
    rounds_to s n (S754_finite s m e)
| rounds_to_infinity :
    (2 ^ 2098 <= n)%Z -> rounds_to s n (S754_infinity s).

Lemma bounded_iff (m : positive) (e : Z) :
  bounded prec emax m e = true
  <-> (e = Z.max (Zpos (digits2_pos m) + e - 53) (-1074) /\ e <= 971)%Z.
Proof.
  unfold bounded, canonical_mantissa. rewrite fexp_eq, andb_true_iff.
  rewrite Z.eqb_eq, Z.leb_le. change (emax - prec)%Z with 971%Z.
  split; intros [A B]; split; lia.
Qed.

Theorem binary_round_aux_spec (s : bool) (m e : Z) (l : location) (r : Q) :
  (0 <= m)%Z -> located r m l ->
  (e <= fexp prec emax (Zdigits2 m + e))%Z ->
  rounds_to s (nearest_on_grid (r * pow2 (e + 1074)))
            (binary_round_aux prec emax s m e l).
Proof.
  intros Hm H He.
  pose proof (grid_exp_of_located r m e l Hm H He) as G.
  destruct (shr_fexp_at_record r m e l Hm H He) as (mrs1 & E1 & [_ A1]).
  set (c := fexp prec emax (Zdigits2 m + e)) in *.
  assert (Hc : (-1074 <= c)%Z) by (subst c; rewrite fexp_eq; lia).
  set (y := (r * pow2 (e + 1074))%Q) in *.
  assert (Y0 : (0 <= y)%Q).
  { subst y. apply Qmult_le_0_compat; [|apply Qlt_le_weak, pow2_gt0].
    apply Qle_trans with (inject_Z m); [|apply (located_range _ _ _ H)].
    change 0%Q with (inject_Z 0). now rewrite <- Zle_Qle. }
  assert (R : (r / inject_Z (2 ^ (c - e))
               == y / inject_Z (2 ^ grid_exp y))%Q).
  { rewrite G. rewrite <- !pow2_Z by lia. subst y.
    pose proof (pow2_gt0 (c - e)). pose proof (pow2_gt0 (c + 1074)).
    pose proof (pow2_gt0 (e + 1074)).
    assert (S : (pow2 (e + 1074) * pow2 (c - e) == pow2 (c + 1074))%Q).
    { rewrite <- pow2_add. now replace (e + 1074 + (c - e))%Z
                              with (c + 1074)%Z by lia. }
    rewrite <- S. field. repeat split; lra. }
  pose proof (round_nearest_even_located _ _ _ A1) as Q1.
  rewrite (Qnearest_comp _ _ R) in Q1.
  destruct (mantissa_range y Y0) as [Qr Qn]. cbv zeta in Qr, Qn.
  unfold nearest_on_grid. rewrite <- Q1 in *.
  set (q := round_nearest_even (shr_m mrs1) (loc_of_shr_record mrs1)) in *.
  destruct (renormalize q c Qr Hc) as (mrs2 & E2 & M2).
  unfold binary_round_aux. rewrite E1. fold q. rewrite E2, M2, G.
  destruct (Z.eqb_spec q (2 ^ 53)) as [Eq|Hne].
  - rewrite Eq. change (2 ^ 52)%Z with (Zpos (2 ^ 52)).
    change (emax - prec)%Z with 971%Z.
    assert (V : (Zpos (2 ^ 52) * 2 ^ (c + 1 + 1074)
                 = 2 ^ 53 * 2 ^ (c + 1074))%Z).
    { replace (c + 1 + 1074)%Z with (1 + (c + 1074))%Z by lia.
      rewrite (Z.pow_add_r 2 1) by lia. lia. }
    destruct (Z.leb_spec (c + 1) 971).
    + apply rounds_to_finite; [|exact V].
      apply bounded_iff. change (Zpos (digits2_pos (2 ^ 52))) with 53%Z. lia.
    + apply rounds_to_infinity.
      assert (2 ^ 2098 <= 2 ^ 53 * 2 ^ (c + 1074))%Z.
      { rewrite <- Z.pow_add_r by lia. apply Z.pow_le_mono_r; lia. }
      exact H1.
  - destruct q as [|p|p] eqn:Eq; [| |lia].
    + apply rounds_to_zero. lia.
    + change (emax - prec)%Z with 971%Z.
      pose proof (digits2_pos_bounds p) as [D1 D2].
      assert (D : (Zpos (digits2_pos p) <= 53)%Z).
      { destruct (Z.le_gt_cases (Zpos (digits2_pos p)) 53) as [|Gt];
          [assumption|].
        assert (2 ^ 53 <= 2 ^ (Zpos (digits2_pos p) - 1))%Z
          by (apply Z.pow_le_mono_r; lia). lia. }
      assert (N : (0 < grid_exp y -> Zpos (digits2_pos p) = 53)%Z).
      { intros Gp. specialize (Qn Gp).
        apply digits2_pos_unique; [|lia]. split; [exact Qn | lia]. }
      destruct (Z.leb_spec c 971).
      * apply rounds_to_finite; [|reflexivity].
        apply bounded_iff. split; [|assumption].
        destruct (Z.eq_dec (grid_exp y) 0) as [Z0|NZ]; [lia|].
        rewrite N by lia. lia.
      * apply rounds_to_infinity. rewrite N in D1 by lia.
        apply Z.le_trans with (2 ^ 52 * 2 ^ (c + 1074))%Z.
        -- rewrite <- Z.pow_add_r by lia. apply Z.pow_le_mono_r; lia.
        -- apply Z.mul_le_mono_nonneg_r; [|exact D1].
           apply Z.pow_nonneg. lia.
Qed.

(** ** binary64 operations on non-negative numbers *)

(** A zero of either sign or a positive finite number. *)
Definition nonneg_float (x : float) : Prop :=
  match x with
  | S754_zero _ => True
  | S754_finite false m e => bounded prec emax m e = true
  | _ => False
  end.

(** [f] represents the rational [q]. *)
Definition represents (f : float) (q : Q) : Prop :=
  nonneg_float f /\ (to_Q f == q)%Q.

(** [f] is the float result of an operation whose exact result is [q]. *)
Definition rounded (q : Q) (f : float) : Prop :=
  (f = S754_infinity false /\ (pow2 1024 <= RN q)%Q)
  \/ represents f (RN q).

Lemma RN_comp (x y : Q) : (x == y)%Q -> (RN x == RN y)%Q.
Proof.
  intros E. unfold RN.
  rewrite (nearest_on_grid_comp (x * units) (y * units)); [reflexivity|].
  now rewrite E.
Qed.

Lemma rounded_comp (q q' : Q) (f : float) :
  (q == q')%Q -> rounded q f -> rounded q' f.
Proof.
  intros E [[I O]|[N V]].
  - left. split; [exact I|]. now rewrite <- (RN_comp _ _ E).
  - right. split; [exact N|]. now rewrite <- (RN_comp _ _ E).
Qed.

Lemma units_pow2 : (units == pow2 1074)%Q.
Proof. unfold units. now rewrite pow2_Z by lia. Qed.

Lemma to_Q_finite (s : bool) (m : positive) (e : Z) :
  (to_Q (S754_finite s m e)
   == (if s then -1 else 1) * (inject_Z (Zpos m) * pow2 e))%Q.
Proof.
  assert (V : ((match e with
                | Zneg k => (Zpos m # 2 ^ k)%Q
                | _ => inject_Z (Zpos m * 2 ^ e)
                end) == inject_Z (Zpos m) * pow2 e)%Q).
  { destruct e as [|k|k].
    - rewrite Z.mul_1_r. change (pow2 0) with 1%Q. ring.
    - rewrite inject_Z_mult, pow2_Z by lia. reflexivity.
    - pose proof (pow2_gt0 (Zpos k)) as P.
      assert (E : (pow2 (Zneg k) * pow2 (Zpos k) == 1)%Q).
      { rewrite <- pow2_add. now replace (Zneg k + Zpos k)%Z with 0%Z by lia. }
      rewrite (Qmake_Qdiv (Zpos m) (2 ^ k)), Pos2Z.inj_pow.
      rewrite <- pow2_Z by lia.
      setoid_replace (pow2 (Zneg k)) with (1 / pow2 (Zpos k))%Q
        by (rewrite <- E; field; lra).
      field. lra. }
  unfold to_Q. destruct s; rewrite V; ring.
Qed.

Lemma bounded_range (m : positive) (e : Z) :
  bounded prec emax m e = true ->
  (-1074 <= e <= 971)%Z /\ (Zpos m < 2 ^ 53)%Z
  /\ ((-1074 < e)%Z -> (2 ^ 52 <= Zpos m)%Z).
Proof.
  intros B. apply bounded_iff in B. destruct B as [C E].
  pose proof (digits2_pos_bounds m) as [D1 D2].
  assert (D : (Zpos (digits2_pos m) <= 53)%Z) by lia.
  split; [lia|]. split.
  - apply Z.lt_le_trans with (1 := D2). apply Z.pow_le_mono_r; lia.
  - intros He. replace (Zpos (digits2_pos m)) with 53%Z in D1 by lia.
    exact D1.
Qed.

(** The value in units of [2^-1074]. *)
Definition in_units (x : float) : Z :=
  match x with
  | S754_finite _ m e => (Zpos m * 2 ^ (e + 1074))%Z
  | _ => 0%Z
  end.

Lemma to_Q_in_units (x : float) :
  nonneg_float x -> (to_Q x * units == inject_Z (in_units x))%Q.
Proof.
  destruct x as [s| | |[] m e]; simpl nonneg_float; try contradiction.
  - intros _. simpl. ring.
  - intros B. destruct (bounded_range m e B) as (He & _ & _).
    rewrite to_Q_finite, units_pow2. cbn [in_units].
    rewrite inject_Z_mult, <- pow2_Z, pow2_add by lia. ring.
Qed.

Lemma float_in_format (x : float) :
  nonneg_float x -> (RN (to_Q x) == to_Q x)%Q.
Proof.
  intros N. pose proof units_pos as U.
  pose proof (to_Q_in_units x N) as E. rewrite (RN_scaled _ _ E).
  assert (F : nearest_on_grid (inject_Z (in_units x)) = in_units x).
  { destruct x as [s| | |[] m e]; simpl in N; try contradiction.
    - apply nearest_on_grid_nonpos. simpl. lia.
    - destruct (bounded_range m e N) as (He & Hm & _).
      apply nearest_on_grid_float; lia. }
  rewrite F, <- E. field. lra.
Qed.

Lemma to_Q_nonneg (x : float) : nonneg_float x -> (0 <= to_Q x)%Q.
Proof.
  destruct x as [s| | |[] m e]; simpl nonneg_float; try contradiction;
    intros _.
  - apply Qle_refl.
  - rewrite to_Q_finite. pose proof (pow2_gt0 e).
    assert (0 < inject_Z (Zpos m))%Q
      by (change 0%Q with (inject_Z 0); rewrite <- Zlt_Qlt; lia).
    assert (0 <= inject_Z (Zpos m) * pow2 e)%Q
      by (apply Qmult_le_0_compat; lra).
    lra.
Qed.

Lemma rounds_to_rounded (q : Q) (f : float) :
  rounds_to false (nearest_on_grid (q * units)) f -> rounded q f.
Proof.
  pose proof units_pos as U. intros H.
  inversion H as [Z0|m e B V|O]; subst.
  - right. split; [exact I|]. unfold RN. rewrite Z0. simpl. field. lra.
  - right. split; [exact B|].
    pose proof (to_Q_in_units (S754_finite false m e) B) as E.
    cbn [in_units] in E. rewrite V in E. unfold RN. rewrite <- E. field. lra.
  - left. split; [reflexivity|]. unfold RN.
    apply Qle_shift_div_l; [exact U|].
    assert (E : (pow2 1024 * units == inject_Z (2 ^ 2098))%Q).
    { rewrite units_pow2, <- pow2_add. now rewrite pow2_Z by lia. }
    rewrite E. now rewrite <- Zle_Qle.
Qed.

Lemma rounded_zero (q : Q) (s : bool) :
  (q == 0)%Q -> rounded q (S754_zero s).
Proof.
  intros E. right. split; [exact I|].
  rewrite (RN_comp _ _ E), (RN_int 0) by lia. reflexivity.
Qed.

(** ** Rounding an integer mantissa: [binary_round] *)

Lemma shl_align_spec (m : positive) (e e' : Z) :
  let '(m', e'') := shl_align m e e' in
  e'' = Z.min e e'
  /\ (Zpos m' = Zpos m * 2 ^ (e - e''))%Z
  /\ (Zpos (digits2_pos m') + e'' = Zpos (digits2_pos m) + e)%Z.
Proof.
  unfold shl_align. destruct (e' - e)%Z as [|d|d] eqn:E.
  - rewrite Z.sub_diag. simpl. lia.
  - rewrite Z.sub_diag. simpl. lia.
  - rewrite iter_xO_pow, digits2_pos_shift.
    replace (e - e')%Z with (Zpos d) by lia. lia.
Qed.

Lemma binary_round_spec (m : positive) (e : Z) :
  rounded (inject_Z (Zpos m) * pow2 e) (binary_round prec emax false m e).
Proof.
  unfold binary_round.
  pose proof (shl_align_spec m e (fexp prec emax (Zpos (digits2_pos m) + e)))
    as S.
  destruct (shl_align m e _) as [mz ez]. destruct S as (E1 & E2 & E3).
  apply rounds_to_rounded.
  assert (V : (inject_Z (Zpos mz) * pow2 (ez + 1074)
               == inject_Z (Zpos m) * pow2 e * units)%Q).
  { rewrite E2, inject_Z_mult, <- pow2_Z, units_pow2, pow2_add by lia.
    setoid_replace (pow2 e) with (pow2 (e - ez) * pow2 ez)%Q
      by (rewrite <- pow2_add; now replace (e - ez + ez)%Z with e by lia).
    ring. }
  rewrite <- (nearest_on_grid_comp _ _ V).
  apply binary_round_aux_spec.
  - lia.
  - cbn [located]. reflexivity.
  - simpl Zdigits2. rewrite E3. lia.
Qed.

(** ** Addition *)

Lemma add_spec (x y : float) :
  nonneg_float x -> nonneg_float y ->
  rounded (to_Q x + to_Q y) (Binary64.add x y).
Proof.
  intros Nx Ny.
  destruct x as [sx| | |[] mx ex]; simpl in Nx; try contradiction;
    destruct y as [sy| | |[] my ey]; simpl in Ny; try contradiction.
  - right. split.
    + unfold Binary64.add. simpl. destruct sx, sy; exact I.
    + rewrite (RN_comp _ 0) by (simpl; ring).
      rewrite (RN_int 0) by lia.
      unfold Binary64.add. simpl. destruct sx, sy; reflexivity.
  - right. unfold Binary64.add. cbn [SFadd]. split; [exact Ny|].
    rewrite (RN_comp _ (to_Q (S754_finite false my ey))) by (simpl; ring).
    symmetry. now apply float_in_format.
  - right. unfold Binary64.add. cbn [SFadd]. split; [exact Nx|].
    rewrite (RN_comp _ (to_Q (S754_finite false mx ex))) by (simpl; ring).
    symmetry. now apply float_in_format.
  - unfold Binary64.add. cbn [SFadd cond_Zopp].
    pose proof (shl_align_spec mx ex (Z.min ex ey)) as Sx.
    pose proof (shl_align_spec my ey (Z.min ex ey)) as Sy.
    destruct (shl_align mx ex _) as [ax ez1].
    destruct (shl_align my ey _) as [ay ez2].
    destruct Sx as (X1 & X2 & _). destruct Sy as (Y1 & Y2 & _).
    cbn [fst]. change (Zpos ax + Zpos ay)%Z with (Zpos (ax + ay)).
    cbn [binary_normalize].
    refine (rounded_comp _ _ _ _ (binary_round_spec (ax + ay) (Z.min ex ey))).
    rewrite !to_Q_finite, Pos2Z.inj_add, inject_Z_plus, X2, Y2.
    rewrite !inject_Z_mult, <- !pow2_Z by lia.
    setoid_replace (pow2 ex) with (pow2 (ex - ez1) * pow2 ez1)%Q
      by (rewrite <- pow2_add; now replace (ex - ez1 + ez1)%Z with ex by lia).
    setoid_replace (pow2 ey) with (pow2 (ey - ez2) * pow2 ez2)%Q
      by (rewrite <- pow2_add; now replace (ey - ez2 + ez2)%Z with ey by lia).
    replace ez1 with (Z.min ex ey) by lia.
    replace ez2 with (Z.min ex ey) by lia. ring.
Qed.

(** ** Multiplication *)

Lemma digits_of_product (mx my : positive) :
  (Zpos (digits2_pos mx) + Zpos (digits2_pos my) - 1
   <= Zpos (digits2_pos (mx * my)))%Z.
Proof.
  pose proof (digits2_pos_bounds mx) as [X1 _].
  pose proof (digits2_pos_bounds my) as [Y1 _].
  pose proof (digits2_pos_bounds (mx * my)) as [_ P2].
  set (dx := Zpos (digits2_pos mx)) in *.
  set (dy := Zpos (digits2_pos my)) in *.
  set (dp := Zpos (digits2_pos (mx * my))) in *.
  assert (Hx : (0 < dx)%Z) by (subst dx; lia).
  assert (Hy : (0 < dy)%Z) by (subst dy; lia).
  assert (L : (2 ^ (dx - 1 + (dy - 1)) <= Zpos (mx * my))%Z).
  { rewrite Z.pow_add_r, Pos2Z.inj_mul by lia.
    apply Z.mul_le_mono_nonneg; try assumption; apply Z.pow_nonneg; lia. }
  assert (T : (2 ^ (dx - 1 + (dy - 1)) < 2 ^ dp)%Z) by lia.
  apply Z.pow_lt_mono_r_iff in T; lia.
Qed.

Lemma mul_spec (x y : float) :
  nonneg_float x -> nonneg_float y ->
  rounded (to_Q x * to_Q y) (Binary64.mul x y).
Proof.
  intros Nx Ny.
  destruct x as [sx| | |[] mx ex]; simpl in Nx; try contradiction;
    destruct y as [sy| | |[] my ey]; simpl in Ny; try contradiction;
    unfold Binary64.mul; cbn [SFmul];
    try (apply rounded_zero; simpl; ring).
  cbn [xorb]. apply rounds_to_rounded.
  assert (V : (inject_Z (Zpos (mx * my)) * pow2 (ex + ey + 1074)
               == to_Q (S754_finite false mx ex)
                  * to_Q (S754_finite false my ey) * units)%Q).
  { rewrite !to_Q_finite, units_pow2, Pos2Z.inj_mul, inject_Z_mult.
    rewrite !pow2_add. ring. }
  rewrite <- (nearest_on_grid_comp _ _ V).
  apply binary_round_aux_spec.
  - lia.
  - cbn [located]. reflexivity.
  - simpl Zdigits2. rewrite fexp_eq.
    pose proof (digits_of_product mx my) as D.
    apply bounded_iff in Nx, Ny.
    pose proof (digits2_pos_bounds mx). pose proof (digits2_pos_bounds my).
    lia.
Qed.

(** ** Division *)

Lemma new_location_spec (den rest quot : Z) :
  (0 <= rest < den)%Z ->
  located (inject_Z quot + inject_Z rest / inject_Z den) quot
          (new_location den rest).
Proof.
  intros H.
  assert (P : (0 < inject_Z den)%Q)
    by (change 0%Q with (inject_Z 0); rewrite <- Zlt_Qlt; lia).
  assert (F : forall c : comparison,
             (2 * rest ?= den)%Z = c -> (0 < rest)%Z ->
             located (inject_Z quot + inject_Z rest / inject_Z den) quot
                     (loc_Inexact c)).
  { intros c C R.
    assert (R0 : (0 < inject_Z rest / inject_Z den)%Q).
    { apply Qlt_shift_div_l; [exact P|]. rewrite Qmult_0_l.
      change 0%Q with (inject_Z 0). rewrite <- Zlt_Qlt. lia. }
    assert (R1 : (inject_Z rest / inject_Z den < 1)%Q).
    { apply Qlt_shift_div_r; [exact P|]. rewrite Qmult_1_l.
      rewrite <- Zlt_Qlt. lia. }
    destruct c; cbn [located].
    - apply Z.compare_eq in C.
      assert (E : (inject_Z rest / inject_Z den == 1 # 2)%Q).
      { rewrite <- C, inject_Z_mult. change (inject_Z 2) with 2%Q.
        field. rewrite <- C in P. rewrite inject_Z_mult in P.
        change (inject_Z 2) with 2%Q in P. lra. }
      rewrite E. reflexivity.
    - rewrite Z.compare_lt_iff in C.
      assert (E : (inject_Z rest / inject_Z den < 1 # 2)%Q).
      { apply Qlt_shift_div_r; [exact P|].
        rewrite Zlt_Qlt, inject_Z_mult in C.
        change (inject_Z 2) with 2%Q in C. lra. }
      lra.
    - rewrite Z.compare_gt_iff in C.
      assert (E : (1 # 2 < inject_Z rest / inject_Z den)%Q).
      { apply Qlt_shift_div_l; [exact P|].
        rewrite Zlt_Qlt, inject_Z_mult in C.
        change (inject_Z 2) with 2%Q in C. lra. }
      lra. }
  assert (E0 : (inject_Z quot + inject_Z 0 / inject_Z den
                == inject_Z quot)%Q) by (field; lra).
  unfold new_location. destruct (Z.even den) eqn:Ev.
  - unfold new_location_even.
    destruct (Z.eqb_spec rest 0) as [->|Hne]; [exact E0|].
    apply F; [reflexivity | lia].
  - unfold new_location_odd.
    destruct (Z.eqb_spec rest 0) as [->|Hne]; [exact E0|].
    assert (O : Z.odd den = true) by (rewrite <- Z.negb_even, Ev; reflexivity).
    apply Z.odd_spec in O. destruct O as [h O].
    destruct (2 * rest + 1 ?= den)%Z eqn:C;
      [apply Z.compare_eq in C | rewrite Z.compare_lt_iff in C
       | rewrite Z.compare_gt_iff in C];
      apply F; try lia.
    + apply Z.compare_lt_iff. lia.
    + apply Z.compare_lt_iff. lia.
    + apply Z.compare_gt_iff. lia.
Qed.

Lemma div_spec (x : float) (my : positive) (ey : Z) :
  nonneg_float x -> bounded prec emax my ey = true ->
  rounded (to_Q x / to_Q (S754_finite false my ey))
          (Binary64.div x (S754_finite false my ey)).
Proof.
  intros Nx Ny.
  assert (Pm : (0 < inject_Z (Zpos my))%Q)
    by (change 0%Q with (inject_Z 0); rewrite <- Zlt_Qlt; lia).
  pose proof (pow2_gt0 ey) as Pe.
  destruct x as [sx| | |[] mx ex]; simpl in Nx; try contradiction;
    unfold Binary64.div; cbn [SFdiv].
  - apply rounded_zero. rewrite to_Q_finite. cbn [to_Q]. field. split; lra.
  - cbn [xorb]. unfold SFdiv_core_binary. simpl Zdigits2.
    set (d1 := Zpos (digits2_pos mx)). set (d2 := Zpos (digits2_pos my)).
    set (e' := Z.min (fexp prec emax (d1 + ex - (d2 + ey))) (ex - ey)).
    set (s := (ex - ey - e')%Z).
    assert (Hs : (0 <= s)%Z) by (subst s e'; lia).
    set (m' := match s with
               | Zpos _ => Z.shiftl (Zpos mx) s
               | Z0 => Zpos mx
               | Zneg _ => 0%Z
               end).
    assert (Hm' : m' = (Zpos mx * 2 ^ s)%Z).
    { subst m'. destruct s as [|p|p]; [simpl; lia | | lia].
      now rewrite Z.shiftl_mul_pow2 by lia. }
    pose proof (Z_div_mod m' (Zpos my) ltac:(lia)) as DM.
    destruct (Z.div_eucl m' (Zpos my)) as [q r]. destruct DM as [DM R].
    assert (Hq : (0 <= q)%Z) by nia.
    apply rounds_to_rounded.
    assert (V : ((inject_Z q + inject_Z r / inject_Z (Zpos my))
                 * pow2 (e' + 1074)
                 == to_Q (S754_finite false mx ex)
                    / to_Q (S754_finite false my ey) * units)%Q).
    { rewrite !to_Q_finite, units_pow2, pow2_add.
      assert (M : (inject_Z q + inject_Z r / inject_Z (Zpos my)
                   == inject_Z (Zpos mx) * pow2 s / inject_Z (Zpos my))%Q).
      { assert (E : (inject_Z (Zpos mx) * pow2 s
                     == inject_Z (Zpos my * q + r))%Q).
        { rewrite pow2_Z by lia. rewrite <- inject_Z_mult, <- Hm', DM.
          reflexivity. }
        rewrite E, inject_Z_plus, inject_Z_mult. field. lra. }
      rewrite M.
      assert (S : (pow2 ex == pow2 s * pow2 ey * pow2 e')%Q).
      { rewrite <- !pow2_add. now replace (s + ey + e')%Z with ex
          by (subst s; lia). }
      rewrite S. pose proof (pow2_gt0 e').
      field. split; lra. }
    rewrite <- (nearest_on_grid_comp _ _ V).
    apply binary_round_aux_spec.
    + exact Hq.
    + apply new_location_spec. lia.
    + rewrite fexp_eq.
      assert (He' : e' = Z.min (Z.max (d1 + ex - (d2 + ey) - 53) (-1074))
                               (ex - ey)) by reflexivity.
      assert (Es : s = (ex - ey - e')%Z) by reflexivity.
      clearbody s e'.
      set (D := (d1 + ex - (d2 + ey))%Z) in *.
      destruct (Z.le_gt_cases (D - 53) (-1074)) as [Sub|Nor]; [lia|].
      pose proof (digits2_pos_bounds mx) as [X1 X2].
      pose proof (digits2_pos_bounds my) as [Y1 Y2].
      fold d1 in X1, X2. fold d2 in Y1, Y2.
      assert (Hd1 : (0 < d1)%Z) by (subst d1; lia).
      assert (Hd2 : (0 < d2)%Z) by (subst d2; lia).
      set (t := (d1 + s - d2 - 1)%Z).
      assert (Et : t = (d1 + s - d2 - 1)%Z) by reflexivity.
      clearbody t.
      assert (Ht : (52 <= t)%Z) by (subst D; lia).
      assert (Q1 : (2 ^ t <= q)%Z).
      { assert (A : (2 ^ (d1 - 1 + s) <= m')%Z).
        { rewrite Hm', Z.pow_add_r by lia.
          apply Z.mul_le_mono_nonneg_r; [apply Z.pow_nonneg; lia | exact X1]. }
        assert (B : (2 ^ (d1 - 1 + s) = 2 ^ t * 2 ^ d2)%Z).
        { rewrite <- Z.pow_add_r by lia. f_equal. lia. }
        assert (P2 : (0 < 2 ^ t)%Z) by (apply Z.pow_pos_nonneg; lia).
        nia. }
      assert (Dq : (t + 1 <= Zdigits2 q)%Z).
      { assert (0 < 2 ^ t)%Z by (apply Z.pow_pos_nonneg; lia).
        destruct q as [|p|p]; [lia | simpl | lia].
        pose proof (digits2_pos_bounds p) as [_ P2].
        assert (T : (2 ^ t < 2 ^ Zpos (digits2_pos p))%Z) by lia.
        apply Z.pow_lt_mono_r_iff in T; lia. }
      subst D. lia.
Qed.

(** ** [rint] and the comparisons *)

Lemma rne_shift_Qnearest (m : Z) (k : positive) :
  rne_shift m k = Qnearest (m # 2 ^ k).
Proof.
  unfold rne_shift, Qnearest.
  assert (F : Qfloor (m # 2 ^ k) = Z.shiftr m (Zpos k)).
  { unfold Qfloor. rewrite Z.shiftr_div_pow2 by lia.
    now rewrite Pos2Z.inj_pow. }
  rewrite F. set (q := Z.shiftr m (Zpos k)).
  assert (C : ((m # 2 ^ k) - inject_Z q ?= 1 # 2)%Q
              = (2 * (m - Z.shiftl q (Zpos k)) ?= Z.shiftl 1 (Zpos k))%Z).
  { unfold Qcompare, Qminus, Qplus, Qopp, inject_Z. cbn [Qnum Qden].
    rewrite !Z.shiftl_mul_pow2, Pos2Z.inj_mul, Pos2Z.inj_pow by lia.
    f_equal; ring. }
  now rewrite C.
Qed.

Lemma represents_comp (f : float) (q q' : Q) :
  (q == q')%Q -> represents f q -> represents f q'.
Proof. intros E [N V]. split; [exact N | now rewrite V]. Qed.

Lemma rounded_finite (q : Q) (f : float) :
  rounded q f -> (RN q < pow2 1024)%Q -> represents f (RN q).
Proof. intros [[_ O]|R] H; [lra | exact R]. Qed.

Lemma pow2_1024_big : (inject_Z (2 ^ 53) < pow2 1024)%Q.
Proof. rewrite pow2_Z by lia. rewrite <- Zlt_Qlt. now vm_compute. Qed.

Lemma of_nat_mantissa (n : Z) :
  (0 <= n < 2 ^ 53)%Z ->
  represents (binary_normalize prec emax n 0 false) (inject_Z n).
Proof.
  intros H. destruct n as [|p|p]; [| |lia].
  - split; [exact I | reflexivity].
  - cbn [binary_normalize].
    pose proof (binary_round_spec p 0) as R.
    apply (rounded_comp _ (inject_Z (Zpos p))) in R;
      [|change (pow2 0) with 1%Q; ring].
    apply rounded_finite in R.
    + refine (represents_comp _ _ _ _ R). now apply RN_int.
    + rewrite RN_int by lia. apply Qlt_trans with (2 := pow2_1024_big).
      rewrite <- Zlt_Qlt. lia.
Qed.

Lemma rint_spec (x : float) :
  nonneg_float x -> (to_Q x <= inject_Z (2 ^ 52))%Q ->
  represents (rint x) (inject_Z (Qnearest (to_Q x))).
Proof.
  intros N H.
  destruct x as [s| | |[] m e]; simpl in N; try contradiction.
  - split; [exact I|]. simpl. reflexivity.
  - destruct e as [|k|k].
    + split; [exact N|]. cbn [rint to_Q]. now rewrite Qnearest_Z.
    + split; [exact N|]. cbn [rint to_Q]. now rewrite Qnearest_Z.
    + cbn [rint cond_Zopp nearest_int]. rewrite rne_shift_Qnearest.
      apply of_nat_mantissa. cbn [to_Q] in H.
      assert (B : (0 <= Qnearest (Zpos m # 2 ^ k) <= 2 ^ 52)%Z).
      { apply Qnearest_between. split; [|exact H].
        change (inject_Z 0) with 0%Q. unfold Qle. simpl. lia. }
      assert (2 ^ 52 < 2 ^ 53)%Z by reflexivity. cbn [to_Q]. lia.
Qed.

Lemma gtb_zero_spec (x : float) :
  nonneg_float x ->
  (a_gtb x a_zero = true <-> (0 < to_Q x)%Q).
Proof.
  intros N. destruct x as [s| | |[] m e]; simpl in N; try contradiction.
  - simpl. split; [discriminate | intros C; discriminate C].
  - split; [|reflexivity]. intros _. rewrite to_Q_finite.
    pose proof (pow2_gt0 e).
    assert (0 < inject_Z (Zpos m))%Q
      by (change 0%Q with (inject_Z 0); rewrite <- Zlt_Qlt; lia).
    assert (0 < inject_Z (Zpos m) * pow2 e)%Q
      by now apply Qmult_lt_0_compat.
    lra.
Qed.

Lemma leb_zero (x : float) :
  nonneg_float x -> Binary64.leb Binary64.zero x = true.
Proof.
  destruct x as [s| | |[] m e]; simpl; try contradiction; reflexivity.
Qed.

Lemma leb_spec (a b : float) :
  nonneg_float a -> nonneg_float b -> (to_Q a <= to_Q b)%Q ->
  Binary64.leb a b = true.
Proof.
  intros Na Nb H.
  destruct a as [sa| | |[] ma ea]; simpl in Na; try contradiction;
    destruct b as [sb| | |[] mb eb]; simpl in Nb; try contradiction;
    try reflexivity.
  - exfalso. pose proof (to_Q_nonneg (S754_finite false ma ea) Na) as P.
    rewrite to_Q_finite in *. cbn [to_Q] in H.
    pose proof (pow2_gt0 ea).
    assert (0 < inject_Z (Zpos ma))%Q
      by (change 0%Q with (inject_Z 0); rewrite <- Zlt_Qlt; lia).
    assert (0 < inject_Z (Zpos ma) * pow2 ea)%Q
      by now apply Qmult_lt_0_compat.
    lra.
  - pose proof (to_Q_in_units (S754_finite false ma ea) Na) as Ua.
    pose proof (to_Q_in_units (S754_finite false mb eb) Nb) as Ub.
    cbn [in_units] in Ua, Ub.
    assert (L : (Zpos ma * 2 ^ (ea + 1074) <= Zpos mb * 2 ^ (eb + 1074))%Z).
    { rewrite Zle_Qle, <- Ua, <- Ub.
      apply Qmult_le_compat_r; [exact H|]. apply Qlt_le_weak, units_pos. }
    destruct (bounded_range ma ea Na) as (Ea & Ma & Na').
    destruct (bounded_range mb eb Nb) as (Eb & Mb & Nb').
    unfold Binary64.leb, SFleb. cbn [SFcompare].
    destruct (Z.compare_spec ea eb) as [E|Lt|Gt]; [|reflexivity|].
    + subst eb. rewrite Pos.compare_cont_spec. cbn [Pos.switch_Eq].
      assert (P : (0 < 2 ^ (ea + 1074))%Z) by (apply Z.pow_pos_nonneg; lia).
      assert (Le : (Zpos ma <= Zpos mb)%Z) by nia.
      destruct (Pos.compare_spec ma mb); try reflexivity. lia.
    + exfalso. specialize (Na' ltac:(lia)).
      assert (P : (0 < 2 ^ (eb + 1074))%Z) by (apply Z.pow_pos_nonneg; lia).
      assert (S : (2 ^ (ea + 1074) = 2 ^ (ea - eb) * 2 ^ (eb + 1074))%Z).
      { rewrite <- Z.pow_add_r by lia. f_equal. lia. }
      assert (T : (2 <= 2 ^ (ea - eb))%Z).
      { change 2%Z with (2 ^ 1)%Z at 1. apply Z.pow_le_mono_r; lia. }
      rewrite S in L. nia.
Qed.

(** ** The Calculator in binary64 against the Calculator on rationals *)

Definition nearest_arith : Arith Q := rounded_arith RN.

Definition hundred : float := S754_finite false 7036874417766400 (-46).

Lemma hundred_eq : Binary64.of_Z 100 = hundred.
Proof. reflexivity. Qed.

Lemma hundred_bounded : bounded prec emax 7036874417766400 (-46) = true.
Proof. reflexivity. Qed.

Lemma hundred_value : (to_Q hundred == 100)%Q.
Proof. reflexivity. Qed.

Lemma RN_small (n : Z) : (0 <= n <= 10000)%Z -> (RN (inject_Z n) == inject_Z n)%Q.
Proof.
  intros H. apply RN_int. assert (10000 < 2 ^ 53)%Z by reflexivity. lia.
Qed.

(** An operation whose exact result is at most a small integer does not
    overflow, and its float result is at most that integer. *)
Lemma rounded_below (q : Q) (f : float) (b : Z) :
  rounded q f -> (0 <= q <= inject_Z b)%Q -> (0 <= b <= 10000)%Z ->
  represents f (RN q) /\ (0 <= RN q <= inject_Z b)%Q.
Proof.
  intros R [Q0 Q1] Hb.
  assert (B : (0 <= RN q <= inject_Z b)%Q).
  { split.
    - rewrite <- (RN_small 0) by lia. now apply RN_mono.
    - rewrite <- (RN_small b) by lia. now apply RN_mono. }
  split; [|exact B]. apply rounded_finite; [exact R|].
  apply Qle_lt_trans with (inject_Z b); [apply B|].
  apply Qlt_trans with (2 := pow2_1024_big). rewrite <- Zlt_Qlt.
  assert (10000 < 2 ^ 53)%Z by reflexivity. lia.
Qed.

Lemma times_hundred (f : float) (q : Q) (b : Z) :
  represents f q -> (0 <= q <= inject_Z b)%Q -> (0 <= b <= 100)%Z ->
  represents (Binary64.mul f hundred) (RN (q * 100))
  /\ (0 <= RN (q * 100) <= inject_Z (b * 100))%Q.
Proof.
  intros [N V] [Q0 Q1] Hb.
  pose proof (mul_spec f hundred N hundred_bounded) as R.
  apply (rounded_comp _ (q * 100)%Q) in R;
    [|rewrite V, hundred_value; reflexivity].
  apply rounded_below; [exact R | | lia].
  rewrite inject_Z_mult. change (inject_Z 100) with 100%Q. lra.
Qed.

Lemma over_hundred (f : float) (q : Q) (b : Z) :
  represents f q -> (0 <= q <= inject_Z (b * 100))%Q -> (0 <= b <= 100)%Z ->
  represents (Binary64.div f hundred) (RN (q / 100))
  /\ (0 <= RN (q / 100) <= inject_Z b)%Q.
Proof.
  intros [N V] [Q0 Q1] Hb.
  pose proof (div_spec f _ _ N hundred_bounded) as R. fold hundred in R.
  apply (rounded_comp _ (q / 100)%Q) in R;
    [|rewrite V, hundred_value; reflexivity].
  apply rounded_below; [exact R | | lia].
  rewrite inject_Z_mult in Q1. change (inject_Z 100) with 100%Q in Q1.
  split.
  - apply Qle_shift_div_l; lra.
  - apply Qle_shift_div_r; lra.
Qed.

Lemma ten_thousand_small : (inject_Z (100 * 100) <= inject_Z (2 ^ 52))%Q.
Proof. rewrite <- Zle_Qle. intros H. discriminate H. Qed.

(** One percent of the Allocation column. *)
Lemma percent_represented (v total : float) (qtotal : Q) :
  nonneg_float v -> represents total qtotal ->
  (0 < qtotal)%Q -> (to_Q v <= qtotal)%Q ->
  represents
    (round2 (a_mul (a_div v total) a_hundred))
    (round2 (A := nearest_arith)
       (a_mul (Arith := nearest_arith)
          (a_div (Arith := nearest_arith) (to_Q v) qtotal) 100%Q)).
Proof.
  intros Nv [Nt Vt] Pt Hv.
  pose proof (to_Q_nonneg v Nv) as V0.
  destruct total as [st| | |[] mt et]; simpl in Nt; try contradiction.
  { simpl in Vt. lra. }
  unfold round2.
  cbn [a_mul a_div a_rint a_hundred binary64_arith nearest_arith rounded_arith].
  rewrite hundred_eq.
  (* the share *)
  pose proof (div_spec v mt et Nv Nt) as R1.
  apply (rounded_comp _ (to_Q v / qtotal)%Q) in R1; [|now rewrite Vt].
  apply (rounded_below _ _ 1) in R1; [| |lia].
  2:{ split; [apply Qle_shift_div_l; lra|].
      apply Qle_shift_div_r; [exact Pt|]. change (inject_Z 1) with 1%Q. lra. }
  destruct R1 as [R1 B1].
  (* times 100, twice *)
  destruct (times_hundred _ _ 1 R1 B1 ltac:(lia)) as [R2 B2].
  destruct (times_hundred _ _ 100 R2 B2 ltac:(lia)) as [R3 B3].
  (* to the nearest integer *)
  set (qm := RN (RN (RN (to_Q v / qtotal) * 100) * 100)) in *.
  set (fm := Binary64.mul (Binary64.mul _ hundred) hundred) in *.
  destruct R3 as [N3 V3].
  assert (R4 : represents (rint fm) (inject_Z (Qnearest qm))).
  { rewrite <- (Qnearest_comp _ _ V3). apply rint_spec; [exact N3|].
    rewrite V3. apply Qle_trans with (inject_Z (100 * 100)); [apply B3|].
    exact ten_thousand_small. }
  assert (B4 : (0 <= inject_Z (Qnearest qm) <= inject_Z (100 * 100))%Q).
  { pose proof (Qnearest_between qm 0 (100 * 100) B3) as [L U].
    split; [change 0%Q with (inject_Z 0)|]; rewrite <- Zle_Qle; assumption. }
  (* and back *)
  exact (proj1 (over_hundred _ _ 100 R4 B4 ltac:(lia))).
Qed.

Lemma percent_in_range (t : string) (v total : float) (qtotal : Q) :
  nonneg_float v -> represents total qtotal ->
  (0 < qtotal)%Q -> (to_Q v <= qtotal)%Q ->
  row_in_range
    {| asset_type := t; value := v;
       percent := round2 (a_mul (a_div v total) a_hundred) |}.
Proof.
  intros Nv Rt Pt Hv.
  destruct (percent_represented v total qtotal Nv Rt Pt Hv) as [Np Vp].
  pose proof (rounded_percent_range RN RN_mono (RN_small 0 ltac:(lia))
                (RN_small 1 ltac:(lia)) (RN_small 100 ltac:(lia))
                (RN_small 10000 ltac:(lia))
                (to_Q v) qtotal (conj (to_Q_nonneg v Nv) Hv) Pt) as [_ U].
  unfold row_in_range. cbn [value percent].
  split; [now apply leb_zero|]. split; [now apply leb_zero|].
  rewrite hundred_eq. apply leb_spec; [exact Np | exact hundred_bounded|].
  rewrite Vp, hundred_value. exact U.
Qed.

(** ** The Total in binary64 *)

Lemma not_nan_kept (vs : list float) :
  Forall nonneg_float vs ->
  map (fun v => if a_isnan v then a_zero else v) vs = vs.
Proof.
  intros H. rewrite <- (map_id vs) at 2. apply map_ext_in.
  intros v Hv. rewrite Forall_forall in H. specialize (H v Hv).
  destruct v as [s| | |[] m e]; simpl in H; try contradiction; reflexivity.
Qed.

Lemma sumQ_perm (l l' : list Q) :
  Permutation l l' -> (sumQ l == sumQ l')%Q.
Proof.
  induction 1 as [|x l l' _ IH|x y l|l l' l'' _ IH1 _ IH2]; simpl.
  - reflexivity.
  - now rewrite IH.
  - ring.
  - now rewrite IH1.
Qed.

Lemma sumQ_nonneg (l : list Q) :
  Forall (fun v => (0 <= v)%Q) l -> (0 <= sumQ l)%Q.
Proof. induction 1 as [|v l Hv _ IH]; simpl; [apply Qle_refl | lra]. Qed.

Lemma values_nonneg (vs : list float) :
  Forall nonneg_float vs -> Forall (fun v => (0 <= v)%Q) (map to_Q vs).
Proof.
  intros H. apply Forall_map. apply Forall_impl with (2 := H).
  exact to_Q_nonneg.
Qed.

Lemma count_app (a b : nat) :
  (inject_Z (Z.of_nat (a + b))
   == inject_Z (Z.of_nat a) + inject_Z (Z.of_nat b))%Q.
Proof. now rewrite Nat2Z.inj_add, inject_Z_plus. Qed.

Lemma count_nonneg (a : nat) : (0 <= inject_Z (Z.of_nat a))%Q.
Proof. change 0%Q with (inject_Z 0). rewrite <- Zle_Qle. lia. Qed.

Lemma count_positive (a : nat) : a <> O -> (1 <= inject_Z (Z.of_nat a))%Q.
Proof. intros H. change 1%Q with (inject_Z 1). rewrite <- Zle_Qle. lia. Qed.

Lemma unit_roundoff_small : (0 <= unit_roundoff <= 1 # 1000000)%Q.
Proof. split; intros H; discriminate H. Qed.

Lemma underflow_error_small : (0 <= underflow_error <= 1 # 1000000)%Q.
Proof. split; intros H; vm_compute in H; discriminate H. Qed.

(** What a sum [t] of the non-negative numbers [vs] is like when it has
    not overflowed: not negative, at least every number added, and within
    [w] of the exact sum, for every [w] from [n * 2^-53] to [1e-5]. *)
Definition sum_within (vs : list float) (t : float) : Prop :=
  nonneg_float t
  /\ Forall (fun v => (to_Q v <= to_Q t)%Q) vs
  /\ forall w : Q,
       (inject_Z (Z.of_nat (List.length vs)) * unit_roundoff <= w)%Q ->
       (w <= 1 # 100000)%Q ->
       ((1 - w) * sumQ (map to_Q vs) <= to_Q t
        <= (1 + 2 * w) * sumQ (map to_Q vs))%Q.

Lemma add_infinity_l (y : float) :
  y = S754_infinity false \/ nonneg_float y ->
  Binary64.add (S754_infinity false) y = S754_infinity false.
Proof.
  intros [->|N]; [reflexivity|].
  destruct y as [s| | |[] m e]; simpl in N; try contradiction; reflexivity.
Qed.

Lemma add_infinity_r (x : float) :
  x = S754_infinity false \/ nonneg_float x ->
  Binary64.add x (S754_infinity false) = S754_infinity false.
Proof.
  intros [->|N]; [reflexivity|].
  destruct x as [s| | |[] m e]; simpl in N; try contradiction; reflexivity.
Qed.

Lemma sum_within_nothing (t : float) :
  sum_within [] t -> (to_Q t == 0)%Q.
Proof.
  intros (_ & _ & B). specialize (B 0%Q).
  cbn [map sumQ fold_right List.length Z.of_nat] in B.
  change (inject_Z 0) with 0%Q in B.
  lapply B; [clear B; intros B | lra].
  lapply B; [clear B; intros B | lra]. lra.
Qed.

(** One addition. *)
Lemma sum_within_add (l r : list float) (x y : float) :
  Forall nonneg_float l -> Forall nonneg_float r ->
  sum_within l x -> sum_within r y ->
  Binary64.add x y = S754_infinity false
  \/ sum_within (l ++ r) (Binary64.add x y).
Proof.
  intros Nl Nr Hx Hy.
  pose proof (sum_within_nothing x) as Zx.
  pose proof (sum_within_nothing y) as Zy.
  destruct Hx as (Nx & Ax & Bx). destruct Hy as (Ny & Ay & By).
  pose proof (to_Q_nonneg x Nx) as X0. pose proof (to_Q_nonneg y Ny) as Y0.
  pose proof (float_in_format x Nx) as Fx.
  pose proof (float_in_format y Ny) as Fy.
  destruct (add_spec x y Nx Ny) as [[I _]|[Nt Vt]]; [now left | right].
  set (t := Binary64.add x y) in *.
  assert (Lx : (to_Q x <= to_Q t)%Q).
  { apply Qle_trans with (RN (to_Q x)); [rewrite Fx; apply Qle_refl|].
    rewrite Vt. apply RN_mono. lra. }
  assert (Ly : (to_Q y <= to_Q t)%Q).
  { apply Qle_trans with (RN (to_Q y)); [rewrite Fy; apply Qle_refl|].
    rewrite Vt. apply RN_mono. lra. }
  split; [exact Nt|]. split.
  { apply Forall_app. split.
    - apply Forall_impl with (2 := Ax). intros v Hv. lra.
    - apply Forall_impl with (2 := Ay). intros v Hv. lra. }
  pose proof unit_roundoff_small as [U0 U1].
  destruct l as [|v0 l'].
  { (* nothing on the left: the addition is exact *)
    specialize (Zx (conj Nx (conj Ax Bx))).
    assert (E : (to_Q t == to_Q y)%Q).
    { apply Qeq_trans with (1 := Vt). apply Qeq_trans with (2 := Fy).
      apply RN_comp. lra. }
    cbn [app]. intros w W1 W2. rewrite E. now apply By. }
  destruct r as [|v1 r'].
  { specialize (Zy (conj Ny (conj Ay By))).
    assert (E : (to_Q t == to_Q x)%Q).
    { apply Qeq_trans with (1 := Vt). apply Qeq_trans with (2 := Fx).
      apply RN_comp. lra. }
    rewrite app_nil_r. intros w W1 W2. rewrite E. now apply Bx. }
  intros w W1 W2. rewrite map_app, sumQ_app.
  rewrite length_app, count_app in W1.
  pose proof (count_nonneg (List.length (v0 :: l'))) as CL.
  pose proof (count_nonneg (List.length (v1 :: r'))) as CR.
  pose proof (sumQ_nonneg _ (values_nonneg _ Nl)) as SL.
  pose proof (sumQ_nonneg _ (values_nonneg _ Nr)) as SR.
  clear Zx Zy.
  pose proof (count_positive (List.length (v0 :: l')) ltac:(discriminate)) as C1.
  pose proof (count_positive (List.length (v1 :: r')) ltac:(discriminate)) as C2.
  set (a := inject_Z (Z.of_nat (List.length (v0 :: l')))) in *.
  set (b := inject_Z (Z.of_nat (List.length (v1 :: r')))) in *.
  set (sl := sumQ (map to_Q (v0 :: l'))) in *.
  set (sr := sumQ (map to_Q (v1 :: r'))) in *.
  set (u := unit_roundoff) in *.
  assert (PL : (0 <= a * u)%Q) by (apply Qmult_le_0_compat; lra).
  assert (M1 : (a * u <= w - u)%Q).
  { assert (0 <= (b - 1) * u)%Q by (apply Qmult_le_0_compat; lra). lra. }
  assert (M2 : (b * u <= w - u)%Q).
  { assert (0 <= (a - 1) * u)%Q by (apply Qmult_le_0_compat; lra). lra. }
  specialize (Bx (w - u)%Q M1 ltac:(lra)).
  specialize (By (w - u)%Q M2 ltac:(lra)).
  pose proof (RN_sum_error (to_Q x) (to_Q y) Fx Fy) as E.
  apply Qabs_Qle_condition in E.
  rewrite (Qabs_pos (to_Q x + to_Q y)) in E by lra. fold u in E.
  rewrite <- Vt in E.
  pose proof (sum_node_bounds u unit_roundoff_small (w - u) (sl + sr)
                (to_Q x + to_Q y) (to_Q t)) as B.
  lapply B; [clear B; intros B | lra].
  lapply B; [clear B; intros B | lra].
  lapply B; [clear B; intros B | lra].
  lapply B; [clear B; intros B | lra].
  lapply B; [clear B; intros B | lra].
  lra.
Qed.

(** A sum of non-negative numbers, whatever the order of the additions,
    has overflowed to infinity or is within the bounds of [sum_within]. *)
Lemma added_cases (vs : list float) (t : float) :
  added vs t -> Forall nonneg_float vs ->
  t = S754_infinity false \/ sum_within vs t.
Proof.
  induction 1 as [| |v|l r x y Hl IHl Hr IHr|l l' x Hp Hl IH]; intros N.
  - right. split; [exact I|]. split; [constructor|].
    intros w _ _. cbn. lra.
  - right. split; [exact I|]. split; [constructor|].
    intros w _ _. cbn. lra.
  - inversion N as [|? ? Nv _]; subst. right.
    pose proof (to_Q_nonneg v Nv) as V0.
    split; [exact Nv|]. split; [constructor; [apply Qle_refl | constructor]|].
    intros w W1 W2.
    change (inject_Z (Z.of_nat (List.length [v]))) with 1%Q in W1.
    cbn [map sumQ fold_right].
    pose proof unit_roundoff_small as [U0 U1].
    assert (0 <= w * to_Q v)%Q by (apply Qmult_le_0_compat; lra). lra.
  - apply Forall_app in N. destruct N as [Nl Nr].
    change (a_add x y) with (Binary64.add x y).
    destruct (IHl Nl) as [->|Hx].
    { left. apply add_infinity_l. destruct (IHr Nr) as [->|Hy];
        [now left | right; apply Hy]. }
    destruct (IHr Nr) as [->|Hy].
    { left. apply add_infinity_r. right. apply Hx. }
    now apply sum_within_add.
  - assert (N' : Forall nonneg_float l)
      by (apply (Permutation_Forall (Permutation_sym Hp)); exact N).
    destruct (IH N') as [I|(Nt & A & B)]; [now left | right].
    split; [exact Nt|]. split; [exact (Permutation_Forall Hp A)|].
    intros w W1 W2. rewrite <- (Permutation_length Hp) in W1.
    rewrite <- (sumQ_perm _ _ (Permutation_map to_Q Hp)). now apply B.
Qed.

(** The Total of a client whose values are finite and not negative. *)
Lemma total_cases {P : Platform} (assets : list (string * float)) :
  Forall (fun a => nonneg_float (snd a)) assets ->
  series_sum (map snd assets) = S754_infinity false
  \/ sum_within (map snd assets) (series_sum (map snd assets)).
Proof.
  intros H.
  assert (N : Forall nonneg_float (map snd assets)) by now apply Forall_map.
  apply added_cases; [|exact N].
  rewrite <- (not_nan_kept _ N) at 1. apply series_sum_added.
Qed.

(** The rows of the assets, without the Total row. *)
Lemma allocation_asset_rows {F} {A : Arith F} {P : Platform}
    (assets : list (string * F)) :
  asset_rows (allocation assets)
  = map (fun a =>
           {| asset_type := fst a;
              value := snd a;
              percent :=
                if a_gtb (series_sum (map snd assets)) a_zero
                then round2 (a_mul (a_div (snd a) (series_sum (map snd assets)))
                                   a_hundred)
                else a_zero |}) assets.
Proof.
  unfold asset_rows. rewrite allocation_frame. apply removelast_last.
Qed.

(** The percent of the Calculator on rationals. *)
Definition percent_Q (v total : Q) : Q :=
  round2 (A := nearest_arith)
    (a_mul (Arith := nearest_arith)
       (a_div (Arith := nearest_arith) v total) 100%Q).

Lemma percent_Q_eq (v total : Q) :
  percent_Q v total
  = RN (inject_Z (Qnearest (RN (RN (RN (v / total) * 100) * 100))) / 100).
Proof. reflexivity. Qed.

Lemma RN_0 : (RN 0 == 0)%Q.
Proof. exact (RN_small 0 ltac:(lia)). Qed.

(** A percent is the float nearest to a number of hundredths. *)
Lemma percent_Q_hundredths (v total : Q) :
  (0 <= v <= total)%Q -> (0 < total)%Q ->
  exists k, (0 <= k <= 10000)%Z
            /\ percent_Q v total = RN (inject_Z k / 100).
Proof.
  intros [V0 V1] T. rewrite percent_Q_eq. eexists. split; [|reflexivity].
  apply Qnearest_between.
  assert (Q1 : (0 <= v / total <= inject_Z 1)%Q).
  { split; [apply Qle_shift_div_l; lra|].
    apply Qle_shift_div_r; [exact T|]. change (inject_Z 1) with 1%Q. lra. }
  assert (B : forall q b, (0 <= q <= inject_Z b)%Q -> (0 <= b <= 10000)%Z ->
                          (0 <= RN q <= inject_Z b)%Q).
  { intros q b [Q0 Qb] Hb. split.
    - rewrite <- (RN_small 0) by lia. now apply RN_mono.
    - rewrite <- (RN_small b) by lia. now apply RN_mono. }
  pose proof (B _ 1%Z Q1 ltac:(lia)) as B1.
  assert (Q2 : (0 <= RN (v / total) * 100 <= inject_Z 100)%Q).
  { change (inject_Z 1) with 1%Q in B1. change (inject_Z 100) with 100%Q.
    lra. }
  pose proof (B _ 100%Z Q2 ltac:(lia)) as B2.
  assert (Q3 : (0 <= RN (RN (v / total) * 100) * 100 <= inject_Z 10000)%Q).
  { change (inject_Z 100) with 100%Q in B2.
    change (inject_Z 10000) with 10000%Q. lra. }
  exact (B _ 10000%Z Q3 ltac:(lia)).
Qed.

(** A percent is within 0.007 of the exact share of the total. *)
Lemma percent_Q_near (v total : Q) :
  (0 <= v <= total)%Q -> (0 < total)%Q ->
  (Qabs (percent_Q v total - 100 * (v / total)) <= 7 # 1000)%Q.
Proof.
  intros [V0 V1] T.
  assert (X0 : (0 <= v / total)%Q) by (apply Qle_shift_div_l; lra).
  assert (X1 : (v / total <= 1)%Q) by (apply Qle_shift_div_r; lra).
  pose proof (rounded_percent_error RN unit_roundoff underflow_error
                unit_roundoff_small underflow_error_small RN_error
                (v / total)%Q X0) as E.
  cbv zeta in E. apply Qabs_Qle_condition.
  change (round2 (A := rounded_arith RN)
            (a_mul (Arith := rounded_arith RN) (RN (v / total)) 100%Q))
    with (percent_Q v total) in E.
  lra.
Qed.

Lemma rows_within_precision (n : nat) :
  (Z.of_nat n <= 2 ^ 36)%Z ->
  (inject_Z (Z.of_nat n) * unit_roundoff <= 1 # 100000)%Q.
Proof.
  intros H.
  apply Qle_trans with (inject_Z (2 ^ 36) * unit_roundoff)%Q.
  - apply Qmult_le_compat_r; [now rewrite <- Zle_Qle|].
    apply unit_roundoff_small.
  - intros C. vm_compute in C. discriminate C.
Qed.

Lemma sumQ_pointwise {X} (f g : X -> Q) (l : list X) :
  (forall a, In a l -> (f a == g a)%Q) ->
  (sumQ (map f l) == sumQ (map g l))%Q.
Proof.
  induction l as [|a l IH]; intros H; simpl; [reflexivity|].
  rewrite (H a (or_introl eq_refl)), IH; [reflexivity|].
  intros b Hb. apply H. now right.
Qed.

(** With an infinite total every share is a zero. *)
Lemma percent_of_infinity (v : float) :
  nonneg_float v ->
  exists s,
    round2 (a_mul (a_div v (S754_infinity false)) a_hundred) = S754_zero s.
Proof.
  intros N. destruct v as [s| | |[] m e]; simpl in N; try contradiction.
  - exists s. destruct s; reflexivity.
  - exists false. reflexivity.
Qed.

(** The Total without overflow, against the exact sum. *)
Lemma total_near_exact {P : Platform} (assets : list (string * float)) :
  Forall (fun a => nonneg_float (snd a)) assets ->
  (Z.of_nat (List.length assets) <= 2 ^ 36)%Z ->
  series_sum (map snd assets) <> Binary64.infinity ->
  let exact := sumQ (map (fun a => to_Q (snd a)) assets) in
  let n := inject_Z (Z.of_nat (List.length assets)) in
  ((1 - n * unit_roundoff) * exact
   <= to_Q (series_sum (map snd assets))
   <= (1 + 2 * (n * unit_roundoff)) * exact)%Q.
Proof.
  intros Hok Hn Fin exact n.
  destruct (total_cases assets Hok) as [I|(_ & _ & B)]; [contradiction|].
  rewrite length_map, map_map in B. fold exact n in B.
  apply B; [apply Qle_refl | now apply rows_within_precision].
Qed.

(** The asset rows under a Total that is greater than 0 and has not
    overflowed: no value exceeds the Total, and every percent is the
    percent on rationals. *)
Lemma positive_total_rows {P : Platform} (assets : list (string * float)) :
  Forall (fun a => nonneg_float (snd a)) assets ->
  let total := series_sum (map snd assets) in
  total <> Binary64.infinity ->
  a_gtb total a_zero = true ->
  nonneg_float total /\ (0 < to_Q total)%Q
  /\ forall r, In r (asset_rows (allocation assets)) ->
       nonneg_float (value r) /\ (to_Q (value r) <= to_Q total)%Q
       /\ represents (percent r) (percent_Q (to_Q (value r)) (to_Q total)).
Proof.
  intros Hok total Fin G. rewrite allocation_asset_rows. fold total.
  destruct (total_cases assets Hok) as [I|(Nt & Hall & _)]; [contradiction|].
  fold total in Nt, Hall. rewrite G.
  assert (Pt : (0 < to_Q total)%Q) by now apply gtb_zero_spec.
  split; [exact Nt|]. split; [exact Pt|].
  intros r Hr. apply in_map_iff in Hr. destruct Hr as (a & <- & Ha).
  rewrite Forall_forall in Hok. rewrite Forall_map in Hall.
  rewrite Forall_forall in Hall. cbn [value percent].
  split; [now apply Hok|]. split; [now apply Hall|].
  apply (percent_represented (snd a) total (to_Q total));
    [now apply Hok | split; [exact Nt | reflexivity] | exact Pt
    | now apply Hall].
Qed.

(** The asset rows of a client whose values are finite and not negative:
    all percents are zeros, or the Total is a positive finite number that
    no value exceeds and every percent is the percent on rationals. *)
Lemma percent_cases {P : Platform} (assets : list (string * float)) :
  Forall (fun a => nonneg_float (snd a)) assets ->
  let total := series_sum (map snd assets) in
  (forall r, In r (asset_rows (allocation assets)) ->
             exists s, percent r = S754_zero s)
  \/ (nonneg_float total /\ (0 < to_Q total)%Q
      /\ a_gtb total a_zero = true
      /\ forall r, In r (asset_rows (allocation assets)) ->
           nonneg_float (value r) /\ (to_Q (value r) <= to_Q total)%Q
           /\ represents (percent r)
                         (percent_Q (to_Q (value r)) (to_Q total))).
Proof.
  intros Hok total.
  destruct (total_cases assets Hok) as [I|(Nt & _ & _)].
  - left. rewrite allocation_asset_rows. rewrite I.
    change (a_gtb (S754_infinity false) a_zero) with true. cbv iota.
    intros r Hr. apply in_map_iff in Hr. destruct Hr as (a & <- & Ha).
    rewrite Forall_forall in Hok. cbn [percent].
    exact (percent_of_infinity (snd a) (Hok a Ha)).
  - fold total in Nt. destruct (a_gtb total a_zero) eqn:G.
    + right.
      assert (Fin : total <> Binary64.infinity)
        by (intros E; rewrite E in Nt; exact Nt).
      destruct (positive_total_rows assets Hok Fin G) as (_ & Pt & Rows).
      repeat split; try assumption; now apply Rows.
    + left. rewrite allocation_asset_rows. fold total. rewrite G.
      intros r Hr. apply in_map_iff in Hr.
      destruct Hr as (a & <- & Ha). now exists false.
Qed.

(** C3, amended. For every list of labelled values that are finite
    binary64 numbers and not negative, every Allocation Row computed in
    binary64, the Total row included, has a value that is at least 0 and a
    percent between 0 and 100; so it is for every client record whose
    cells all normalise to such numbers. *)
Theorem binary64_rows_in_range {P : Platform} :
  (forall assets : list (string * float),
      Forall (fun a => nonneg_float (snd a)) assets ->
      Forall row_in_range (allocation assets))
  /\ (forall cells : list (string * string),
        Forall (fun c => nonneg_float (clean_number (snd c))) cells ->
        Forall row_in_range (client_rows cells)).
Proof.
  assert (G : forall assets : list (string * float),
             Forall (fun a => nonneg_float (snd a)) assets ->
             Forall row_in_range (allocation assets)).
  { intros assets Hok. rewrite allocation_frame.
    destruct (total_cases assets Hok) as [I|(Nt & Hall & _)].
    - (* the total overflowed *)
      rewrite I. apply Forall_app. split.
      + apply Forall_map. apply Forall_impl with (2 := Hok).
        intros a Na. unfold row_in_range. cbn [value percent].
        split; [now apply leb_zero|].
        change (a_gtb (S754_infinity false) a_zero) with true. cbv iota.
        destruct (percent_of_infinity (snd a) Na) as [s ->].
        split; destruct s; reflexivity.
      + constructor; [|constructor]. repeat split; reflexivity.
    - set (total := series_sum (map snd assets)) in *.
      apply Forall_app. split.
      + apply Forall_map. rewrite Forall_map in Hall.
        rewrite Forall_forall in Hok, Hall.
        apply Forall_forall. intros a Ha.
        destruct (a_gtb total a_zero) eqn:G.
        * apply (percent_in_range _ _ total (to_Q total));
            [now apply Hok | split; [exact Nt | reflexivity] |
            | now apply Hall].
          now apply gtb_zero_spec.
        * unfold row_in_range. cbn [value percent].
          split; [apply leb_zero; now apply Hok|]. split; reflexivity.
      + constructor; [|constructor]. unfold row_in_range. cbn [value percent].
        split; [now apply leb_zero|]. split; reflexivity. }
  split; [exact G|].
  intros cells H. unfold client_rows. apply G. apply Forall_map. exact H.
Qed.

(** C2, amended. For a non-empty client of at most 2^36 assets whose
    values are finite binary64 numbers that are not negative: when the
    Total, added up in binary64 in the order pandas adds it, is greater
    than 0 and has not overflowed, the percents of the asset rows add up to
    100 within 0.01 per row; when the Total has overflowed to infinity,
    every percent is a zero. *)
Theorem binary64_percent_sum {P : Platform}
    (assets : list (string * float)) :
  Forall (fun a => nonneg_float (snd a)) assets ->
  (Z.of_nat (List.length assets) <= 2 ^ 36)%Z ->
  (series_sum (map snd assets) <> Binary64.infinity ->
   percent_sum_near_100 assets)
  /\ (series_sum (map snd assets) = Binary64.infinity ->
      Forall (fun r => exists s, percent r = S754_zero s)
             (asset_rows (allocation assets))).
Proof.
  intros Hok Hn. split.
  - intros Hfin Hne Hgt.
    pose proof (total_near_exact assets Hok Hn Hfin) as T. cbv zeta in T.
    destruct (total_cases assets Hok) as [I|(Nt & Hall & _)];
      [contradiction|].
    set (total := series_sum (map snd assets)) in *.
    assert (Hpos : (0 < to_Q total)%Q) by now apply gtb_zero_spec.
    pose proof (percent_sum_of_total RN unit_roundoff underflow_error
                  unit_roundoff_small underflow_error_small RN_error
                  (map to_Q (map snd assets)) (to_Q total)
                  (inject_Z (Z.of_nat (List.length assets)) * unit_roundoff))
      as S.
    lapply S; [clear S; intros S | destruct assets; [congruence | discriminate]].
    lapply S; [clear S; intros S | apply values_nonneg; now apply Forall_map].
    lapply S; [clear S; intros S|].
    2:{ split; [|now apply rows_within_precision].
        apply Qmult_le_0_compat; [apply count_nonneg | apply unit_roundoff_small]. }
    specialize (S Hpos). rewrite (map_map snd to_Q) in S. specialize (S T).
    rewrite !length_map in S.
    revert S. apply Qle_trans. apply Qle_lteq. right.
    apply Qabs_wd. apply Qplus_comp; [|reflexivity].
    rewrite allocation_asset_rows. fold total. rewrite Hgt.
    rewrite !map_map. cbn [percent].
    apply sumQ_pointwise. intros a Ha.
    rewrite Forall_forall in Hok. rewrite Forall_map in Hall.
    rewrite Forall_forall in Hall.
    apply (percent_represented (snd a) total (to_Q total));
      [now apply Hok | split; [exact Nt | reflexivity] | exact Hpos
      | now apply Hall].
  - intros I. rewrite allocation_asset_rows, I.
    change (a_gtb Binary64.infinity a_zero) with true. cbv iota.
    apply Forall_map. apply Forall_impl with (2 := Hok).
    intros a Na. cbn [percent]. exact (percent_of_infinity (snd a) Na).
Qed.

(** A client whose cells carry a currency sign, separators, a fraction and
    a placeholder. *)
Lemma binary64_rows_in_range_witness :
  Forall row_in_range
         (client_rows (P := posix)
            [("Equity", "₹50,000"); ("Debt", "1234.50"); ("Gold", "Pending")]).
Proof.
  apply (proj2 (binary64_rows_in_range (P := posix))
           [("Equity", "₹50,000"); ("Debt", "1234.50"); ("Gold", "Pending")]).
  repeat (constructor; [vm_compute; reflexivity|]). constructor.
Defined.

(** Nine holdings of 0.1, 0.2, ..., 0.9, which pandas adds in eight
    accumulators, and a client whose Total overflows in that order only:
    the largest float, three times 2^969 and four zeros. *)
Definition nine_assets : list (string * float) :=
  [("A", clean_number "0.1"); ("B", clean_number "0.2");
   ("C", clean_number "0.3"); ("D", clean_number "0.4");
   ("E", clean_number "0.5"); ("F", clean_number "0.6");
   ("G", clean_number "0.7"); ("H", clean_number "0.8");
   ("I", clean_number "0.9")].

Definition brim_assets : list (string * float) :=
  [("A", S754_finite false 9007199254740991 971);
   ("B", Binary64.of_Z (2 ^ 969)); ("C", Binary64.of_Z (2 ^ 969));
   ("D", Binary64.of_Z (2 ^ 969)); ("E", Binary64.zero);
   ("F", Binary64.zero); ("G", Binary64.zero); ("H", Binary64.zero)].

Lemma binary64_percent_sum_witness :
  (Qabs (sumQ (map (fun r => to_Q (percent r))
                   (asset_rows (allocation (P := posix) nine_assets))) - 100)
   <= (1 # 100) * inject_Z 9)%Q
  /\ Forall (fun r => exists s, percent r = S754_zero s)
            (asset_rows (allocation (P := posix) brim_assets)).
Proof.
  split.
  - refine (proj1 (binary64_percent_sum (P := posix) nine_assets _ _) _ _ _).
    + repeat (constructor; [vm_compute; reflexivity|]). constructor.
    + vm_compute. discriminate.
    + vm_compute. discriminate.
    + discriminate.
    + vm_compute. reflexivity.
  - refine (proj2 (binary64_percent_sum (P := posix) brim_assets _ _) _).
    + repeat (constructor; [vm_compute; reflexivity|]). constructor.
    + vm_compute. discriminate.
    + vm_compute. reflexivity.
Defined.

(** ** The Allocation Calculator, row by row *)

(** [round(x, 2)] of numpy on a binary64 number, operation by operation. *)
Definition to_hundredths (x : float) : float :=
  Binary64.div (Binary64.rint (Binary64.mul x (Binary64.of_Z 100)))
               (Binary64.of_Z 100).

(** C1. For every ordered list of labelled binary64 values the Calculator
    returns the assets in column order, each with its label and its value
    and with percent [round(value / total * 100, 2)] when [total > 0] and 0
    otherwise, followed by the single appended row ("Total", total, 100);
    the 100 does not depend on the total. The total is a binary64 sum of
    the values, each added once, a NaN counted as 0. For values that are
    finite and not negative, at most 2^36 of them, and a total that has not
    overflowed: the total is the exact sum up to a relative error of
    [n * 2^-53] below and [2 * n * 2^-53] above, and when it is greater
    than 0 every percent is within 0.007 of the exact
    [100 * value / total] and is the binary64 number nearest to a number of
    hundredths between 0 and 100. *)
Theorem allocation_postcondition {P : Platform}
    (assets : list (string * float)) :
  let total := series_sum (map snd assets) in
  allocation assets
  = map (fun a =>
           {| asset_type := fst a;
              value := snd a;
              percent :=
                if Binary64.ltb Binary64.zero total
                then to_hundredths
                       (Binary64.mul (Binary64.div (snd a) total)
                                     (Binary64.of_Z 100))
                else Binary64.zero |}) assets
    ++ [ {| asset_type := "Total"; value := total;
            percent := Binary64.of_Z 100 |} ]
  /\ added (map (fun v => if Binary64.is_nan v then Binary64.zero else v)
                (map snd assets))
           total
  /\ (Forall (fun a => nonneg_float (snd a)) assets ->
      (Z.of_nat (List.length assets) <= 2 ^ 36)%Z ->
      total <> Binary64.infinity ->
      let exact := sumQ (map (fun a => to_Q (snd a)) assets) in
      let n := inject_Z (Z.of_nat (List.length assets)) in
      ((1 - n * unit_roundoff) * exact <= to_Q total
       <= (1 + 2 * (n * unit_roundoff)) * exact)%Q
      /\ (Binary64.ltb Binary64.zero total = true ->
          forall r, In r (asset_rows (allocation assets)) ->
            (Qabs (to_Q (percent r) - 100 * (to_Q (value r) / to_Q total))
             <= 7 # 1000)%Q
            /\ exists k, (0 <= k <= 10000)%Z
                         /\ (to_Q (percent r) == RN (inject_Z k / 100))%Q)).
Proof.
  intros total. split; [|split].
  - exact (allocation_frame assets).
  - exact (series_sum_added (map snd assets)).
  - intros Hok Hn Fin. split.
    + exact (total_near_exact assets Hok Hn Fin).
    + intros G r Hr.
      destruct (positive_total_rows assets Hok Fin G) as (Nt & Pt & Rows).
      fold total in Nt, Pt, Rows.
      destruct (Rows r Hr) as (Nv & Lv & [_ V]).
      pose proof (to_Q_nonneg _ Nv) as V0. split.
      * rewrite V. apply percent_Q_near; [split; assumption | exact Pt].
      * destruct (percent_Q_hundredths (to_Q (value r)) (to_Q total))
          as (k & Hk & E); [split; assumption | exact Pt|].
        exists k. split; [exact Hk|]. now rewrite V, E.
Qed.

Lemma allocation_postcondition_witness :
  let total := series_sum (P := posix) (map snd nine_assets) in
  let exact := sumQ (map (fun a => to_Q (snd a)) nine_assets) in
  ((1 - inject_Z 9 * unit_roundoff) * exact <= to_Q total
   <= (1 + 2 * (inject_Z 9 * unit_roundoff)) * exact)%Q
  /\ forall r, In r (asset_rows (allocation (P := posix) nine_assets)) ->
       (Qabs (to_Q (percent r) - 100 * (to_Q (value r) / to_Q total))
        <= 7 # 1000)%Q.
Proof.
  destruct (proj2 (proj2 (allocation_postcondition (P := posix) nine_assets)))
    as [T Rows].
  - repeat (constructor; [vm_compute; reflexivity|]). constructor.
  - vm_compute. discriminate.
  - vm_compute. discriminate.
  - split; [exact T|]. intros r Hr.
    exact (proj1 (Rows ltac:(vm_compute; reflexivity) r Hr)).
Defined.

(** ** Digit preservation, for every positive integer *)

(** [float(n)] raises from this integer on: it is half a unit in the last
    place above the largest binary64 number. *)
Definition float_overflow : Z := (2 ^ 1024 - 2 ^ 970)%Z.

Lemma RN_float_overflow : (RN (inject_Z float_overflow) == pow2 1024)%Q.
Proof. vm_compute. reflexivity. Qed.

Lemma RN_below_float_overflow :
  (RN (inject_Z (float_overflow - 1)) < pow2 1024)%Q.
Proof. vm_compute. reflexivity. Qed.

Lemma finite_below_overflow (x : float) :
  nonneg_float x -> (to_Q x < pow2 1024)%Q.
Proof.
  intros N. pose proof units_pos as U.
  pose proof (to_Q_in_units x N) as E.
  assert (B : (in_units x < 2 ^ 2098)%Z).
  { destruct x as [s| | |[] m e]; simpl in N; try contradiction.
    - reflexivity.
    - destruct (bounded_range m e N) as (He & Hm & _). cbn [in_units].
      assert (P : (0 < 2 ^ (e + 1074))%Z) by (apply Z.pow_pos_nonneg; lia).
      assert (L : (2 ^ (e + 1074) <= 2 ^ 2045)%Z)
        by (apply Z.pow_le_mono_r; lia).
      replace (2 ^ 2098)%Z with (2 ^ 53 * 2 ^ 2045)%Z
        by (rewrite <- Z.pow_add_r by lia; reflexivity).
      nia. }
  assert (T : (pow2 1024 * units == inject_Z (2 ^ 2098))%Q)
    by (vm_compute; reflexivity).
  apply Qmult_lt_r with units; [exact U|].
  rewrite E, T. now rewrite <- Zlt_Qlt.
Qed.

Lemma of_Z_rounded (p : positive) :
  rounded (inject_Z (Zpos p)) (Binary64.of_Z (Zpos p)).
Proof.
  pose proof (binary_round_spec p 0) as R.
  apply (rounded_comp _ (inject_Z (Zpos p))) in R; [exact R|].
  unfold pow2. simpl. ring.
Qed.

(** [float(n)] raises for [n] from [float_overflow] on. *)
Lemma of_int_overflow (n : Z) :
  (float_overflow <= n)%Z ->
  Binary64.of_int n
  = Raise (Exn "OverflowError" "int too large to convert to float").
Proof.
  intros H.
  assert (P : (0 < float_overflow)%Z) by reflexivity.
  destruct n as [|p|p]; try lia.
  assert (B : (pow2 1024 <= RN (inject_Z (Zpos p)))%Q).
  { rewrite <- RN_float_overflow. apply RN_mono. now rewrite <- Zle_Qle. }
  unfold of_int.
  destruct (of_Z_rounded p) as [[-> _]|[N V]]; [reflexivity|].
  pose proof (finite_below_overflow _ N) as F. rewrite V in F. lra.
Qed.

(** Below it, [float(n)] is the binary64 number nearest to [n]. *)
Lemma of_int_nearest (n : Z) :
  (0 < n < float_overflow)%Z ->
  exists x, Binary64.of_int n = Ok x /\ represents x (RN (inject_Z n)).
Proof.
  intros [H0 H1]. destruct n as [|p|p]; try lia.
  assert (B : (RN (inject_Z (Zpos p)) < pow2 1024)%Q).
  { apply Qle_lt_trans with (2 := RN_below_float_overflow).
    apply RN_mono. rewrite <- Zle_Qle. lia. }
  pose proof (rounded_finite _ _ (of_Z_rounded p) B) as R.
  exists (Binary64.of_Z (Zpos p)). split; [|exact R].
  unfold of_int. destruct R as [N _].
  destruct (Binary64.of_Z (Zpos p)) as [s| | |s m e];
    try reflexivity; contradiction.
Qed.

(** A binary64 number from [2^53] on is an integer. *)
Lemma float_whole (x : float) :
  nonneg_float x -> (inject_Z (2 ^ 53) <= to_Q x)%Q ->
  exists k, (to_Q x == inject_Z k)%Q.
Proof.
  intros N H.
  destruct x as [s| | |[] m e]; simpl in N; try contradiction.
  destruct (bounded_range m e N) as (_ & Hm & _).
  destruct e as [|k|k].
  - cbn [to_Q]. eexists. apply Qeq_refl.
  - cbn [to_Q]. eexists. apply Qeq_refl.
  - exfalso. cbn [to_Q] in H.
    assert (L : (inject_Z (Zpos m) < inject_Z (2 ^ 53))%Q)
      by now rewrite <- Zlt_Qlt.
    assert (D : (Zpos m # 2 ^ k <= inject_Z (Zpos m))%Q).
    { unfold Qle. cbn [Qnum Qden inject_Z]. nia. }
    lra.
Qed.

Lemma round_int_whole (x : float) (k : Z) :
  nonneg_float x -> (to_Q x == inject_Z k)%Q -> round_int x = Ok k.
Proof.
  intros N E.
  destruct x as [s| | |[] m e]; simpl in N; try contradiction.
  - assert (Z : k = 0%Z)
      by (apply inject_Z_injective; symmetry; exact E).
    now subst k.
  - pose proof (round_int_nearest (S754_finite false m e) _ eq_refl) as H.
    cbn [round_int cond_Zopp]. f_equal.
    rewrite E in H. unfold Qminus in H.
    rewrite <- inject_Z_opp, <- inject_Z_plus in H.
    apply Qabs_Qle_condition in H. destruct H as [H1 H2].
    cbn [cond_Zopp] in H1, H2.
    set (d := (nearest_int m e + - k)%Z) in *.
    assert (D1 : (d < 1)%Z).
    { rewrite Zlt_Qlt. change (inject_Z 1) with 1%Q. lra. }
    assert (D2 : (-1 < d)%Z).
    { rewrite Zlt_Qlt. change (inject_Z (-1)) with (-1)%Q. lra. }
    lia.
Qed.

Lemma str_int_inj (a b : Z) : str_int a = str_int b -> a = b.
Proof.
  unfold str_int. intros E.
  assert (N : forall z, Z.to_int z <> Decimal.Pos Decimal.Nil
                        /\ Z.to_int z <> Decimal.Neg Decimal.Nil).
  { intros [|p|p]; cbn [Z.to_int]; split; try discriminate;
      intros C; injection C as C;
      now apply DecimalPos.Unsigned.to_uint_nonnil in C. }
  pose proof (NilZero.isi _ (proj1 (N a)) (proj2 (N a))) as Ia.
  pose proof (NilZero.isi _ (proj1 (N b)) (proj2 (N b))) as Ib.
  rewrite E in Ia. rewrite Ia in Ib. injection Ib as Ib.
  now apply DecimalZ.to_int_inj.
Qed.

(** The text of a positive integer below [float_overflow] carries the
    digits of the binary64 number nearest to it. *)
Lemma format_nearest (n : Z) :
  (0 < n < float_overflow)%Z ->
  exists out m,
    format_indian_currency (Int n) = Ok out
    /\ unformat out = str_int m
    /\ (inject_Z m == RN (inject_Z n))%Q.
Proof.
  intros H. destruct (of_int_nearest n H) as (x & Hx & [N V]).
  assert (P : (1 <= RN (inject_Z n))%Q).
  { rewrite <- (RN_int 1) by (split; [lia | reflexivity]).
    apply RN_mono. rewrite <- Zle_Qle. lia. }
  assert (K : exists k, (to_Q x == inject_Z k)%Q).
  { destruct (Z.lt_ge_cases n (2 ^ 53)) as [L|G].
    - exists n. rewrite V. apply RN_int. lia.
    - apply float_whole; [exact N|]. rewrite V.
      apply Qle_trans with (RN (inject_Z (2 ^ 53))).
      + assert (E : (RN (inject_Z (2 ^ 53)) == inject_Z (2 ^ 53))%Q)
          by (vm_compute; reflexivity).
        rewrite E. apply Qle_refl.
      + apply RN_mono. now rewrite <- Zle_Qle. }
  destruct K as [k K].
  assert (Pk : (0 < k)%Z).
  { rewrite Zlt_Qlt. change (inject_Z 0) with 0%Q. rewrite <- K, V. lra. }
  destruct (unformat_rounded x k (round_int_whole x k N K) Pk)
    as (out & Hout & Hd).
  exists out, k. split; [|split; [exact Hd | now rewrite <- K, V]].
  unfold format_indian_currency, to_float in *. now rewrite Hx.
Qed.

(** C9, as stated, at [2^53 + 1]: [float] rounds the integer to [2^53]
    before it is formatted, and the last digit comes out as 2. *)
Lemma digits_lost_above_2p53 : ~ digits_preserved 9007199254740993.
Proof.
  intros (out & Hout & Hdigits).
  vm_compute in Hout. injection Hout as <-.
  vm_compute in Hdigits. discriminate.
Qed.

(** C9, amended. Line 48 turns the amount into a binary64 number before
    it is formatted. For a positive integer [n] below [2^1024 - 2^970],
    removing the leading "₹ " and all commas from
    [format_indian_currency(n)] gives the decimal digits of the binary64
    number nearest to [n]; from [2^1024 - 2^970] on the call raises
    [OverflowError]. So the digits of [n] itself come out exactly when [n]
    is below that bound and is a binary64 number, which every [n] up to
    [2^53] is. *)
Theorem format_indian_currency_digits (n : Z) :
  (0 < n)%Z ->
  ((n < float_overflow)%Z ->
   exists out m,
     format_indian_currency (Int n) = Ok out
     /\ unformat out = str_int m
     /\ (inject_Z m == RN (inject_Z n))%Q)
  /\ ((float_overflow <= n)%Z ->
      format_indian_currency (Int n)
      = Raise (Exn "OverflowError" "int too large to convert to float"))
  /\ (digits_preserved n
      <-> (n < float_overflow)%Z /\ (RN (inject_Z n) == inject_Z n)%Q)
  /\ ((n <= 2 ^ 53)%Z -> digits_preserved n).
Proof.
  intros Hpos.
  assert (R : (float_overflow <= n)%Z ->
              format_indian_currency (Int n)
              = Raise (Exn "OverflowError"
                           "int too large to convert to float")).
  { intros H. unfold format_indian_currency, to_float.
    now rewrite (of_int_overflow n H). }
  assert (D : (n < float_overflow)%Z ->
              (RN (inject_Z n) == inject_Z n)%Q -> digits_preserved n).
  { intros H E. destruct (format_nearest n (conj Hpos H))
      as (out & m & Hout & Hd & V).
    exists out. split; [exact Hout|]. rewrite Hd.
    rewrite E in V. apply (proj1 (inject_Z_injective _ _)) in V.
    now subst m. }
  split; [|split; [exact R|split]].
  - intros H. exact (format_nearest n (conj Hpos H)).
  - split.
    + intros (out & Hout & Hd).
      destruct (Z.lt_ge_cases n float_overflow) as [L|G];
        [|rewrite (R G) in Hout; discriminate Hout].
      split; [exact L|].
      destruct (format_nearest n (conj Hpos L))
        as (out' & m & Hout' & Hd' & V).
      rewrite Hout in Hout'. injection Hout' as <-.
      rewrite Hd in Hd'. apply str_int_inj in Hd'. subst m.
      symmetry. exact V.
    + intros [L E]. now apply D.
  - intros H. apply D.
    + assert (2 ^ 53 < float_overflow)%Z by reflexivity. lia.
    + destruct (Z.eq_dec n (2 ^ 53)) as [->|Hne];
        [vm_compute; reflexivity | apply RN_int; lia].
Qed.

Lemma format_indian_currency_digits_witness :
  digits_preserved 1234567
  /\ digits_preserved (2 ^ 53 + 2)
  /\ format_indian_currency (Int (2 ^ 1024 - 2 ^ 970))
     = Raise (Exn "OverflowError" "int too large to convert to float").
Proof.
  split; [|split].
  - apply (proj2 (proj2 (proj2
             (format_indian_currency_digits 1234567 ltac:(lia))))).
    vm_compute. discriminate.
  - apply (proj2 (proj1 (proj2 (proj2
             (format_indian_currency_digits (2 ^ 53 + 2)
                ltac:(vm_compute; reflexivity)))))).
    split; vm_compute; reflexivity.
  - apply (proj1 (proj2
             (format_indian_currency_digits (2 ^ 1024 - 2 ^ 970)
                ltac:(vm_compute; reflexivity)))).
    vm_compute. discriminate.
Defined.

(** * Further properties of the code *)

(** ** Loading the workbook (lines 173-180) *)

(** The number an asset cell stands for: [clean_number] of its text, 0.0
    when the cell is missing. *)
Definition cell_value (c : option string) : float :=
  match c with
  | Some s => clean_number s
  | None => Binary64.zero
  end.

Lemma placeholders_clean :
  forallb (fun p => is_zero (clean_number p)) ("0" :: placeholders) = true.
Proof. vm_compute. reflexivity. Qed.

Lemma clean_filled_cell (c : option string) :
  clean_number (fill_cell c) = cell_value c.
Proof.
  pose proof placeholders_clean as P. rewrite forallb_forall in P.
  assert (Z : clean_number "0" = Binary64.zero).
  { apply is_zero_eq. apply P. now left. }
  destruct c as [s|]; [|exact Z].
  unfold fill_cell, cell_value.
  destruct (PyStr.mem s placeholders) eqn:M; [|reflexivity].
  rewrite Z. symmetry. apply is_zero_eq. apply P. right. now apply mem_In.
Qed.

(** X1. The asset values of the loaded frame are [clean_number] of the
    text of each cell, and 0.0 for a missing cell: replacing the
    placeholder spellings by "0" on line 174 changes no asset value, since
    [clean_number] sends each of them to 0.0 by itself. *)
Theorem normalise_values (raw : raw_frame) :
  map snd (rows (normalise raw))
  = map (fun r => map cell_value (snd r)) (raw_rows raw).
Proof.
  unfold normalise. cbn [rows]. rewrite !map_map. apply map_ext.
  intros r. cbn [snd]. rewrite map_map. apply map_ext.
  exact clean_filled_cell.
Qed.

Lemma filled_not_placeholder (c : option string) :
  PyStr.mem (fill_cell c) placeholders = false.
Proof.
  destruct c as [s|]; [|reflexivity].
  unfold fill_cell. destruct (PyStr.mem s placeholders) eqn:M;
    [reflexivity | exact M].
Qed.

(** X2. The client list is made of the filled first cells of the rows
    whose first cell is not white-space-only text, in order: line 179
    drops a row only when its identifier is non-empty white space, while a
    missing, empty or placeholder identifier has been rewritten to "0" by
    lines 173-174 and is kept. No identifier of the list is one of the
    placeholder spellings. *)
Theorem client_list_of_load (raw : raw_frame) :
  client_list (load raw)
  = map (fun r => fill_cell (fst r))
        (filter (fun r => negb (whitespace_only (fst r))) (raw_rows raw))
  /\ Forall (fun c => PyStr.mem c placeholders = false)
            (client_list (load raw)).
Proof.
  assert (E : client_list (load raw)
              = map (fun r => fill_cell (fst r))
                    (filter (fun r => negb (whitespace_only (fst r)))
                            (raw_rows raw))).
  { unfold client_list, load, drop_blank_clients, normalise. cbn [rows].
    rewrite map_map, filter_of_map, map_map. cbn [fst].
    rewrite (filter_ext _ (fun r => negb (whitespace_only (fst r)))).
    - reflexivity.
    - intros r. now rewrite filled_blank. }
  split; [exact E|]. rewrite E. apply Forall_map. apply Forall_forall.
  intros r _. apply filled_not_placeholder.
Qed.

(** ** Looking a client up (lines 187-188 and 210-211) *)

Definition index_error : exn :=
  Exn "IndexError" "single positional indexer is out-of-bounds".

(** X3. For an identifier of the client list the lookup returns the
    labelled values of the first row that carries it: rows further down
    with the same identifier are never reported. *)
Theorem assets_of_listed (df : frame) (cname : string) :
  In cname (client_list df) ->
  exists pre vs post,
    rows df = pre ++ (cname, vs) :: post
    /\ ~ In cname (map fst pre)
    /\ assets_of df cname = Ok (combine (columns df) vs).
Proof.
  unfold assets_of, client_list. generalize (columns df) as cols.
  induction (rows df) as [|[c vs] l IH]; intros cols H; [destruct H|].
  cbn [find fst]. destruct (c =? cname) eqn:E.
  - apply String.eqb_eq in E. subst c.
    exists [], vs, l. repeat split. intros [].
  - destruct H as [H|H]; [apply String.eqb_neq in E; now elim E|].
    destruct (IH cols H) as (pre & vs' & post & -> & N & F).
    exists ((c, vs) :: pre), vs', post. repeat split.
    + intros [C|C]; [|now apply N]. cbn [fst] in C. subst c.
      rewrite String.eqb_refl in E. discriminate.
    + exact F.
Qed.

Lemma assets_of_listed_witness :
  exists pre vs post,
    rows (load acme_raw) = pre ++ ("Birla", vs) :: post
    /\ ~ In "Birla" (map fst pre)
    /\ assets_of (load acme_raw) "Birla"
       = Ok (combine (columns (load acme_raw)) vs).
Proof.
  apply (assets_of_listed (load acme_raw) "Birla").
  vm_compute. auto.
Defined.

(** X4. For an identifier that is not in the client list the lookup raises
    [IndexError], as [.iloc[0]] does on an empty selection. *)
Theorem assets_of_unlisted (df : frame) (cname : string) :
  ~ In cname (client_list df) ->
  assets_of df cname = Raise index_error.
Proof.
  unfold assets_of, client_list. intros H.
  destruct (find _ (rows df)) as [r|] eqn:F; [|reflexivity].
  apply find_some in F. destruct F as [Hin E].
  apply String.eqb_eq in E. elim H. rewrite <- E. now apply in_map.
Qed.

Lemma assets_of_unlisted_witness :
  assets_of (load acme_raw) "Tata" = Raise index_error.
Proof.
  apply (assets_of_unlisted (load acme_raw) "Tata").
  vm_compute. intuition discriminate.
Defined.

Lemma listed_is_found (df : frame) (cname : string) :
  In cname (client_list df) ->
  exists vs, assets_of df cname = Ok (combine (columns df) vs).
Proof.
  unfold assets_of, client_list. intros H.
  destruct (find _ (rows df)) as [r|] eqn:F; [now exists (snd r)|].
  apply in_map_iff in H. destruct H as (r & <- & Hr).
  pose proof (find_none _ _ F r Hr) as N. cbn beta in N.
  rewrite String.eqb_refl in N. discriminate N.
Qed.

Lemma listed_not_empty (df : frame) (cname : string) :
  In cname (client_list (drop_blank_clients df)) -> cname <> "".
Proof.
  unfold client_list, drop_blank_clients. cbn [rows]. intros H.
  apply in_map_iff in H. destruct H as (r & <- & Hr).
  apply filter_In in Hr. destruct Hr as [_ Hr]. intros E.
  rewrite E in Hr. discriminate Hr.
Qed.

Section ScriptComposition.
Context {B : Backend} {P : Platform}.

(** What the preview shows under the allocation frame. *)
Definition report_event (cname : string)
    (client_df : list (allocation_row float)) (report_date : date)
    (ev : ui_event) : Prop :=
  (exists pdf_bytes,
      build_client_pdf_bytes cname client_df report_date = Ok pdf_bytes
      /\ ev = DownloadButton "📥 Download Report (PDF)" (Document pdf_bytes)
                (report_name cname) "application/pdf")
  \/ (exists e,
        build_client_pdf_bytes cname client_df report_date = Raise e
        /\ ev = Error ("PDF generation failed: " ++ exn_str e)).

(** X5. Previewing a client taken from the client list of the loaded
    workbook never raises: it shows that client's allocation frame and
    under it exactly one of the download button and the error message. *)
Theorem preview_of_listed (raw : raw_frame) (cname : string)
    (report_date : date) :
  In cname (client_list (load raw)) ->
  exists assets ev,
    assets_of (load raw) cname = Ok assets
    /\ preview (load raw) (Some cname) report_date
       = Ok [ Dataframe (allocation assets); ev ]
    /\ report_event cname (allocation assets) report_date ev.
Proof.
  intros H. pose proof (listed_not_empty _ _ H) as NE.
  destruct (listed_is_found _ _ H) as (vs & F).
  exists (combine (columns (load raw)) vs).
  unfold preview. rewrite F. cbn [bind].
  set (client_df := allocation _). unfold single_report, report_event.
  destruct (build_client_pdf_bytes cname client_df report_date)
    as [pdf|e] eqn:E.
  - eexists. split; [reflexivity|]. split.
    + destruct cname as [|a s]; [now elim NE | reflexivity].
    + left. exists pdf. split; reflexivity.
  - eexists. split; [reflexivity|]. split.
    + destruct cname as [|a s]; [now elim NE | reflexivity].
    + right. exists e. split; reflexivity.
Qed.

(** X6. The batch run stops at the first selected client whose report
    cannot be built and raises that client's exception: no archive is
    offered, not even one with the reports built before it. *)
Theorem generate_zip_aborts (df : frame) (report_date : date)
    (done : list string) (cname : string) (rest : list string) (e : exn) :
  Forall (fun c => exists entry, batch_entry df report_date c = Ok entry)
         done ->
  batch_entry df report_date cname = Raise e ->
  generate_zip df (done ++ cname :: rest) report_date = Raise e.
Proof.
  intros Hdone Hc.
  assert (M : mapM (batch_entry df report_date) (done ++ cname :: rest)
              = Raise e).
  { induction Hdone as [|c done [entry Hentry] _ IH]; simpl.
    - now rewrite Hc.
    - rewrite Hentry. cbn [bind]. now rewrite IH. }
  unfold generate_zip.
  destruct (done ++ cname :: rest) as [|x l] eqn:D.
  - now destruct done.
  - now rewrite M.
Qed.

End ScriptComposition.

Lemma preview_of_listed_witness :
  exists assets ev,
    assets_of (load acme_raw) "Acme" = Ok assets
    /\ preview (B := plain_backend) (P := posix) (load acme_raw)
               (Some "Acme") "03 November 2026"
       = Ok [ Dataframe (allocation (P := posix) assets); ev ]
    /\ report_event (B := plain_backend) "Acme"
                    (allocation (P := posix) assets)
                    "03 November 2026" ev.
Proof.
  apply (preview_of_listed (B := plain_backend) (P := posix) acme_raw "Acme"
                           "03 November 2026").
  vm_compute. auto.
Defined.

Lemma generate_zip_aborts_witness :
  generate_zip (B := no_cover_backend) (P := posix) (load acme_raw)
               ["Acme"; "Birla"] "03 November 2026"
  = Raise (Exn "URLFetchingError" "cover_page_bg.jpg: no such file").
Proof.
  apply (generate_zip_aborts (B := no_cover_backend) (P := posix)
           (load acme_raw) "03 November 2026" [] "Acme" ["Birla"]).
  - constructor.
  - vm_compute. reflexivity.
Defined.

(** ** Amounts that are not numbers (lines 48-51, 70-82) *)

Definition is_finite (x : float) : bool :=
  match x with
  | S754_zero _ | S754_finite _ _ _ => true
  | S754_infinity _ | S754_nan => false
  end.

Definition nan_to_integer : exn :=
  Exn "ValueError" "cannot convert float NaN to integer".

Definition infinity_to_integer : exn :=
  Exn "OverflowError" "cannot convert float infinity to integer".

(** X8. The formatter returns a text for every finite amount, zero and
    negative ones included. For a NaN it raises [ValueError] and for an
    infinity [OverflowError], both out of [int(round(amount))]: the test
    [amount == 0] lets them through. *)
Theorem format_indian_currency_finite (amount : float) :
  match amount with
  | S754_nan =>
      format_indian_currency (Float amount) = Raise nan_to_integer
  | S754_infinity _ =>
      format_indian_currency (Float amount) = Raise infinity_to_integer
  | _ => exists out, format_indian_currency (Float amount) = Ok out
  end.
Proof.
  unfold format_indian_currency. cbn [to_float bind].
  destruct amount as [s|s| |s m e].
  - exists (rupee ++ "0")%string. now destruct s.
  - now destruct s.
  - reflexivity.
  - destruct (Binary64.eqb (S754_finite s m e) Binary64.zero);
      eexists; reflexivity.
Qed.

Lemma format_finite (x : float) :
  is_finite x = true -> exists out, format_indian_currency (Float x) = Ok out.
Proof.
  unfold format_indian_currency. cbn [to_float bind].
  destruct x as [s|s| |s m e]; try discriminate.
  - intros _. exists (rupee ++ "0")%string. now destruct s.
  - intros _. destruct (Binary64.eqb (S754_finite s m e) Binary64.zero);
      eexists; reflexivity.
Qed.

Lemma format_not_finite (x : float) :
  is_finite x = false ->
  exists e, format_indian_currency (Float x) = Raise e
            /\ (e = nan_to_integer \/ e = infinity_to_integer).
Proof.
  destruct x as [s|s| |s m e]; try discriminate; intros _.
  - exists infinity_to_integer. split; [now destruct s | now right].
  - exists nan_to_integer. split; [reflexivity | now left].
Qed.

Lemma mapM_first_raise {X Y} (f : X -> result Y) (l : list X) :
  Exists (fun a => exists e, f a = Raise e) l ->
  exists a e, In a l /\ f a = Raise e /\ mapM f l = Raise e.
Proof.
  induction l as [|a l IH]; intros H; [inversion H|].
  destruct (f a) as [b|e] eqn:Ea.
  - inversion H as [? ? [e He]|? ? H']; subst; [congruence|].
    destruct (IH H') as (a' & e & Hin & Ha' & M).
    exists a', e. split; [now right|]. split; [exact Ha'|].
    simpl. rewrite Ea. cbn [bind]. now rewrite M.
  - exists a, e. split; [now left|]. split; [exact Ea|].
    simpl. now rewrite Ea.
Qed.

Lemma mapM_all_ok {X Y} (f : X -> result Y) (l : list X) :
  Forall (fun a => exists b, f a = Ok b) l -> exists bs, mapM f l = Ok bs.
Proof.
  induction 1 as [|a l [b Hb] _ [bs IH]]; [now exists []|].
  exists (b :: bs). simpl. rewrite Hb. cbn [bind]. now rewrite IH.
Qed.

Section ReportsOfAmounts.
Context {B : Backend}.

Lemma row_html_outcome (row : allocation_row float) :
  if is_finite (value row)
  then exists tr, row_html row = Ok tr
  else exists e, row_html row = Raise e
                 /\ (e = nan_to_integer \/ e = infinity_to_integer).
Proof.
  unfold row_html. destruct (is_finite (value row)) eqn:F.
  - destruct (format_finite _ F) as [out ->]. cbn [bind].
    destruct (asset_type row =? "Total"); eexists; reflexivity.
  - destruct (format_not_finite _ F) as (e & -> & He).
    exists e. split; [reflexivity | exact He].
Qed.

Lemma html_of_finite_rows (client_name : string)
    (client_df : list (allocation_row float)) (report_dt : date)
    (chart_b64 : string) :
  forallb (fun row => is_finite (value row)) client_df = true ->
  exists html,
    build_unified_html client_name client_df report_dt chart_b64 = Ok html.
Proof.
  intros A. unfold build_unified_html. rewrite forallb_forall in A.
  destruct (mapM_all_ok row_html client_df) as [trs ->].
  - apply Forall_forall. intros row Hrow.
    pose proof (row_html_outcome row) as R.
    now rewrite (A row Hrow) in R.
  - eexists. reflexivity.
Qed.

Lemma html_of_other_rows (client_name : string)
    (client_df : list (allocation_row float)) (report_dt : date)
    (chart_b64 : string) :
  forallb (fun row => is_finite (value row)) client_df = false ->
  exists e,
    build_unified_html client_name client_df report_dt chart_b64 = Raise e
    /\ (e = nan_to_integer \/ e = infinity_to_integer).
Proof.
  intros A. unfold build_unified_html.
  assert (E : Exists (fun row => exists e, row_html row = Raise e)
                     client_df).
  { apply Exists_exists.
    induction client_df as [|row l IH]; [discriminate A|].
    simpl in A. apply andb_false_iff in A.
    destruct (is_finite (value row)) eqn:F.
    - destruct A as [A|A]; [discriminate A|].
      destruct (IH A) as (r & Hr & He). exists r. split; [now right|].
      exact He.
    - exists row. split; [now left|].
      pose proof (row_html_outcome row) as R. rewrite F in R.
      destruct R as (e & R & _). now exists e. }
  destruct (mapM_first_raise _ _ E) as (row & e & _ & Hrow & ->).
  exists e. split; [reflexivity|].
  pose proof (row_html_outcome row) as R.
  destruct (is_finite (value row)).
  - destruct R as [tr R]. congruence.
  - destruct R as (e' & R & He). congruence.
Qed.

(** X9. The table of the report is assembled exactly when every row,
    the Total row included, has a finite value; otherwise
    [build_unified_html] raises the formatter's [ValueError] or
    [OverflowError], whatever the client name, date and chart. *)
Theorem build_unified_html_outcome (client_name : string)
    (client_df : list (allocation_row float)) (report_dt : date)
    (chart_b64 : string) :
  if forallb (fun row => is_finite (value row)) client_df
  then exists html,
         build_unified_html client_name client_df report_dt chart_b64
         = Ok html
  else exists e,
         build_unified_html client_name client_df report_dt chart_b64
         = Raise e
         /\ (e = nan_to_integer \/ e = infinity_to_integer).
Proof.
  destruct (forallb _ client_df) eqn:A.
  - now apply html_of_finite_rows.
  - now apply html_of_other_rows.
Qed.

(** X10. A frame with a value that is not finite never becomes a
    report: with any chart renderer and any PDF writer,
    [build_client_pdf_bytes] raises, and the single report shows the
    error message and offers no download. *)
Theorem nonfinite_value_no_report (client_name : string)
    (client_df : list (allocation_row float)) (report_dt : date)
    (row : allocation_row float) :
  In row client_df -> is_finite (value row) = false ->
  exists e,
    build_client_pdf_bytes client_name client_df report_dt = Raise e
    /\ single_report client_name client_df report_dt
       = [ Error ("PDF generation failed: " ++ exn_str e) ].
Proof.
  intros Hin F.
  assert (A : forallb (fun row => is_finite (value row)) client_df = false).
  { destruct (forallb _ client_df) eqn:A; [|reflexivity].
    rewrite forallb_forall in A. rewrite (A row Hin) in F. discriminate. }
  assert (R : exists e,
             build_client_pdf_bytes client_name client_df report_dt
             = Raise e).
  { unfold build_client_pdf_bytes.
    destruct (render_pie _ _) as [chart|e]; cbn [bind];
      [|now exists e].
    destruct (html_of_other_rows client_name client_df report_dt chart A)
      as (e & -> & _).
    now exists e. }
  destruct R as [e R]. exists e. split; [exact R|].
  unfold single_report. now rewrite R.
Qed.

End ReportsOfAmounts.

(** A client of two holdings of 1e308: the total is infinite. *)
Lemma nonfinite_value_no_report_witness :
  exists e,
    build_client_pdf_bytes (B := plain_backend) "Acme"
      (client_rows (P := posix) [("Equity", "1e308"); ("Debt", "1e308")])
      "03 November 2026" = Raise e
    /\ single_report (B := plain_backend) "Acme"
         (client_rows (P := posix) [("Equity", "1e308"); ("Debt", "1e308")])
         "03 November 2026"
       = [ Error ("PDF generation failed: " ++ exn_str e) ].
Proof.
  apply (nonfinite_value_no_report (B := plain_backend) "Acme"
           (client_rows (P := posix) [("Equity", "1e308"); ("Debt", "1e308")])
           "03 November 2026"
           {| asset_type := "Total"; value := Binary64.infinity;
              percent := Binary64.of_Z 100 |}).
  - vm_compute. auto.
  - reflexivity.
Defined.

(** ** Order and equality of non-negative floats *)

Lemma in_units_le (a b : float) :
  nonneg_float a -> nonneg_float b ->
  ((to_Q a <= to_Q b)%Q <-> (in_units a <= in_units b)%Z).
Proof.
  intros Na Nb. pose proof units_pos as U.
  pose proof (to_Q_in_units a Na) as Ua.
  pose proof (to_Q_in_units b Nb) as Ub.
  rewrite Zle_Qle, <- Ua, <- Ub. split; intros H.
  - apply Qmult_le_compat_r; [exact H | lra].
  - apply Qmult_le_r in H; assumption.
Qed.

Lemma finite_units (m : positive) (e : Z) :
  bounded prec emax m e = true ->
  (0 < in_units (S754_finite false m e))%Z.
Proof.
  intros B. destruct (bounded_range m e B) as (E & _ & _).
  cbn [in_units]. assert (0 < 2 ^ (e + 1074))%Z by (apply Z.pow_pos_nonneg; lia).
  lia.
Qed.

(** A lower exponent is a smaller number. *)
Lemma lower_exponent (ma mb : positive) (ea eb : Z) :
  bounded prec emax ma ea = true -> bounded prec emax mb eb = true ->
  (ea < eb)%Z ->
  (Zpos ma * 2 ^ (ea + 1074) < Zpos mb * 2 ^ (eb + 1074))%Z.
Proof.
  intros Ba Bb L.
  destruct (bounded_range ma ea Ba) as (Ea & Ma & _).
  destruct (bounded_range mb eb Bb) as (Eb & _ & Nb).
  specialize (Nb ltac:(lia)).
  assert (P : (0 < 2 ^ (ea + 1074))%Z) by (apply Z.pow_pos_nonneg; lia).
  assert (S : (2 ^ (eb + 1074) = 2 ^ (eb - ea) * 2 ^ (ea + 1074))%Z).
  { rewrite <- Z.pow_add_r by lia. f_equal. lia. }
  assert (T : (2 <= 2 ^ (eb - ea))%Z).
  { change 2%Z with (2 ^ 1)%Z at 1. apply Z.pow_le_mono_r; lia. }
  rewrite S. nia.
Qed.

Lemma leb_sound (a b : float) :
  nonneg_float a -> nonneg_float b ->
  Binary64.leb a b = true -> (to_Q a <= to_Q b)%Q.
Proof.
  intros Na Nb H. apply (in_units_le a b Na Nb).
  destruct a as [sa| | |[] ma ea]; simpl in Na; try contradiction;
    destruct b as [sb| | |[] mb eb]; simpl in Nb; try contradiction.
  - simpl. lia.
  - pose proof (finite_units mb eb Nb). simpl in *. lia.
  - discriminate H.
  - unfold Binary64.leb, SFleb in H. cbn [SFcompare] in H.
    destruct (Z.compare_spec ea eb) as [E|L|G].
    + subst eb. rewrite Pos.compare_cont_spec in H. cbn [Pos.switch_Eq] in H.
      destruct (bounded_range ma ea Na) as (Ea & _ & _).
      assert (P : (0 < 2 ^ (ea + 1074))%Z) by (apply Z.pow_pos_nonneg; lia).
      cbn [in_units].
      destruct (Pos.compare_spec ma mb); try discriminate H; nia.
    + pose proof (lower_exponent ma mb ea eb Na Nb L). cbn [in_units]. lia.
    + discriminate H.
Qed.

(** Two non-negative floats of the same value are the same float, up to
    the sign of a zero. *)
Lemma same_value (a b : float) :
  nonneg_float a -> nonneg_float b -> (to_Q a == to_Q b)%Q ->
  (0 < to_Q a)%Q -> a = b.
Proof.
  intros Na Nb E P.
  assert (L1 : (in_units a <= in_units b)%Z)
    by (apply (in_units_le a b Na Nb); rewrite E; apply Qle_refl).
  assert (L2 : (in_units b <= in_units a)%Z)
    by (apply (in_units_le b a Nb Na); rewrite E; apply Qle_refl).
  destruct a as [sa| | |[] ma ea]; simpl in Na; try contradiction;
    [simpl in P; lra|].
  destruct b as [sb| | |[] mb eb]; simpl in Nb; try contradiction.
  - pose proof (finite_units ma ea Na). simpl in *. lia.
  - cbn [in_units] in L1, L2.
    destruct (Z.compare_spec ea eb) as [Ee|L|G].
    + subst eb. destruct (bounded_range ma ea Na) as (Ea & _ & _).
      assert (Q : (0 < 2 ^ (ea + 1074))%Z) by (apply Z.pow_pos_nonneg; lia).
      assert (Zpos ma = Zpos mb) by nia. congruence.
    + pose proof (lower_exponent ma mb ea eb Na Nb L). lia.
    + pose proof (lower_exponent mb ma eb ea Nb Na G). lia.
Qed.

(** ** The allocation frame in binary64 *)

Lemma percent_Q_mono (v w total : Q) :
  (0 < total)%Q -> (v <= w)%Q -> (percent_Q v total <= percent_Q w total)%Q.
Proof.
  intros T H. rewrite !percent_Q_eq.
  apply RN_mono. apply Qmult_le_compat_r; [|now vm_compute].
  rewrite <- Zle_Qle. apply Qnearest_mono.
  apply RN_mono. apply Qmult_le_compat_r; [|now vm_compute].
  apply RN_mono. apply Qmult_le_compat_r; [|now vm_compute].
  apply RN_mono. apply Qmult_le_compat_r; [exact H|].
  apply Qinv_le_0_compat. lra.
Qed.

Lemma leb_zeros (s t : bool) :
  Binary64.leb (S754_zero s) (S754_zero t) = true.
Proof. reflexivity. Qed.

(** X11. The larger holding never gets the smaller percent: for a client
    whose values are finite and not negative, the percents of the asset
    rows are ordered as their values are, in whatever order the Total was
    added up. *)
Theorem percent_monotone {P : Platform} (assets : list (string * float))
    (r1 r2 : allocation_row float) :
  Forall (fun a => nonneg_float (snd a)) assets ->
  In r1 (asset_rows (allocation assets)) ->
  In r2 (asset_rows (allocation assets)) ->
  Binary64.leb (value r1) (value r2) = true ->
  Binary64.leb (percent r1) (percent r2) = true.
Proof.
  intros Hok H1 H2 L.
  destruct (percent_cases assets Hok) as [Z|(_ & Pt & _ & Rows)].
  - destruct (Z r1 H1) as [s1 ->]. destruct (Z r2 H2) as [s2 ->].
    apply leb_zeros.
  - destruct (Rows r1 H1) as (N1 & _ & [Np1 V1]).
    destruct (Rows r2 H2) as (N2 & _ & [Np2 V2]).
    apply leb_spec; [exact Np1 | exact Np2|]. rewrite V1, V2.
    apply percent_Q_mono; [exact Pt|]. now apply leb_sound.
Qed.

(** X12. Every percent of an asset row is the binary64 number nearest to
    a number of hundredths [k / 100] with [0 <= k <= 10000], for a client
    whose values are finite and not negative; this holds also when the
    Total has overflowed or is 0, where [k] is 0. *)
Theorem percent_is_hundredths {P : Platform}
    (assets : list (string * float)) (r : allocation_row float) :
  Forall (fun a => nonneg_float (snd a)) assets ->
  In r (asset_rows (allocation assets)) ->
  exists k, (0 <= k <= 10000)%Z
            /\ (to_Q (percent r) == RN (inject_Z k / 100))%Q.
Proof.
  intros Hok Hr.
  destruct (percent_cases assets Hok) as [Z|(_ & Pt & _ & Rows)].
  - destruct (Z r Hr) as [s ->]. exists 0%Z. split; [lia|].
    rewrite (RN_comp _ 0) by reflexivity. now rewrite RN_0.
  - destruct (Rows r Hr) as (N & Hv & [_ V]).
    pose proof (to_Q_nonneg _ N) as V0.
    destruct (percent_Q_hundredths (to_Q (value r))
                (to_Q (series_sum (map snd assets))))
      as (k & Hk & E); [split; assumption | exact Pt|].
    exists k. split; [exact Hk|]. now rewrite V, E.
Qed.

(** X13. The Total is at least every value of the client, for values
    that are finite and not negative (an overflowed Total is infinite):
    no rounding of the pairwise sum takes it below one of its terms. *)
Theorem total_at_least_each_value {P : Platform}
    (assets : list (string * float)) :
  Forall (fun a => nonneg_float (snd a)) assets ->
  Forall (fun a => Binary64.leb (snd a) (series_sum (map snd assets)) = true)
         assets.
Proof.
  intros Hok. destruct (total_cases assets Hok) as [I|(Nt & Hall & _)].
  - rewrite I. apply Forall_impl with (2 := Hok). intros a Na.
    destruct (snd a) as [s| | |[] m e]; simpl in Na; try contradiction;
      reflexivity.
  - rewrite Forall_map in Hall. rewrite Forall_forall in Hok, Hall.
    apply Forall_forall. intros a Ha.
    apply leb_spec; [now apply Hok | exact Nt | now apply Hall].
Qed.

(** X14. A holding that is the whole of a positive Total is shown with
    exactly 100 percent. *)
Theorem whole_total_is_100 {P : Platform} (assets : list (string * float))
    (r : allocation_row float) :
  Forall (fun a => nonneg_float (snd a)) assets ->
  In r (asset_rows (allocation assets)) ->
  a_gtb (series_sum (map snd assets)) a_zero = true ->
  series_sum (map snd assets) <> Binary64.infinity ->
  Binary64.leb (series_sum (map snd assets)) (value r) = true ->
  percent r = Binary64.of_Z 100.
Proof.
  intros Hok Hr G Fin L.
  destruct (positive_total_rows assets Hok Fin G) as (Nt & Pt & Rows).
  destruct (Rows r Hr) as (Nv & Hle & [Np Vp]).
  set (total := series_sum (map snd assets)) in *.
  assert (E : (to_Q (value r) == to_Q total)%Q).
  { apply Qle_antisym; [exact Hle | now apply leb_sound]. }
  rewrite percent_Q_eq in Vp.
  assert (V : (to_Q (percent r) == 100)%Q).
  { rewrite Vp.
    assert (S : forall q n, (q == inject_Z n)%Q -> (0 <= n <= 10000)%Z ->
                            (RN q == inject_Z n)%Q).
    { intros q n Eq Hn. rewrite (RN_comp _ _ Eq). now apply RN_small. }
    assert (E1 : (RN (to_Q (value r) / to_Q total) == inject_Z 1)%Q).
    { apply S; [|lia]. rewrite E. change (inject_Z 1) with 1%Q. field. lra. }
    assert (E2 : (RN (RN (to_Q (value r) / to_Q total) * 100)
                  == inject_Z 100)%Q).
    { apply S; [|lia]. rewrite E1. reflexivity. }
    assert (E3 : (RN (RN (RN (to_Q (value r) / to_Q total) * 100) * 100)
                  == inject_Z 10000)%Q).
    { apply S; [|lia]. rewrite E2. reflexivity. }
    apply S; [|lia]. rewrite (Qnearest_comp _ _ E3), Qnearest_Z.
    reflexivity. }
  rewrite hundred_eq. apply same_value.
  - exact Np.
  - exact hundred_bounded.
  - now rewrite V, hundred_value.
  - rewrite V. reflexivity.
Qed.

(** ** A client with nothing held *)

Definition is_zero_float (x : float) : bool :=
  match x with
  | S754_zero _ => true
  | _ => false
  end.

(** A sum of zeros is a zero, and a negative one only when every zero
    added is negative. *)
Lemma added_zeros (vs : list float) (t : float) :
  added vs t -> Forall (fun v => is_zero_float v = true) vs ->
  exists s, t = S754_zero s
            /\ (s = true -> Forall (fun v => v = S754_zero true) vs).
Proof.
  induction 1 as [| |v|l r x y Hl IHl Hr IHr|l l' x Hp Hl IH]; intros Z.
  - exists false. split; [reflexivity | discriminate].
  - exists true. split; [reflexivity | constructor].
  - inversion Z as [|? ? Zv _]; subst.
    destruct v as [s| | |]; try discriminate Zv.
    exists s. split; [reflexivity|]. intros ->. now constructor.
  - apply Forall_app in Z. destruct Z as [Zl Zr].
    destruct (IHl Zl) as (sx & -> & Sx). destruct (IHr Zr) as (sy & -> & Sy).
    change (a_add (S754_zero sx) (S754_zero sy))
      with (Binary64.add (S754_zero sx) (S754_zero sy)).
    destruct sx, sy.
    + exists true. split; [reflexivity|]. intros _. apply Forall_app.
      split; [now apply Sx | now apply Sy].
    + exists false. split; [reflexivity | discriminate].
    + exists false. split; [reflexivity | discriminate].
    + exists false. split; [reflexivity | discriminate].
  - destruct (IH (Permutation_Forall (Permutation_sym Hp) Z))
      as (s & -> & S).
    exists s. split; [reflexivity|]. intros E.
    exact (Permutation_Forall Hp (S E)).
Qed.

Lemma zero_is_not_nan (vs : list float) :
  Forall (fun v => is_zero_float v = true) vs ->
  map (fun v => if a_isnan v then a_zero else v) vs = vs.
Proof.
  intros H. rewrite <- (map_id vs) at 2. apply map_ext_in.
  intros v Hv. rewrite Forall_forall in H. specialize (H v Hv).
  destruct v; try discriminate H; reflexivity.
Qed.

Lemma zero_rows_not_plotted (rows : list (allocation_row float)) :
  forallb (fun r => is_zero_float (value r)) rows = true ->
  filter (fun r => a_gtb (value r) a_zero)
         (filter (fun r => negb (PyStr.lower (asset_type r) =? "total")) rows)
  = [].
Proof.
  induction rows as [|r rows IH]; intros H; [reflexivity|].
  simpl in H. apply andb_true_iff in H. destruct H as [Hr Hs].
  cbn [filter].
  destruct (negb (PyStr.lower (asset_type r) =? "total")); [|now apply IH].
  cbn [filter].
  destruct (value r) as [[]| | |]; try discriminate Hr; now apply IH.
Qed.

(** X15. For a client whose values are all zero (of either sign, and
    also when there is no asset column at all), the Total is a zero, and
    it is -0.0 only when every value is -0.0; every asset row has percent
    0 while the Total row keeps 100, and the chart is asked for no slice at
    all, with the one colour [colors[:max(1, 0)]] leaves. *)
Theorem nothing_held {P : Platform} (assets : list (string * float)) :
  forallb (fun a => is_zero_float (snd a)) assets = true ->
  (exists s,
      allocation assets
      = map (fun a => {| asset_type := fst a; value := snd a;
                         percent := Binary64.zero |}) assets
        ++ [ {| asset_type := "Total"; value := S754_zero s;
                percent := Binary64.of_Z 100 |} ]
      /\ (s = true -> Forall (fun a => snd a = S754_zero true) assets))
  /\ plot_rows (allocation assets) = []
  /\ plot_colors (plot_rows (allocation assets)) = ["#d65a8d"].
Proof.
  intros H.
  assert (Z : Forall (fun v => is_zero_float v = true) (map snd assets)).
  { apply Forall_map. apply Forall_forall. intros a Ha.
    rewrite forallb_forall in H. now apply H. }
  pose proof (series_sum_added (map snd assets)) as A.
  rewrite (zero_is_not_nan _ Z) in A.
  destruct (added_zeros _ _ A Z) as (s & T & S).
  assert (E : allocation assets
              = map (fun a => {| asset_type := fst a; value := snd a;
                                 percent := Binary64.zero |}) assets
                ++ [ {| asset_type := "Total"; value := S754_zero s;
                        percent := Binary64.of_Z 100 |} ]).
  { rewrite allocation_frame, T.
    change (a_gtb (S754_zero s) a_zero) with false. reflexivity. }
  assert (R : plot_rows (allocation assets) = []).
  { rewrite E. unfold plot_rows. apply zero_rows_not_plotted.
    rewrite forallb_app. apply andb_true_iff. split; [|reflexivity].
    rewrite forallb_forall in *. intros r Hr.
    apply in_map_iff in Hr. destruct Hr as (a & <- & Ha). now apply H. }
  split; [|split; [exact R | now rewrite R]].
  exists s. split; [exact E|]. intros Es.
  exact (proj1 (Forall_map snd (fun v => v = S754_zero true) assets) (S Es)).
Qed.

(** ** The Total against the exact sum *)

Definition sumZ (ns : list Z) : Z := fold_right Z.add 0%Z ns.

Lemma of_Z_represents (n : Z) :
  (0 <= n < 2 ^ 53)%Z -> represents (Binary64.of_Z n) (inject_Z n).
Proof. exact (of_nat_mantissa n). Qed.

Lemma sumZ_nonneg (ns : list Z) :
  Forall (fun n => (0 <= n)%Z) ns -> (0 <= sumZ ns)%Z.
Proof. induction 1; simpl; lia. Qed.

(** A non-negative float that is a whole number. *)
Definition whole (v : float) : Prop :=
  nonneg_float v /\ exists k, (0 <= k)%Z /\ (to_Q v == inject_Z k)%Q.

(** A sum of whole numbers that stays below 2^53 is exact, in every order
    of the additions. *)
Lemma added_whole (vs : list float) (t : float) :
  added vs t -> Forall whole vs ->
  (sumQ (map to_Q vs) < inject_Z (2 ^ 53))%Q ->
  whole t /\ (to_Q t == sumQ (map to_Q vs))%Q.
Proof.
  induction 1 as [| |v|l r x y Hl IHl Hr IHr|l l' x Hp Hl IH];
    intros W B.
  - split; [split; [exact I | exists 0%Z; split; [lia | reflexivity]]
           | reflexivity].
  - split; [split; [exact I | exists 0%Z; split; [lia | reflexivity]]
           | reflexivity].
  - inversion W as [|? ? Wv _]; subst. split; [exact Wv|].
    cbn [map sumQ fold_right]. ring.
  - apply Forall_app in W. destruct W as [Wl Wr].
    rewrite map_app, sumQ_app in B |- *.
    assert (Nl : Forall (fun v => (0 <= v)%Q) (map to_Q l)).
    { apply Forall_map. apply Forall_impl with (2 := Wl).
      intros v [N _]. now apply to_Q_nonneg. }
    assert (Nr : Forall (fun v => (0 <= v)%Q) (map to_Q r)).
    { apply Forall_map. apply Forall_impl with (2 := Wr).
      intros v [N _]. now apply to_Q_nonneg. }
    pose proof (sumQ_nonneg _ Nl) as Sl. pose proof (sumQ_nonneg _ Nr) as Sr.
    destruct (IHl Wl ltac:(lra)) as ([Nx (kx & Kx & Ex)] & Vx).
    destruct (IHr Wr ltac:(lra)) as ([Ny (ky & Ky & Ey)] & Vy).
    change (a_add x y) with (Binary64.add x y).
    pose proof (add_spec x y Nx Ny) as R.
    assert (Es : (to_Q x + to_Q y == inject_Z (kx + ky))%Q)
      by (rewrite Ex, Ey, inject_Z_plus; reflexivity).
    apply (rounded_comp _ _ _ Es) in R.
    assert (Bk : (kx + ky < 2 ^ 53)%Z).
    { rewrite Zlt_Qlt, <- Es, Vx, Vy. exact B. }
    assert (I : (RN (inject_Z (kx + ky)) == inject_Z (kx + ky))%Q)
      by (apply RN_int; lia).
    apply rounded_finite in R.
    2:{ rewrite I. apply Qlt_trans with (2 := pow2_1024_big).
        now rewrite <- Zlt_Qlt. }
    destruct R as [Nt Vt]. rewrite I in Vt. split.
    + split; [exact Nt|]. exists (kx + ky)%Z. split; [lia | exact Vt].
    + now rewrite Vt, <- Es, Vx, Vy.
  - assert (W' : Forall whole l)
      by exact (Permutation_Forall (Permutation_sym Hp) W).
    pose proof (sumQ_perm _ _ (Permutation_map to_Q Hp)) as E.
    rewrite <- E in B |- *. now apply IH.
Qed.

Lemma of_Z_whole (n : Z) :
  (0 <= n < 2 ^ 53)%Z -> whole (Binary64.of_Z n).
Proof.
  intros H. destruct (of_Z_represents n H) as [N V].
  split; [exact N|]. exists n. split; [lia | exact V].
Qed.

Lemma sumQ_of_Z (ns : list Z) :
  Forall (fun n => (0 <= n)%Z) ns -> (sumZ ns < 2 ^ 53)%Z ->
  Forall whole (map Binary64.of_Z ns)
  /\ (sumQ (map to_Q (map Binary64.of_Z ns)) == inject_Z (sumZ ns))%Q.
Proof.
  induction 1 as [|n ns Hn Hns IH]; intros B.
  - split; [constructor | reflexivity].
  - pose proof (sumZ_nonneg ns Hns) as S.
    change (sumZ (n :: ns)) with (n + sumZ ns)%Z in *.
    destruct (IH ltac:(lia)) as [W E]. split.
    + constructor; [apply of_Z_whole; lia | exact W].
    + cbn [map sumQ fold_right]. fold (sumQ (map to_Q (map Binary64.of_Z ns))).
      rewrite E, inject_Z_plus.
      destruct (of_Z_represents n ltac:(lia)) as [_ ->]. reflexivity.
Qed.

(** Whole amounts add up exactly. *)
Lemma sum_of_whole_floats {P : Platform} (ns : list Z) :
  Forall (fun n => (0 <= n)%Z) ns -> (sumZ ns < 2 ^ 53)%Z ->
  series_sum (map Binary64.of_Z ns) = Binary64.of_Z (sumZ ns).
Proof.
  intros Hns Hsum.
  destruct (sumQ_of_Z ns Hns Hsum) as [W E].
  assert (N : Forall nonneg_float (map Binary64.of_Z ns))
    by (apply Forall_impl with (2 := W); now intros v [N _]).
  pose proof (series_sum_added (map Binary64.of_Z ns)) as A.
  rewrite (not_nan_kept _ N) in A.
  destruct (added_whole _ _ A W) as [[Nt _] Vt].
  { rewrite E. now rewrite <- Zlt_Qlt. }
  rewrite E in Vt.
  pose proof (sumZ_nonneg ns Hns) as S0.
  destruct (of_Z_represents (sumZ ns) ltac:(lia)) as [Ns Vs].
  destruct (Z.eq_dec (sumZ ns) 0) as [Z|NZ].
  - (* every amount is 0, and every float added is +0.0 *)
    rewrite Z. destruct ns as [|n ns]; [reflexivity|].
    assert (Zs : Forall (fun n => n = 0%Z) (n :: ns)).
    { clear - Hns Z. induction Hns as [|m ms Hm Hms IH]; [constructor|].
      pose proof (sumZ_nonneg ms Hms).
      change (sumZ (m :: ms)) with (m + sumZ ms)%Z in Z.
      constructor; [lia | apply IH; lia]. }
    assert (Zf : Forall (fun v => is_zero_float v = true)
                        (map Binary64.of_Z (n :: ns))).
    { apply Forall_map. apply Forall_impl with (2 := Zs). now intros m ->. }
    destruct (added_zeros _ _ A Zf) as ([|] & T & Sg); [|exact T].
    specialize (Sg eq_refl). inversion Sg as [|? ? F0 _]; subst.
    inversion Zs as [|? ? Z0 _]; subst. discriminate F0.
  - apply same_value; [exact Nt | exact Ns | now rewrite Vt, Vs|].
    rewrite Vt. change 0%Q with (inject_Z 0). rewrite <- Zlt_Qlt. lia.
Qed.

(** X16. Without overflow the Total is the exact sum of the values up to
    a relative error of [n * 2^-53] below and [2 * n * 2^-53] above, for
    [n <= 2^36] values that are finite and not negative, in the order
    pandas adds them as in any other. *)
Theorem total_accuracy {P : Platform} (assets : list (string * float)) :
  Forall (fun a => nonneg_float (snd a)) assets ->
  (Z.of_nat (List.length assets) <= 2 ^ 36)%Z ->
  series_sum (map snd assets) <> Binary64.infinity ->
  let exact := sumQ (map (fun a => to_Q (snd a)) assets) in
  let n := inject_Z (Z.of_nat (List.length assets)) in
  ((1 - n * unit_roundoff) * exact
   <= to_Q (series_sum (map snd assets))
   <= (1 + 2 * (n * unit_roundoff)) * exact)%Q.
Proof.
  intros Hok Hn Fin exact n.
  destruct (total_cases assets Hok) as [I|(_ & _ & B)]; [contradiction|].
  rewrite length_map, map_map in B. fold exact n in B.
  apply B; [apply Qle_refl | now apply rows_within_precision].
Qed.

Lemma total_accuracy_witness :
  let exact := sumQ (map (fun a => to_Q (snd a)) nine_assets) in
  let n := inject_Z (Z.of_nat (List.length nine_assets)) in
  ((1 - n * unit_roundoff) * exact
   <= to_Q (series_sum (P := posix) (map snd nine_assets))
   <= (1 + 2 * (n * unit_roundoff)) * exact)%Q.
Proof.
  apply (total_accuracy (P := posix) nine_assets).
  - repeat (constructor; [vm_compute; reflexivity|]). constructor.
  - vm_compute. discriminate.
  - vm_compute. discriminate.
Defined.

Definition no_row : allocation_row float :=
  {| asset_type := ""; value := Binary64.nan; percent := Binary64.nan |}.

Lemma percent_monotone_witness :
  Binary64.leb
    (percent (nth 2 (asset_rows (allocation (P := posix) nine_assets)) no_row))
    (percent (nth 8 (asset_rows (allocation (P := posix) nine_assets)) no_row))
  = true.
Proof.
  apply (percent_monotone (P := posix) nine_assets).
  - repeat (constructor; [vm_compute; reflexivity|]). constructor.
  - vm_compute. tauto.
  - vm_compute. tauto.
  - vm_compute. reflexivity.
Defined.

Lemma percent_is_hundredths_witness :
  exists k,
    (0 <= k <= 10000)%Z
    /\ (to_Q (percent (nth 2 (asset_rows (allocation (P := posix) nine_assets))
                           no_row))
        == RN (inject_Z k / 100))%Q.
Proof.
  apply (percent_is_hundredths (P := posix) nine_assets).
  - repeat (constructor; [vm_compute; reflexivity|]). constructor.
  - vm_compute. tauto.
Defined.

Lemma total_at_least_each_value_witness :
  Forall (fun a => Binary64.leb (snd a)
                     (series_sum (P := posix) (map snd brim_assets))
                   = true)
         brim_assets.
Proof.
  apply (total_at_least_each_value (P := posix) brim_assets).
  repeat (constructor; [vm_compute; reflexivity|]). constructor.
Defined.

Lemma whole_total_is_100_witness :
  percent (nth 1 (asset_rows
                    (allocation (P := posix)
                       [("Equity", clean_number "Pending");
                        ("Debt", clean_number "0.1")])) no_row)
  = Binary64.of_Z 100.
Proof.
  apply (whole_total_is_100 (P := posix)
           [("Equity", clean_number "Pending");
            ("Debt", clean_number "0.1")]).
  - repeat (constructor; [vm_compute; reflexivity|]). constructor.
  - vm_compute. tauto.
  - vm_compute. reflexivity.
  - vm_compute. discriminate.
  - vm_compute. reflexivity.
Defined.

Lemma nothing_held_witness :
  plot_rows (allocation (P := windows)
               [("Equity", clean_number "0");
                ("Debt", clean_number "Pending");
                ("Gold", clean_number "-0")]) = [].
Proof.
  apply (nothing_held (P := windows)
           [("Equity", clean_number "0");
            ("Debt", clean_number "Pending");
            ("Gold", clean_number "-0")]).
  vm_compute. reflexivity.
Defined.

(** ** Reading back what the formatter printed *)

(** The characters of the decimal text of a number. *)
Definition plain (c : ascii) : bool :=
  PyFloat.is_digit c || Ascii.eqb c "-" || Ascii.eqb c ".".

Definition all_plain (s : string) : Prop :=
  Forall (fun c => plain c = true) (las s).

Lemma plain_cases (c : ascii) :
  plain c = true ->
  In c ["0"; "1"; "2"; "3"; "4"; "5"; "6"; "7"; "8"; "9"; "-"; "."]%char.
Proof.
  destruct c as [[] [] [] [] [] [] [] []]; intros H;
    try discriminate H; simpl; tauto.
Qed.

(** [s.replace(old, "")] leaves a text without the first character of
    [old] as it is. *)
Lemma remove_absent (c0 : ascii) (rest s : string) :
  Forall (fun c => c <> c0) (las s) ->
  PyStr.remove (String c0 rest) s = s.
Proof.
  unfold PyStr.remove. induction s as [|c s IH]; [reflexivity|].
  simpl las. intros H. inversion H as [|? ? Hc Hs]; subst.
  cbn [PyStr.remove_from prefix].
  destruct (ascii_dec c0 c) as [E|_]; [now elim Hc|].
  now rewrite (IH Hs).
Qed.

Lemma plain_without (c0 : ascii) (s : string) :
  plain c0 = false -> all_plain s -> Forall (fun c => c <> c0) (las s).
Proof.
  intros H. apply Forall_impl. intros c Hc E. congruence.
Qed.

Lemma las_rev (s : string) : las (PyStr.rev s) = List.rev (las s).
Proof.
  induction s as [|c s IH]; [reflexivity|].
  simpl. now rewrite las_app, IH.
Qed.

Lemma rev_rev (s : string) : PyStr.rev (PyStr.rev s) = s.
Proof.
  apply las_inj. now rewrite !las_rev, List.rev_involutive.
Qed.

Lemma no_space_starts_plain :
  forallb (fun c =>
             forallb (fun w => match w with
                               | String c0 _ => negb (Ascii.eqb c0 c)
                               | "" => false
                               end)
                     (PyStr.whitespace ++ map PyStr.rev PyStr.whitespace))
          ["0"; "1"; "2"; "3"; "4"; "5"; "6"; "7"; "8"; "9"; "-"; "."]%char
  = true.
Proof. vm_compute. reflexivity. Qed.

Lemma space_at_plain (ws : list string) (c : ascii) (s : string) :
  incl ws (PyStr.whitespace ++ map PyStr.rev PyStr.whitespace) ->
  plain c = true -> PyStr.space_at ws (String c s) = 0%nat.
Proof.
  intros Hws Hc. unfold PyStr.space_at.
  destruct (find _ ws) as [w|] eqn:F; [|reflexivity].
  apply find_some in F. destruct F as [Hin P].
  pose proof no_space_starts_plain as N. rewrite forallb_forall in N.
  specialize (N c (plain_cases c Hc)). rewrite forallb_forall in N.
  specialize (N w (Hws w Hin)).
  destruct w as [|c0 w]; [discriminate N|].
  cbn [prefix] in P. destruct (ascii_dec c0 c) as [E|_]; [|discriminate P].
  subst c0. rewrite Ascii.eqb_refl in N. discriminate N.
Qed.

Lemma lstrip_from_plain (ws : list string) (c : ascii) (s : string) :
  incl ws (PyStr.whitespace ++ map PyStr.rev PyStr.whitespace) ->
  plain c = true ->
  PyStr.lstrip_from ws 0 (String c s) = String c s.
Proof.
  intros Hws Hc. cbn [PyStr.lstrip_from].
  now rewrite (space_at_plain ws c s Hws Hc).
Qed.

(** A text that ends with a plain character has nothing to strip on the
    right, one that starts with one nothing on the left. *)
Lemma rstrip_plain (s : string) (c : ascii) (r : string) :
  PyStr.rev s = String c r -> plain c = true -> PyStr.rstrip s = s.
Proof.
  intros E Hc. unfold PyStr.rstrip. rewrite E.
  rewrite lstrip_from_plain; [| |exact Hc].
  - rewrite <- E. apply rev_rev.
  - intros w Hw. apply in_or_app. now right.
Qed.

Lemma lstrip_plain (c : ascii) (s : string) :
  plain c = true -> PyStr.lstrip (String c s) = String c s.
Proof.
  intros Hc. unfold PyStr.lstrip. apply lstrip_from_plain; [|exact Hc].
  intros w Hw. apply in_or_app. now left.
Qed.

Lemma rev_plain (s : string) :
  all_plain s -> s <> "" ->
  exists c r, PyStr.rev s = String c r /\ plain c = true.
Proof.
  intros H NE.
  assert (A : all_plain (PyStr.rev s)).
  { unfold all_plain in *. rewrite las_rev. rewrite Forall_forall in *.
    intros c Hc. apply H. now apply in_rev. }
  destruct (PyStr.rev s) as [|c r] eqn:E.
  - apply (f_equal PyStr.rev) in E. rewrite rev_rev in E. now elim NE.
  - exists c, r. split; [reflexivity|]. now inversion A.
Qed.

Lemma strip_plain (s : string) :
  all_plain s -> s <> "" -> PyStr.strip s = s.
Proof.
  intros H NE. destruct (rev_plain s H NE) as (c & r & E & Hc).
  unfold PyStr.strip. rewrite (rstrip_plain s c r E Hc).
  destruct s as [|c' s']; [now elim NE|].
  apply lstrip_plain. now inversion H.
Qed.

Lemma strip_space_plain (s : string) :
  all_plain s -> s <> "" -> PyStr.strip (String " " s) = s.
Proof.
  intros H NE. destruct (rev_plain s H NE) as (c & r & E & Hc).
  unfold PyStr.strip.
  rewrite (rstrip_plain (String " " s) c (r ++ " ")).
  - destruct s as [|c' s']; [now elim NE|].
    assert (P : plain c' = true) by now inversion H.
    unfold PyStr.lstrip.
    change (PyStr.lstrip_from PyStr.whitespace 0 (String " " (String c' s')))
      with (PyStr.lstrip_from PyStr.whitespace 0 (String c' s')).
    apply lstrip_from_plain; [|exact P].
    intros w Hw. apply in_or_app. now left.
  - cbn [PyStr.rev]. now rewrite E.
  - exact Hc.
Qed.

(** The number a string of digits stands for, read from the left as
    [PyFloat.digits] does. *)
Fixpoint uint_value (d : Decimal.uint) (acc : N) : N :=
  match d with
  | Decimal.Nil => acc
  | Decimal.D0 l => uint_value l (10 * acc + 0)
  | Decimal.D1 l => uint_value l (10 * acc + 1)
  | Decimal.D2 l => uint_value l (10 * acc + 2)
  | Decimal.D3 l => uint_value l (10 * acc + 3)
  | Decimal.D4 l => uint_value l (10 * acc + 4)
  | Decimal.D5 l => uint_value l (10 * acc + 5)
  | Decimal.D6 l => uint_value l (10 * acc + 6)
  | Decimal.D7 l => uint_value l (10 * acc + 7)
  | Decimal.D8 l => uint_value l (10 * acc + 8)
  | Decimal.D9 l => uint_value l (10 * acc + 9)
  end%N.

Abbreviation digits_text := NilEmpty.string_of_uint.

Lemma digits_of_uint (d : Decimal.uint) (acc : N) (k : nat) :
  PyFloat.digits (digits_text d) acc k
  = (uint_value d acc, (k + String.length (digits_text d))%nat, "").
Proof.
  revert acc k.
  induction d as [|d IH|d IH|d IH|d IH|d IH|d IH|d IH|d IH|d IH|d IH];
    intros acc k;
    [simpl; now rewrite Nat.add_0_r | ..];
    cbn [digits_text NilEmpty.string_of_uint PyFloat.digits String.length
         uint_value];
    change (PyFloat.is_digit _) with true; cbv iota;
    rewrite IH;
    (apply f_equal2; [apply f_equal2; [reflexivity | lia] | reflexivity]).
Qed.

Lemma uint_value_acc (d : Decimal.uint) (a : positive) :
  uint_value d (N.pos a) = N.pos (Pos.of_uint_acc d a).
Proof.
  revert a.
  induction d as [|d IH|d IH|d IH|d IH|d IH|d IH|d IH|d IH|d IH|d IH];
    intros a; [reflexivity | ..];
    cbn [uint_value Pos.of_uint_acc]; rewrite <- IH; f_equal; lia.
Qed.

Lemma uint_value_0 (d : Decimal.uint) : uint_value d 0 = Pos.of_uint d.
Proof.
  induction d as [|d IH|d IH|d IH|d IH|d IH|d IH|d IH|d IH|d IH|d IH];
    [reflexivity | exact IH | ..];
    cbn [uint_value Pos.of_uint]; rewrite <- uint_value_acc; reflexivity.
Qed.

Lemma digits_text_plain (d : Decimal.uint) : all_plain (digits_text d).
Proof.
  unfold all_plain.
  induction d; simpl; constructor; try assumption; reflexivity.
Qed.

Lemma digits_text_sign (d : Decimal.uint) :
  PyFloat.sign (digits_text d) = (false, digits_text d).
Proof. destruct d; reflexivity. Qed.

Lemma digits_text_lower (d : Decimal.uint) :
  PyStr.lower (digits_text d) = digits_text d.
Proof. induction d; simpl; [reflexivity | ..]; now rewrite IHd. Qed.

Lemma digits_text_no_word (d : Decimal.uint) (w : string) :
  In w ["inf"; "infinity"; "nan"; "None"] -> (digits_text d =? w) = false.
Proof.
  intros H. simpl in H.
  destruct H as [<-|[<-|[<-|[<-|[]]]]]; destruct d; reflexivity.
Qed.

Lemma underscores_ok_plain (prev : ascii) (s : string) :
  prev <> PyFloat.underscore -> all_plain s ->
  PyFloat.underscores_ok prev s = true.
Proof.
  revert prev. induction s as [|c s IH]; intros prev Hp H.
  - simpl. now destruct (Ascii.eqb_spec prev PyFloat.underscore).
  - inversion H as [|? ? Hc Hs]; subst.
    assert (Nc : c <> PyFloat.underscore) by (intros ->; discriminate Hc).
    cbn [PyFloat.underscores_ok].
    destruct (Ascii.eqb_spec c PyFloat.underscore) as [E|_]; [now elim Nc|].
    destruct (Ascii.eqb_spec prev PyFloat.underscore) as [E|_];
      [now elim Hp|].
    cbn [negb orb andb]. now apply IH.
Qed.

(** [float] on the decimal text of an integer, with or without a minus
    sign. *)
Lemma float_of_integer_text (neg : bool) (d : Decimal.uint) :
  d <> Decimal.Nil ->
  let text := ((if neg then "-" else "") ++ digits_text d)%string in
  PyFloat.of_string text = Ok (of_decimal neg (uint_value d 0) 0)
  /\ all_plain text /\ text <> ""
  /\ PyStr.mem text [""; "nan"; "None"] = false.
Proof.
  intros ND text.
  assert (P : all_plain text).
  { unfold all_plain, text. rewrite las_app. apply Forall_app. split.
    - destruct neg; repeat constructor.
    - apply digits_text_plain. }
  assert (NE : text <> "").
  { unfold text. destruct neg; [discriminate|]. destruct d; try discriminate.
    now elim ND. }
  assert (L : (0 < String.length (digits_text d))%nat).
  { destruct d; simpl; try lia. now elim ND. }
  split; [|split; [exact P|split; [exact NE|]]].
  - unfold PyFloat.of_string. rewrite (strip_plain text P NE).
    rewrite underscores_ok_plain; [|discriminate | exact P].
    cbn [negb]. rewrite remove_absent by (now apply plain_without).
    assert (S : PyFloat.sign text = (neg, digits_text d)).
    { unfold text. destruct neg; [reflexivity|]. apply digits_text_sign. }
    rewrite S, digits_text_lower.
    rewrite !digits_text_no_word by (simpl; tauto). cbn [orb].
    unfold PyFloat.decimal. rewrite digits_of_uint. cbn [Nat.add].
    destruct (String.length (digits_text d)) as [|k] eqn:E; [lia|].
    reflexivity.
  - unfold text. destruct neg; [reflexivity|].
    cbn [append]. unfold PyStr.mem. cbn [existsb].
    rewrite (digits_text_no_word d "nan"), (digits_text_no_word d "None")
      by (simpl; tauto).
    destruct d; try reflexivity. now elim ND.
Qed.

(** The decimal text of an integer: an optional minus sign and digits. *)
Lemma str_int_text (n : Z) :
  exists d, d <> Decimal.Nil
            /\ str_int n
               = ((if (n <? 0)%Z then "-" else "") ++ digits_text d)%string
            /\ uint_value d 0 = Z.abs_N n.
Proof.
  assert (T : forall p, Pos.to_uint p <> Decimal.Nil).
  { intros p E. pose proof (DecimalPos.Unsigned.of_to p) as H.
    rewrite E in H. discriminate H. }
  assert (U : forall p,
             NilZero.string_of_uint (Pos.to_uint p)
             = digits_text (Pos.to_uint p)).
  { intros p. specialize (T p). now destruct (Pos.to_uint p). }
  destruct n as [|p|p].
  - exists (Decimal.D0 Decimal.Nil). repeat split. discriminate.
  - exists (Pos.to_uint p). split; [apply T|]. split.
    + unfold str_int. cbn [Z.to_int NilZero.string_of_int Z.ltb Z.compare].
      now rewrite U.
    + rewrite uint_value_0. apply DecimalPos.Unsigned.of_to.
  - exists (Pos.to_uint p). split; [apply T|]. split.
    + unfold str_int. cbn [Z.to_int NilZero.string_of_int Z.ltb Z.compare].
      now rewrite U.
    + rewrite uint_value_0. apply DecimalPos.Unsigned.of_to.
Qed.

Lemma of_decimal_integer (n : Z) :
  of_decimal (n <? 0)%Z (Z.abs_N n) 0 = Binary64.of_Z n.
Proof.
  destruct n as [|p|p]; [reflexivity | |];
    unfold of_decimal, Binary64.of_Z; cbn [Z.abs_N Z.ltb Z.compare];
    change (Z.to_pos (10 ^ 0)) with 1%positive; now rewrite Pos.mul_1_r.
Qed.

Lemma chars_of_parts (P : ascii -> Prop) (parts : list string) :
  Forall P (las (cat parts)) -> Forall (fun p => Forall P (las p)) parts.
Proof.
  induction parts as [|p parts IH]; intros H; [constructor|].
  simpl in H. rewrite las_app in H. apply Forall_app in H.
  destruct H as [Hp Hs]. constructor; [exact Hp | now apply IH].
Qed.

Lemma chars_of_join (P : ascii -> Prop) (sep : string) (parts : list string) :
  Forall P (las sep) -> Forall (fun p => Forall P (las p)) parts ->
  Forall P (las (PyStr.join sep parts)).
Proof.
  intros Hsep. induction 1 as [|p parts Hp Hs IH]; [constructor|].
  destruct parts as [|q parts]; [exact Hp|].
  change (PyStr.join sep (p :: q :: parts))
    with (p ++ sep ++ PyStr.join sep (q :: parts))%string.
  rewrite !las_app. apply Forall_app. split; [exact Hp|].
  apply Forall_app. split; [exact Hsep | exact IH].
Qed.

Lemma str_int_plain (n : Z) :
  all_plain (str_int n) /\ str_int n <> ""
  /\ PyStr.mem (str_int n) [""; "nan"; "None"] = false
  /\ PyFloat.of_string (str_int n) = Ok (Binary64.of_Z n).
Proof.
  destruct (str_int_text n) as (d & ND & -> & V).
  destruct (float_of_integer_text (n <? 0)%Z d ND) as (F & P & NE & M).
  repeat split; try assumption.
  rewrite F, V. f_equal. apply of_decimal_integer.
Qed.

Lemma clean_text_integer (n : Z) : clean_text (str_int n) = Binary64.of_Z n.
Proof.
  destruct (str_int_plain n) as (_ & _ & M & F).
  unfold clean_text. now rewrite M, F.
Qed.

Lemma clean_number_integer (n : Z) :
  clean_number (str_int n) = Binary64.of_Z n.
Proof.
  destruct (str_int_plain n) as (P & NE & _ & _).
  rewrite clean_number_stripped, <- (clean_text_integer n).
  f_equal. unfold stripped.
  rewrite (remove_absent _ _ (str_int n)) by (now apply plain_without).
  rewrite (remove_absent _ _ (str_int n)) by (now apply plain_without).
  now apply strip_plain.
Qed.

(** X17. Whole amounts add up exactly: for cells that hold the decimal
    text of non-negative integers with a sum below 2^53, the Total
    computed in binary64 is the float of that sum, without any rounding,
    in the order pandas adds the values as in any other. *)
Theorem whole_amounts_total {P : Platform} (amounts : list Z) :
  Forall (fun n => (0 <= n)%Z) amounts -> (sumZ amounts < 2 ^ 53)%Z ->
  series_sum (map (fun n => clean_number (str_int n)) amounts)
  = Binary64.of_Z (sumZ amounts).
Proof.
  intros Hns Hsum.
  rewrite (map_ext _ Binary64.of_Z clean_number_integer).
  now apply sum_of_whole_floats.
Qed.

Lemma whole_amounts_total_witness :
  series_sum (P := posix)
    (map clean_number
         ["50000"; "1234"; "0"; "7"; "300"; "12"; "9000"; "41"; "5"])
  = Binary64.of_Z 60599.
Proof.
  apply (whole_amounts_total (P := posix)
           [50000; 1234; 0; 7; 300; 12; 9000; 41; 5]%Z).
  - repeat constructor; lia.
  - vm_compute. reflexivity.
Defined.

(** The grouped text of an integer is read back as that integer. *)
Lemma clean_number_grouped (n : Z) :
  clean_number (rupee ++ PyStr.join "," (indian_groups (str_int n)))
  = Binary64.of_Z n.
Proof.
  destruct (str_int_plain n) as (P & NE & _ & _).
  set (t := str_int n) in *.
  set (J := PyStr.join "," (indian_groups t)).
  rewrite clean_number_stripped, <- (clean_text_integer n). fold t.
  f_equal. unfold stripped.
  assert (R : PyStr.remove "₹" (rupee ++ J) = String " " J).
  { change (PyStr.remove "₹" (rupee ++ J))
      with (String " " (PyStr.remove "₹" J)).
    f_equal. apply remove_absent. unfold J.
    apply chars_of_join; [repeat constructor; discriminate|].
    apply chars_of_parts. rewrite cat_indian_groups.
    now apply plain_without. }
  rewrite R, remove_comma_cons. cbn [Ascii.eqb Bool.eqb].
  unfold J. rewrite remove_comma_join, cat_indian_groups.
  rewrite remove_absent by (now apply plain_without).
  now apply strip_space_plain.
Qed.

(** X18. What the formatter prints, the normaliser reads back: the text
    printed for an amount is turned by [clean_number] into the float of the
    integer the amount was rounded to, so that for a whole amount [n] with
    [0 <= n <= 2^53], [clean_number(format_indian_currency(n))] is
    [float(n)]. *)
Theorem clean_number_reads_formatted :
  (forall amount n,
      round_int amount = Ok n ->
      exists out,
        format_indian_currency (Float amount) = Ok out
        /\ clean_number out = Binary64.of_Z n)
  /\ (forall n,
        (0 <= n <= 2 ^ 53)%Z ->
        exists out,
          format_indian_currency (Int n) = Ok out
          /\ of_int n = Ok (clean_number out)).
Proof.
  assert (G : forall amount n,
             round_int amount = Ok n ->
             exists out,
               format_indian_currency (Float amount) = Ok out
               /\ clean_number out = Binary64.of_Z n).
  { intros amount n Hn. eexists. split; [apply (format_rounded _ _ Hn)|].
    apply clean_number_grouped. }
  split; [exact G|]. intros n Hn.
  destruct (Z.eq_dec n 0) as [->|NZ].
  { exists "₹ 0". split; vm_compute; reflexivity. }
  destruct (round_trip_small n ltac:(lia)) as (x & Hx & Hr).
  destruct (G x n Hr) as (out & F & C). exists out. split.
  - unfold format_indian_currency in *. cbn [to_float] in *.
    rewrite Hx. exact F.
  - rewrite C. unfold of_int in *.
    destruct (Binary64.of_Z n); try discriminate Hx; reflexivity.
Qed.

Lemma clean_number_reads_formatted_witness :
  exists out,
    format_indian_currency (Int 1234567) = Ok out
    /\ of_int 1234567 = Ok (clean_number out).
Proof.
  apply (proj2 clean_number_reads_formatted 1234567%Z).
  vm_compute. split; discriminate.
Defined.

(** ** Decimal text to binary64 *)

(** The division [strtod] is modelled with, on any two positive integers:
    the quotient rounded to nearest. *)
Lemma div_core_spec (m1 m2 : positive) :
  rounded (inject_Z (Zpos m1) / inject_Z (Zpos m2))
          (let '(mz, ez, lz) :=
             SFdiv_core_binary prec emax (Zpos m1) 0 (Zpos m2) 0 in
           binary_round_aux prec emax false mz ez lz).
Proof.
  assert (Pm : (0 < inject_Z (Zpos m2))%Q)
    by (change 0%Q with (inject_Z 0); rewrite <- Zlt_Qlt; lia).
  unfold SFdiv_core_binary. simpl Zdigits2.
  set (d1 := Zpos (digits2_pos m1)). set (d2 := Zpos (digits2_pos m2)).
  set (e' := Z.min (fexp prec emax (d1 + 0 - (d2 + 0))) (0 - 0)).
  set (s := (0 - 0 - e')%Z).
  assert (Hs : (0 <= s)%Z) by (subst s e'; lia).
  set (m' := match s with
             | Zpos _ => Z.shiftl (Zpos m1) s
             | Z0 => Zpos m1
             | Zneg _ => 0%Z
             end).
  assert (Hm' : m' = (Zpos m1 * 2 ^ s)%Z).
  { subst m'. destruct s as [|p|p]; [simpl; lia | | lia].
    now rewrite Z.shiftl_mul_pow2 by lia. }
  pose proof (Z_div_mod m' (Zpos m2) ltac:(lia)) as DM.
  destruct (Z.div_eucl m' (Zpos m2)) as [q r]. destruct DM as [DM R].
  assert (Hq : (0 <= q)%Z) by nia.
  apply rounds_to_rounded.
  assert (V : ((inject_Z q + inject_Z r / inject_Z (Zpos m2))
               * pow2 (e' + 1074)
               == inject_Z (Zpos m1) / inject_Z (Zpos m2) * units)%Q).
  { rewrite units_pow2, pow2_add.
    assert (M : (inject_Z q + inject_Z r / inject_Z (Zpos m2)
                 == inject_Z (Zpos m1) * pow2 s / inject_Z (Zpos m2))%Q).
    { assert (E : (inject_Z (Zpos m1) * pow2 s
                   == inject_Z (Zpos m2 * q + r))%Q).
      { rewrite pow2_Z by lia. rewrite <- inject_Z_mult, <- Hm', DM.
        reflexivity. }
      rewrite E, inject_Z_plus, inject_Z_mult. field. lra. }
    rewrite M.
    assert (S : (1 == pow2 s * pow2 e')%Q).
    { rewrite <- pow2_add. now replace (s + e')%Z with 0%Z by (subst s; lia). }
    pose proof (pow2_gt0 e'). pose proof (pow2_gt0 s).
    assert (S' : (pow2 s == / pow2 e')%Q) by (field_simplify_eq; lra).
    rewrite S'. field. split; lra. }
  rewrite <- (nearest_on_grid_comp _ _ V).
  apply binary_round_aux_spec.
  - exact Hq.
  - apply new_location_spec. lia.
  - rewrite fexp_eq.
    assert (He' : e' = Z.min (Z.max (d1 + 0 - (d2 + 0) - 53) (-1074))
                             (0 - 0)) by reflexivity.
    assert (Es : s = (0 - 0 - e')%Z) by reflexivity.
    clearbody s e'.
    set (D := (d1 + 0 - (d2 + 0))%Z) in *.
    destruct (Z.le_gt_cases (D - 53) (-1074)) as [Sub|Nor]; [lia|].
    pose proof (digits2_pos_bounds m1) as [X1 X2].
    pose proof (digits2_pos_bounds m2) as [Y1 Y2].
    fold d1 in X1, X2. fold d2 in Y1, Y2.
    assert (Hd1 : (0 < d1)%Z) by (subst d1; lia).
    assert (Hd2 : (0 < d2)%Z) by (subst d2; lia).
    destruct (Z.le_gt_cases (D - 53) 0) as [Small|Big].
    + set (t := (d1 + s - d2 - 1)%Z).
      assert (Et : t = (d1 + s - d2 - 1)%Z) by reflexivity.
      clearbody t.
      assert (Ht : (52 <= t)%Z) by (subst D; lia).
      assert (Q1 : (2 ^ t <= q)%Z).
      { assert (A : (2 ^ (d1 - 1 + s) <= m')%Z).
        { rewrite Hm', Z.pow_add_r by lia.
          apply Z.mul_le_mono_nonneg_r; [apply Z.pow_nonneg; lia | exact X1]. }
        assert (B : (2 ^ (d1 - 1 + s) = 2 ^ t * 2 ^ d2)%Z).
        { rewrite <- Z.pow_add_r by lia. f_equal. lia. }
        assert (P2 : (0 < 2 ^ t)%Z) by (apply Z.pow_pos_nonneg; lia).
        nia. }
      assert (Dq : (t + 1 <= Zdigits2 q)%Z).
      { assert (0 < 2 ^ t)%Z by (apply Z.pow_pos_nonneg; lia).
        destruct q as [|p|p]; [lia | simpl | lia].
        pose proof (digits2_pos_bounds p) as [_ P2].
        assert (T : (2 ^ t < 2 ^ Zpos (digits2_pos p))%Z) by lia.
        apply Z.pow_lt_mono_r_iff in T; lia. }
      subst D. lia.
    + (* the quotient has more than 53 bits: no shift was made *)
      assert (E0 : e' = 0%Z) by lia. assert (S0 : s = 0%Z) by lia.
      set (t := (d1 - d2 - 1)%Z).
      assert (Et : t = (d1 - d2 - 1)%Z) by reflexivity.
      clearbody t.
      assert (Ht : (53 <= t)%Z) by (subst D; lia).
      assert (Q1 : (2 ^ t <= q)%Z).
      { assert (A : (2 ^ (d1 - 1) <= m')%Z)
          by (rewrite Hm', S0, Z.pow_0_r; lia).
        assert (B : (2 ^ (d1 - 1) = 2 ^ t * 2 ^ d2)%Z).
        { rewrite <- Z.pow_add_r by lia. f_equal. lia. }
        assert (P2 : (0 < 2 ^ t)%Z) by (apply Z.pow_pos_nonneg; lia).
        nia. }
      assert (Dq : (t + 1 <= Zdigits2 q)%Z).
      { assert (0 < 2 ^ t)%Z by (apply Z.pow_pos_nonneg; lia).
        destruct q as [|p|p]; [lia | simpl | lia].
        pose proof (digits2_pos_bounds p) as [_ P2].
        assert (T : (2 ^ t < 2 ^ Zpos (digits2_pos p))%Z) by lia.
        apply Z.pow_lt_mono_r_iff in T; lia. }
      subst D. lia.
Qed.

Lemma of_decimal_rounded (m : N) (nf : nat) :
  rounded (inject_Z (Z.of_N m) / inject_Z (10 ^ Z.of_nat nf))
          (of_decimal false m (- Z.of_nat nf)).
Proof.
  assert (P : (0 < inject_Z (10 ^ Z.of_nat nf))%Q).
  { change 0%Q with (inject_Z 0). rewrite <- Zlt_Qlt.
    apply Z.pow_pos_nonneg; lia. }
  destruct m as [|p].
  { apply rounded_zero. cbn [Z.of_N]. change (inject_Z 0) with 0%Q.
    field. lra. }
  destruct nf as [|k].
  - cbn [Z.of_nat Z.opp of_decimal]. change (Z.to_pos (10 ^ 0)) with 1%positive.
    rewrite Pos.mul_1_r. pose proof (binary_round_spec p 0) as R.
    revert R. apply rounded_comp. cbn [Z.of_N]. change (pow2 0) with 1%Q.
    change (inject_Z (10 ^ 0)) with 1%Q. field.
  - change (- Z.of_nat (S k))%Z with (Zneg (Pos.of_succ_nat k)).
    cbn [of_decimal].
    pose proof (div_core_spec p (10 ^ Pos.of_succ_nat k)) as R.
    revert R. apply rounded_comp. cbn [Z.of_N].
    replace (Z.of_nat (S k)) with (Zpos (Pos.of_succ_nat k)) by lia.
    now rewrite Pos2Z.inj_pow.
Qed.

(** ** Reading a decimal text *)

Lemma digits_then (d : Decimal.uint) (r : string) (acc : N) (k : nat) :
  match r with
  | String c _ => PyFloat.is_digit c = false
  | "" => True
  end ->
  PyFloat.digits (digits_text d ++ r) acc k
  = (uint_value d acc, (k + String.length (digits_text d))%nat, r).
Proof.
  intros Hr. revert acc k.
  induction d as [|d IH|d IH|d IH|d IH|d IH|d IH|d IH|d IH|d IH|d IH];
    intros acc k.
  { cbn [digits_text NilEmpty.string_of_uint append String.length uint_value].
    rewrite Nat.add_0_r. destruct r as [|c r]; [reflexivity|].
    cbn [PyFloat.digits]. now rewrite Hr. }
  all: cbn [digits_text NilEmpty.string_of_uint PyFloat.digits String.length
            uint_value append];
    change (PyFloat.is_digit _) with true; cbv iota;
    rewrite IH;
    (apply f_equal2; [apply f_equal2; [reflexivity | lia] | reflexivity]).
Qed.

Lemma lower_plain (s : string) : all_plain s -> PyStr.lower s = s.
Proof.
  unfold all_plain. induction s as [|c s IH]; [reflexivity|].
  simpl las. intros H. inversion H as [|? ? Hc Hs]; subst.
  cbn [PyStr.lower]. rewrite (IH Hs). f_equal.
  pose proof (plain_cases c Hc) as C. simpl in C.
  repeat (destruct C as [<-|C]; [reflexivity|]). destruct C.
Qed.

(** Digits, a point, digits. *)
Definition decimal_text (ip fp : Decimal.uint) : string :=
  (digits_text ip ++ String "." (digits_text fp))%string.

(** The number that text writes. *)
Definition decimal_value (ip fp : Decimal.uint) : Q :=
  (inject_Z (Z.of_N (uint_value fp (uint_value ip 0)))
   / inject_Z (10 ^ Z.of_nat (String.length (digits_text fp))))%Q.

Lemma decimal_text_plain (ip fp : Decimal.uint) :
  all_plain (decimal_text ip fp) /\ decimal_text ip fp <> "".
Proof.
  split.
  - unfold all_plain, decimal_text. rewrite las_app. apply Forall_app.
    split; [apply digits_text_plain|]. constructor; [reflexivity|].
    apply digits_text_plain.
  - unfold decimal_text. destruct ip; discriminate.
Qed.

Lemma float_of_decimal_text (ip fp : Decimal.uint) :
  (0 < String.length (digits_text ip) + String.length (digits_text fp))%nat ->
  PyFloat.of_string (decimal_text ip fp)
  = Ok (of_decimal false (uint_value fp (uint_value ip 0))
                   (- Z.of_nat (String.length (digits_text fp)))).
Proof.
  intros L. destruct (decimal_text_plain ip fp) as [P NE].
  unfold PyFloat.of_string. rewrite (strip_plain _ P NE).
  rewrite underscores_ok_plain; [|discriminate | exact P].
  cbn [negb]. rewrite remove_absent by (now apply plain_without).
  assert (S : PyFloat.sign (decimal_text ip fp) = (false, decimal_text ip fp))
    by (unfold decimal_text; destruct ip; reflexivity).
  rewrite S, (lower_plain _ P).
  assert (W : forall w, In w ["inf"; "infinity"; "nan"] ->
                        (decimal_text ip fp =? w) = false).
  { intros w Hw. simpl in Hw. unfold decimal_text.
    destruct Hw as [<-|[<-|[<-|[]]]]; destruct ip; reflexivity. }
  rewrite !W by (simpl; tauto). cbn [orb].
  unfold PyFloat.decimal, decimal_text.
  rewrite digits_then by reflexivity.
  rewrite digits_of_uint. cbn [Nat.add].
  destruct (String.length (digits_text ip) + String.length (digits_text fp)
            =? 0)%nat eqn:E; [apply Nat.eqb_eq in E; lia|].
  reflexivity.
Qed.

(** X19. Decimal text is read to the nearest float: for digits, a point
    and digits (at least one digit in all), [clean_number] returns the
    binary64 number nearest to the number written, ties to even, and
    infinity when that number rounds to 2^1024 or more. *)
Theorem clean_number_decimal (ip fp : Decimal.uint) :
  (0 < String.length (digits_text ip) + String.length (digits_text fp))%nat ->
  rounded (decimal_value ip fp) (clean_number (decimal_text ip fp)).
Proof.
  intros L. destruct (decimal_text_plain ip fp) as [P NE].
  assert (C : clean_number (decimal_text ip fp)
              = of_decimal false (uint_value fp (uint_value ip 0))
                  (- Z.of_nat (String.length (digits_text fp)))).
  { rewrite clean_number_stripped. unfold stripped.
    rewrite (remove_absent _ _ (decimal_text ip fp))
      by (now apply plain_without).
    rewrite (remove_absent _ _ (decimal_text ip fp))
      by (now apply plain_without).
    rewrite (strip_plain _ P NE). unfold clean_text.
    assert (M : PyStr.mem (decimal_text ip fp) [""; "nan"; "None"] = false)
      by (unfold decimal_text; destruct ip; reflexivity).
    rewrite M. cbn [negb].
    now rewrite (float_of_decimal_text ip fp L). }
  rewrite C. apply of_decimal_rounded.
Qed.

Lemma clean_number_decimal_witness :
  rounded (123450 # 100) (clean_number "1234.50").
Proof.
  apply (clean_number_decimal
           (Decimal.D1 (Decimal.D2 (Decimal.D3 (Decimal.D4 Decimal.Nil))))
           (Decimal.D5 (Decimal.D0 Decimal.Nil))).
  vm_compute. lia.
Defined.

(** ** Negative amounts in the formatter *)

Lemma drop_last_cons (k : nat) (c : ascii) (s : string) :
  (k <= String.length s)%nat ->
  PyStr.drop_last k (String c s) = String c (PyStr.drop_last k s).
Proof.
  intros H. unfold PyStr.drop_last. cbn [String.length].
  replace (S (String.length s) - k)%nat with (S (String.length s - k))
    by lia.
  reflexivity.
Qed.

(** The chunks of two, taken from the right, of a text with an odd number
    of characters start with its first character alone. *)
Lemma first_chunk_alone (k : nat) (c : ascii) (s : string) :
  String.length s = (2 * k)%nat ->
  exists rest,
    chunks2_from_right (String c s) = String c "" :: rest
    /\ (s <> "" -> rest <> []).
Proof.
  revert s. induction k as [|k IH]; intros s L.
  - destruct s; [|discriminate L]. exists []. split; [reflexivity|].
    intros N. now elim N.
  - rewrite chunks2_step by (cbn [String.length]; lia).
    rewrite drop_last_cons by lia.
    destruct (IH (PyStr.drop_last 2 s)) as (rest & E & _).
    { rewrite length_drop_last. lia. }
    rewrite E. eexists. split; [reflexivity|].
    intros _. now destruct rest.
Qed.

(** X20. A negative amount gets its minus sign grouped like a digit:
    when the integer it rounds to has an odd number of digits, five or
    more, the sign ends up as a group of its own and the text starts with
    "₹ -," (-12345 is printed as "₹ -,12,345"). *)
Theorem negative_amount_lone_minus (amount : float) (n : Z) (k : nat) :
  round_int amount = Ok n -> (n < 0)%Z ->
  String.length (str_int n) = (2 * k + 6)%nat ->
  exists rest,
    format_indian_currency (Float amount) = Ok ("₹ -," ++ rest)%string.
Proof.
  intros Hn Neg L. rewrite (format_rounded _ _ Hn).
  destruct (str_int_text n) as (d & _ & T & _).
  apply Z.ltb_lt in Neg. rewrite Neg in T. cbn [append] in T.
  rewrite T in *. cbn [String.length] in L.
  unfold indian_groups. rewrite drop_last_cons by lia.
  destruct (first_chunk_alone (k + 1) "-" (PyStr.drop_last 3 (digits_text d)))
    as (rest & E & NE).
  { rewrite length_drop_last. lia. }
  rewrite E.
  assert (R : rest <> []).
  { apply NE. intros Z. apply (f_equal String.length) in Z.
    rewrite length_drop_last in Z. simpl in Z. lia. }
  destruct rest as [|g rest]; [now elim R|].
  eexists. reflexivity.
Qed.

Lemma negative_amount_lone_minus_witness :
  exists rest,
    format_indian_currency (Float (clean_number "-12345"))
    = Ok ("₹ -," ++ rest)%string.
Proof.
  apply (negative_amount_lone_minus (clean_number "-12345") (-12345) 0).
  - vm_compute. reflexivity.
  - lia.
  - vm_compute. reflexivity.
Defined.

(** ** The chart payload (lines 40-45) *)

Definition b64_alphabet : string :=
  "ABCDEFGHIJKLMNOPQRSTUVWXYZabcdefghijklmnopqrstuvwxyz0123456789+/".

Definition b64_digit (n : nat) : ascii :=
  match String.get n b64_alphabet with
  | Some c => c
  | None => "="%char
  end.

(** [base64.b64encode(data).decode("utf-8")]: three bytes give four
    characters; one or two bytes left over are padded with "=". *)
Fixpoint b64encode (data : string) : string :=
  match data with
  | "" => ""
  | String a "" =>
      let x := nat_of_ascii a in
      String (b64_digit (x / 4))
        (String (b64_digit (x mod 4 * 16)) "==")
  | String a (String b "") =>
      let x := nat_of_ascii a in
      let y := nat_of_ascii b in
      String (b64_digit (x / 4))
        (String (b64_digit (x mod 4 * 16 + y / 16))
           (String (b64_digit (y mod 16 * 4)) "="))
  | String a (String b (String c rest)) =>
      let x := nat_of_ascii a in
      let y := nat_of_ascii b in
      let z := nat_of_ascii c in
      String (b64_digit (x / 4))
        (String (b64_digit (x mod 4 * 16 + y / 16))
           (String (b64_digit (y mod 16 * 4 + z / 64))
              (String (b64_digit (z mod 64)) (b64encode rest))))
  end.

(** [fig_to_base64_png(fig)]: the figure is saved as a PNG into a buffer,
    which matplotlib may fail to do, and the bytes of the buffer are
    encoded. *)
Definition fig_to_base64_png (savefig : result string) : result string :=
  png <- savefig ;; Ok (b64encode png).

Definition b64_char (c : ascii) : Prop :=
  In c (las b64_alphabet) \/ c = "="%char.

Lemma b64_digit_char (n : nat) : b64_char (b64_digit n).
Proof.
  unfold b64_digit. destruct (String.get n b64_alphabet) as [c|] eqn:G;
    [left | now right].
  revert n G. generalize b64_alphabet as s.
  induction s as [|c0 s IH]; intros [|n] G; simpl in G; try discriminate.
  - injection G as <-. now left.
  - right. now apply (IH n).
Qed.

Lemma b64encode_shape (data : string) :
  Forall b64_char (las (b64encode data))
  /\ String.length (b64encode data)
     = (4 * ((String.length data + 2) / 3))%nat.
Proof.
  assert (G : forall n data, (String.length data <= n)%nat ->
                Forall b64_char (las (b64encode data))
                /\ String.length (b64encode data)
                   = (4 * ((String.length data + 2) / 3))%nat).
  { clear data. induction n as [|n IH]; intros data L.
    - destruct data; [|simpl in L; lia]. split; [constructor | reflexivity].
    - destruct data as [|a [|b [|c rest]]].
      + split; [constructor | reflexivity].
      + split; [|reflexivity].
        repeat (constructor; try apply b64_digit_char); now right.
      + split; [|reflexivity].
        repeat (constructor; try apply b64_digit_char); now right.
      + destruct (IH rest) as [F E]; [simpl in L; lia|].
        cbn [b64encode]. cbv zeta. split.
        * cbn [list_ascii_of_string].
          repeat (constructor; [apply b64_digit_char|]). exact F.
        * cbn [String.length]. rewrite E.
          replace (S (S (S (String.length rest))) + 2)%nat
            with (String.length rest + 2 + 1 * 3)%nat by lia.
          rewrite Nat.div_add by lia. lia. }
  exact (G (String.length data) data (le_n _)).
Qed.

(** The place of a character in the alphabet. *)
Fixpoint b64_index_from (c : ascii) (s : string) (n : nat) : nat :=
  match s with
  | "" => n
  | String c0 s' => if Ascii.eqb c0 c then n else b64_index_from c s' (S n)
  end.

Definition b64_index (c : ascii) : nat := b64_index_from c b64_alphabet 0.

Lemma b64_digit_index :
  forallb (fun n => (b64_index (b64_digit n) =? n)%nat
                    && negb (Ascii.eqb (b64_digit n) "="))
          (seq 0 64) = true.
Proof. vm_compute. reflexivity. Qed.

Lemma b64_digit_inj (i j : nat) :
  (i < 64)%nat -> (j < 64)%nat -> b64_digit i = b64_digit j -> i = j.
Proof.
  intros Hi Hj E. pose proof b64_digit_index as P.
  rewrite forallb_forall in P.
  pose proof (P i ltac:(apply in_seq; lia)) as Pi.
  pose proof (P j ltac:(apply in_seq; lia)) as Pj.
  apply andb_true_iff in Pi, Pj. destruct Pi as [Pi _], Pj as [Pj _].
  apply Nat.eqb_eq in Pi, Pj. rewrite E in Pi. congruence.
Qed.

Lemma b64_digit_not_pad (i : nat) :
  (i < 64)%nat -> b64_digit i <> "="%char.
Proof.
  intros Hi E. pose proof b64_digit_index as P.
  rewrite forallb_forall in P.
  pose proof (P i ltac:(apply in_seq; lia)) as Pi.
  apply andb_true_iff in Pi. destruct Pi as [_ Pi].
  rewrite E in Pi. discriminate Pi.
Qed.

(** A byte cut in 6 + 2, 4 + 4 and 2 + 6 bits. *)
Lemma byte_parts (a : ascii) :
  let x := nat_of_ascii a in
  (x / 4 < 64 /\ x mod 4 < 4 /\ x = 4 * (x / 4) + x mod 4)%nat
  /\ (x / 16 < 16 /\ x mod 16 < 16 /\ x = 16 * (x / 16) + x mod 16)%nat
  /\ (x / 64 < 4 /\ x mod 64 < 64 /\ x = 64 * (x / 64) + x mod 64)%nat.
Proof.
  intros x. assert (B : (x < 256)%nat) by apply nat_ascii_bounded.
  repeat split;
    try (apply Nat.Div0.div_lt_upper_bound; lia);
    try (apply Nat.mod_upper_bound; lia);
    apply Nat.div_mod_eq.
Qed.

Lemma byte_inj (a b : ascii) : nat_of_ascii a = nat_of_ascii b -> a = b.
Proof.
  intros E. rewrite <- (ascii_nat_embedding a), <- (ascii_nat_embedding b).
  now rewrite E.
Qed.

Ltac b64_bounds :=
  repeat match goal with
         | a : ascii |- _ =>
             lazymatch goal with
             | _ : (nat_of_ascii a / 4 < 64)%nat |- _ => fail
             | _ => destruct (byte_parts a) as ((? & ? & ?) & (? & ? & ?)
                                                & (? & ? & ?))
             end
         end.

Lemma string_cons_inj (a b : ascii) (s t : string) :
  String a s = String b t -> a = b /\ s = t.
Proof. intros H. now injection H. Qed.

Ltac b64_split :=
  repeat match goal with
         | H : String _ _ = String _ _ |- _ =>
             apply string_cons_inj in H; destruct H as [? ?]
         | H : String _ _ = "" |- _ => discriminate H
         | H : "" = String _ _ |- _ => discriminate H
         end.

Ltac b64_pad :=
  match goal with
  | H : b64_digit _ = "="%char |- _ =>
      exfalso; revert H; apply b64_digit_not_pad; b64_bounds; lia
  | H : "="%char = b64_digit _ |- _ =>
      exfalso; symmetry in H; revert H; apply b64_digit_not_pad;
      b64_bounds; lia
  end.

Ltac b64_digits :=
  b64_bounds;
  repeat match goal with
         | H : b64_digit _ = b64_digit _ |- _ =>
             apply b64_digit_inj in H; [|lia|lia]
         end.

(** The encoding loses nothing: two different byte strings never have the
    same text. *)
Lemma b64encode_inj (d1 d2 : string) :
  b64encode d1 = b64encode d2 -> d1 = d2.
Proof.
  assert (G : forall n d1 d2, (String.length d1 <= n)%nat ->
                b64encode d1 = b64encode d2 -> d1 = d2).
  { clear d1 d2. induction n as [|n IH]; intros d1 d2 L E.
    - destruct d1; [|simpl in L; lia].
      destruct d2 as [|a [|b [|c r]]]; [reflexivity | discriminate E..].
    - destruct d1 as [|a1 [|b1 [|c1 r1]]];
        destruct d2 as [|a2 [|b2 [|c2 r2]]];
        try reflexivity; try discriminate E;
        cbn [b64encode] in E; cbv zeta in E; b64_split;
        try b64_pad; b64_digits.
      + f_equal. apply byte_inj. lia.
      + assert (nat_of_ascii a1 = nat_of_ascii a2) by lia.
        assert (nat_of_ascii b1 = nat_of_ascii b2) by lia.
        f_equal; [now apply byte_inj|]. f_equal. now apply byte_inj.
      + assert (nat_of_ascii a1 = nat_of_ascii a2) by lia.
        assert (nat_of_ascii b1 = nat_of_ascii b2) by lia.
        assert (nat_of_ascii c1 = nat_of_ascii c2) by lia.
        f_equal; [now apply byte_inj|]. f_equal; [now apply byte_inj|].
        f_equal; [now apply byte_inj|].
        apply IH; [simpl in L; lia | assumption]. }
  exact (G (String.length d1) d1 d2 (le_n _)).
Qed.

(** X21. The chart payload is plain base64 text: whatever bytes the
    figure is saved as, [fig_to_base64_png] returns four characters for
    every three bytes (the last group padded), all of them letters, digits,
    "+", "/" or "=", so that the payload cannot end the quoted [src]
    attribute it is pasted into on line 138; no other bytes give the same
    payload; and the function raises exactly when saving the figure does. *)
Theorem fig_to_base64_png_payload (savefig : result string) :
  match savefig with
  | Ok png =>
      exists payload,
        fig_to_base64_png savefig = Ok payload
        /\ Forall b64_char (las payload)
        /\ String.length payload = (4 * ((String.length png + 2) / 3))%nat
        /\ ~ In (ascii_of_nat 34) (las payload)
        /\ ~ In "'"%char (las payload)
        /\ (forall other, fig_to_base64_png (Ok other) = Ok payload ->
                          other = png)
  | Raise e => fig_to_base64_png savefig = Raise e
  end.
Proof.
  destruct savefig as [png|e]; [|reflexivity].
  exists (b64encode png). destruct (b64encode_shape png) as [F L].
  split; [reflexivity|]. split; [exact F|]. split; [exact L|].
  rewrite Forall_forall in F.
  change (ascii_of_nat 34)
    with (Ascii false true false false false true false false).
  repeat split.
  - intros H. apply F in H. destruct H as [H|H]; [|discriminate H].
    vm_compute in H. intuition discriminate.
  - intros H. apply F in H. destruct H as [H|H]; [|discriminate H].
    vm_compute in H. intuition discriminate.
  - intros other H. cbn [fig_to_base64_png bind] in H.
    injection H as H. now apply b64encode_inj.
Qed.

Example b64encode_examples :
  b64encode "Man" = "TWFu" /\ b64encode "Ma" = "TWE=" /\ b64encode "M" = "TQ=="
  /\ b64encode "light work." = "bGlnaHQgd29yay4="
  /\ b64encode (PyStr.chars [255; 254; 253; 0; 1]) = "//79AAE=".
Proof. repeat split; reflexivity. Qed.

(** ** From the workbook to the table *)

Lemma frame_of_columns_types {F} (types : list string) (values percents : list F) :
  List.length values = List.length types ->
  List.length percents = List.length types ->
  map asset_type (frame_of_columns types values percents) = types.
Proof.
  revert values percents.
  induction types as [|t types IH]; intros [|v values] [|p percents] Lv Lp;
    try discriminate; [reflexivity|].
  simpl. f_equal. apply IH; simpl in *; lia.
Qed.

Lemma allocation_types {F} {A : Arith F} {P : Platform}
    (assets : list (string * F)) :
  map asset_type (allocation assets) = map fst assets ++ ["Total"].
Proof.
  unfold allocation. rewrite map_app. f_equal.
  apply frame_of_columns_types; [now rewrite !length_map|].
  unfold percent_column.
  destruct (a_gtb _ _); now rewrite !length_map.
Qed.

(** X22. Every report lists the asset columns of the workbook: when each
    row of the workbook has a cell under every column label, the
    allocation frame of a client of the list has one row per asset column,
    labelled as in the workbook and in that order, followed by the Total
    row. *)
Theorem report_lists_all_columns {P : Platform}
    (raw : raw_frame) (cname : string) :
  Forall (fun r => List.length (snd r) = List.length (raw_columns raw))
         (raw_rows raw) ->
  In cname (client_list (load raw)) ->
  exists assets,
    assets_of (load raw) cname = Ok assets
    /\ map asset_type (allocation assets) = raw_columns raw ++ ["Total"].
Proof.
  intros Rect H.
  unfold assets_of, client_list in *.
  destruct (find _ (rows (load raw))) as [r|] eqn:F.
  - eexists. split; [reflexivity|]. rewrite allocation_types. f_equal.
    apply find_some in F. destruct F as [Hr _].
    assert (L : List.length (snd r) = List.length (raw_columns raw)).
    { unfold load, drop_blank_clients, normalise in Hr. cbn [rows] in Hr.
      apply filter_In in Hr. destruct Hr as [Hr _].
      apply in_map_iff in Hr. destruct Hr as (r1 & <- & Hr).
      apply in_map_iff in Hr. destruct Hr as (r0 & <- & Hr).
      cbn [snd]. rewrite !length_map. rewrite Forall_forall in Rect.
      now apply Rect. }
    change (columns (load raw)) with (raw_columns raw).
    revert L. generalize (snd r) as vs. generalize (raw_columns raw) as cols.
    induction cols as [|c cols IH]; intros [|v vs] L; try discriminate;
      [reflexivity|].
    simpl. f_equal. apply IH. simpl in L. lia.
  - apply in_map_iff in H. destruct H as (r & <- & Hr).
    pose proof (find_none _ _ F r Hr) as N. cbn beta in N.
    rewrite String.eqb_refl in N. discriminate N.
Qed.

Lemma report_lists_all_columns_witness :
  exists assets,
    assets_of (load acme_raw) "Birla" = Ok assets
    /\ map asset_type (allocation (P := posix) assets)
       = ["Equity"; "Debt"; "Total"].
Proof.
  apply (report_lists_all_columns (P := posix) acme_raw "Birla").
  - repeat constructor.
  - vm_compute. auto.
Defined.

Lemma nonneg_is_finite (x : float) : nonneg_float x -> is_finite x = true.
Proof. destruct x as [s| | |[] m e]; simpl; try contradiction; reflexivity. Qed.

Section ReportsOfFiniteClients.
Context {B : Backend} {P : Platform}.

(** X23. For a client whose values are finite and not negative and whose
    Total has not overflowed, the table is assembled whatever the chart:
    the report can fail only in the chart renderer or in the PDF writer,
    and is otherwise the PDF written from that page. *)
Theorem finite_client_report (client_name : string)
    (assets : list (string * float)) (report_dt : date) :
  Forall (fun a => nonneg_float (snd a)) assets ->
  series_sum (map snd assets) <> Binary64.infinity ->
  let client_df := allocation assets in
  exists html_of : string -> string,
    (forall chart_b64,
        build_unified_html client_name client_df report_dt chart_b64
        = Ok (html_of chart_b64))
    /\ build_client_pdf_bytes client_name client_df report_dt
       = (chart_b64 <- render_pie (map value (plot_rows client_df))
                                  (plot_colors (plot_rows client_df)) ;;
          write_pdf (html_of chart_b64)).
Proof.
  intros Hok Fin client_df.
  assert (A : forallb (fun row => is_finite (value row)) client_df = true).
  { apply forallb_forall. intros row Hrow.
    unfold client_df, allocation in Hrow. apply in_app_or in Hrow.
    destruct Hrow as [Hrow|[<-|[]]].
    - assert (V : In (value row) (map snd assets)).
      { revert Hrow. generalize (percent_column (map snd assets)
                                   (series_sum (map snd assets))) as ps.
        generalize (map fst assets) as ts. generalize (map snd assets) as vs.
        induction vs as [|v vs IH]; intros [|t ts] [|p ps] Hrow;
          try destruct Hrow.
        - subst row. now left.
        - right. now apply (IH ts ps). }
      apply in_map_iff in V. destruct V as (a & <- & Ha).
      rewrite Forall_forall in Hok. apply nonneg_is_finite. now apply Hok.
    - cbn [value]. apply nonneg_is_finite.
      destruct (total_cases assets Hok) as [I|(Nt & _ & _)];
        [contradiction | exact Nt]. }
  assert (R : forall chart_b64, exists html,
               build_unified_html client_name client_df report_dt chart_b64
               = Ok html).
  { intros chart. now apply html_of_finite_rows. }
  unfold build_unified_html in *.
  destruct (mapM row_html client_df) as [trs|e] eqn:M.
  - cbn [bind] in *.
    exists (fun chart_b64 =>
              page (upper client_name) (upper (strftime report_dt)) chart_b64
                   (PyStr.join (String (ascii_of_nat 10) "") trs)).
    split; [reflexivity|].
    unfold build_client_pdf_bytes, build_unified_html. fold client_df.
    rewrite M. reflexivity.
  - destruct (R "") as [html Hh]. discriminate Hh.
Qed.

End ReportsOfFiniteClients.

Lemma finite_client_report_witness :
  exists html_of : string -> string,
    (forall chart_b64,
        build_unified_html (B := plain_backend) "Acme"
          (allocation (P := posix) nine_assets) "03 November 2026" chart_b64
        = Ok (html_of chart_b64))
    /\ build_client_pdf_bytes (B := plain_backend) "Acme"
         (allocation (P := posix) nine_assets) "03 November 2026"
       = (chart_b64 <- render_pie (Backend := plain_backend)
                         (map value
                              (plot_rows (allocation (P := posix) nine_assets)))
                         (plot_colors
                            (plot_rows (allocation (P := posix) nine_assets))) ;;
          write_pdf (Backend := plain_backend) (html_of chart_b64)).
Proof.
  apply (finite_client_report (B := plain_backend) (P := posix) "Acme"
                              nine_assets "03 November 2026").
  - repeat (constructor; [vm_compute; reflexivity|]). constructor.
  - vm_compute. discriminate.
Defined.
